(** * Ell (gell): compiler, macro expander and bytecode VM

    A shallow embedding of the core of the Ell interpreter: the value model
    ([LOB]), the error values, call frames and [buildFrame], the VM loop of
    [VM.exec], the single-pass compiler ([compile], [compileExpr], ...) and
    the quasiquote walker of the macro expander, followed by the properties
    proved about them.

    Conventions of the embedding.
    - A Go pointer [*LOB] is an [LOB] value; the nil pointer is the
      constructor [Nil].  Interned atoms (symbols, keywords, types) and the
      singletons are identical exactly when they are equal as values.
    - A Go [int] is a [Z]; every index is checked against the length of the
      slice it indexes, as the Go runtime does.
    - A Go function returning [(value, error)] returns an [outcome]: [Ok],
      [Err] with the error object, or [Panic] for a Go run-time panic (index
      out of range, nil dereference).
    - Frames are heap objects shared between closures and the call chain: a
      frame pointer is an address into the list [heap].
    - Code outside the core (the writer, the primitive library, the module
      loader) is the interface [Host]. *)

From Stdlib Require Import ZArith List String Floats Lia Bool.
From stdpp Require Import gmap strings pretty.
Import ListNotations.

#[local] Set Warnings "-register-all".
#[local] Open Scope string_scope.
#[local] Open Scope list_scope.
#[local] Open Scope Z_scope.

(** ** Value model (data.go, runtime) *)

Module Code.
(** [type Code struct { name; ops; argc; defaults; keys }]: [defaults] is
    nil for normal procedures, empty for rest, non-empty for
    optional/keyword parameters. *)
Record t (V : Type) : Type := Make {
  name : string;
  ops : list Z;
  argc : Z;
  defaults : option (list V);
  keys : option (list V)
}.
Arguments Make {V} _ _ _ _ _.
Arguments name {V} _.
Arguments ops {V} _.
Arguments argc {V} _.
Arguments defaults {V} _.
Arguments keys {V} _.
End Code.

(** [type Primitive struct { name; fun; signature; idx }].  The Go function
    [fun] is reached through the host, see [primitiveFun]. *)
Record Primitive : Type := {
  prim_name : string;
  prim_signature : string;
  prim_idx : nat
}.

(** [type LFunction struct { code; frame; primitive; instruction }]. *)
Record LFunctionOf (V : Type) : Type := MkFunction {
  code : option (Code.t V);
  frame : option nat;
  primitive : option Primitive;
  instruction : Z
}.
Arguments MkFunction {V} _ _ _ _.
Arguments code {V} _.
Arguments frame {V} _.
Arguments primitive {V} _.
Arguments instruction {V} _.

(** The uniform tagged value, one constructor per variant. *)
Inductive LOB : Type :=
| Nil                                   (* the Go nil pointer *)
| Null
| True_
| False_
| Character (c : Z)
| Number (fval : float)
| String_ (text : string)
| Blob (text : string)
| Symbol (text : string)
| Keyword (text : string)
| Type_ (text : string)
| EmptyList
| Pair (car cdr : LOB)
| Vector (elements : list LOB)
| Struct (bindings : list (LOB * LOB))
| Function (function : LFunctionOf LOB)
| CodeObject (c : Code.t LOB)
| ErrorObject (data : LOB) (text : string).

Abbreviation LCode := (Code.t LOB).
Abbreviation LFunction := (LFunctionOf LOB).

Definition instructionNone : Z := 0.
Definition instructionApply : Z := 1.
Definition instructionCallCC : Z := 2.

(** [var Apply = &LOB{variant: typeFunction, function: &LFunction{instruction: instructionApply}}] *)
Definition Apply : LOB := Function (MkFunction None None None instructionApply).
Definition CallCC : LOB := Function (MkFunction None None None instructionCallCC).

(** [newClosure(code, frame)] *)
Definition newClosure (c : option LCode) (fr : nat) : LOB :=
  Function (MkFunction c (Some fr) None instructionNone).

(** Results of fallible Go code. *)
Inductive outcome (A : Type) : Type :=
| Ok (a : A)
| Err (e : LOB)
| Panic.
Arguments Ok {A} _.
Arguments Err {A} _.
Arguments Panic {A}.

#[export] Instance outcome_ret : MRet outcome := fun _ a => Ok a.
#[export] Instance outcome_bind : MBind outcome := fun _ _ k m =>
  match m with
  | Ok a => k a
  | Err e => Err e
  | Panic => Panic
  end.

Definition orPanic {A} (o : option A) : outcome A :=
  match o with
  | Some a => Ok a
  | None => Panic
  end.

(** ** Go slices over [Z] indices *)

Section Slices.
Context {A : Type}.

(** [l[i]] *)
Definition index (l : list A) (i : Z) : option A :=
  if (0 <=? i) then l !! Z.to_nat i else None.

(** [l[i] = v] *)
Definition store (l : list A) (i : Z) (v : A) : option (list A) :=
  if (0 <=? i) && (i <? Z.of_nat (length l))
  then Some (<[Z.to_nat i := v]> l) else None.

(** [l[lo:hi]] *)
Definition slice (l : list A) (lo hi : Z) : option (list A) :=
  if (0 <=? lo) && (lo <=? hi) && (hi <=? Z.of_nat (length l))
  then Some (take (Z.to_nat (hi - lo)) (drop (Z.to_nat lo) l)) else None.

(** [copy(dst, src)]: the first [min(len(dst), len(src))] cells. *)
Definition copy (dst src : list A) : list A :=
  take (length dst) src ++ drop (length src) dst.
End Slices.

(** [make([]*LOB, n)] *)
Definition make (n : Z) : option (list LOB) :=
  if (0 <=? n) then Some (replicate (Z.to_nat n) Nil) else None.

(** ** Lists *)

(** The list module (pairs, [car], [cdr], [length], ...) is not among the
    sources; its functions follow section 3 of the specification: a list is
    a pair [(car, cdr)] or the singleton EmptyList, lists are built from
    pairs terminated by EmptyList, and an improper list ends in a non-list. *)

(** [IsList(obj)] (data.go): the type tag of pairs and of EmptyList. *)
Definition isList (o : LOB) : bool :=
  match o with
  | EmptyList | Pair _ _ => true
  | _ => false
  end.

(** Modelled from the spec: [isPair(obj)], a cons cell (section 3). *)
Definition isPair (o : LOB) : bool :=
  match o with
  | Pair _ _ => true
  | _ => false
  end.

(** [IsSymbol(obj)] (data.go) *)
Definition isSymbol (o : LOB) : bool :=
  match o with
  | Symbol _ => true
  | _ => false
  end.

(** [IsKeyword(obj)] (data.go) *)
Definition isKeyword (o : LOB) : bool :=
  match o with
  | Keyword _ => true
  | _ => false
  end.

(** Modelled from the spec: [cons(car, cdr)], a new pair (section 3). *)
Definition cons (a d : LOB) : LOB := Pair a d.

(** Modelled from the spec: [car(lst)], the first component of a pair
    (section 3); the macro expander applies it to any object, and for one
    that is not a pair the result is Null. *)
Definition car (o : LOB) : LOB :=
  match o with
  | Pair a _ => a
  | _ => Null
  end.

(** Modelled from the spec: [cdr(lst)], the second component of a pair
    (section 3); EmptyList for an object that is not a pair. *)
Definition cdr (o : LOB) : LOB :=
  match o with
  | Pair _ d => d
  | _ => EmptyList
  end.

Definition cadr (o : LOB) : LOB := car (cdr o).
Definition cddr (o : LOB) : LOB := cdr (cdr o).
Definition caddr (o : LOB) : LOB := car (cddr o).
Definition cdddr (o : LOB) : LOB := cdr (cddr o).

(** Modelled from the spec: [list(v1, ..., vn)], [toList(values)] and
    [listFromValues(values)], the proper list of the values: pairs
    terminated by EmptyList (section 3). *)
Definition list_ (vs : list LOB) : LOB := foldr Pair EmptyList vs.
Definition listFromValues (vs : list LOB) : LOB := list_ vs.
Definition toList (vs : list LOB) : LOB := list_ vs.

(** The elements of a proper list; [None] when the chain of pairs does not
    end in [EmptyList]. *)
Fixpoint listElements (o : LOB) : option (list LOB) :=
  match o with
  | EmptyList => Some []
  | Pair a d => option_map (List.cons a) (listElements d)
  | _ => None
  end.

(** Modelled from the spec: [length(lst)], the number of elements of a
    proper list (section 3); -1 for an improper list (the compiler tests
    [length(args) < 0]). *)
Definition length_ (o : LOB) : Z :=
  match listElements o with
  | Some l => Z.of_nat (length l)
  | None => -1
  end.

(** Pointer identity [o1 == o2] ([Identical] of data.go).  Interned atoms and singletons are
    identical exactly when equal; the embedding has no addresses for other
    objects, and no two of them are identified. *)
Definition identical (o1 o2 : LOB) : bool :=
  match o1, o2 with
  | Nil, Nil | Null, Null | True_, True_ | False_, False_
  | EmptyList, EmptyList => true
  | Symbol a, Symbol b | Keyword a, Keyword b | Type_ a, Type_ b =>
      bool_decide (a = b)
  | Function f, Function g =>
      match code f, frame f, primitive f, code g, frame g, primitive g with
      | None, None, None, None, None, None =>
          (0 <? instruction f) && (instruction f =? instruction g)
      | _, _, _, _, _, _ => false
      end
  | _, _ => false
  end.

(** Modelled from the spec: [intern(text)], the unique symbol of a text
    (section 4.2). *)
Definition intern (text : string) : LOB := Symbol text.

(** ** The world outside the frames: constant pool, globals, macros *)

(** The process-wide tables of the global environment: the constant pool
    [constants], the bindings of the global symbols (the runtime keeps the
    binding of a symbol in the symbol itself; symbols are interned, so the
    table is keyed by their text), and the macro table. *)
Record World : Type := MkWorld {
  constants : list LOB;
  globals : gmap string LOB;
  macros : gmap string LOB
}.

(** ** The host: writer, primitive library, module loader *)

Class Host : Type := {
  (** [write(obj)], the textual writer. *)
  write : LOB -> string;
  (** [fmt.Sprintf("%v", values)] for a slice of objects. *)
  formatSlice : list LOB -> string;
  (** [String()] of the variants whose printers live outside the value
      model (numbers, characters, lists, structs, functions, code). *)
  stringOther : LOB -> string;
  (** [prim.fun(argv, argc)], the Go function of a primitive. *)
  primitiveFun : Primitive -> list LOB -> Z -> outcome LOB;
  (** [get(obj, key)], the struct accessor behind keyword calls. *)
  get : LOB -> LOB -> outcome LOB;
  (** [toSymbol(obj)]; [None] is a non-nil error.  The only caller,
      [buildFrame], drops the error value. *)
  toSymbol : LOB -> option LOB;
  (** [newStruct(fieldvals)]; the VM ignores its error result. *)
  newStruct : list LOB -> LOB;
  (** [use(sym)], the module loader; [None] is a nil error. *)
  use : LOB -> World -> World * option LOB;
  (** [AsIntValue(obj)] and [AsStringValue(obj)], used by [loadOps]. *)
  AsIntValue : LOB -> outcome Z;
  AsStringValue : LOB -> outcome string;
  (** [extendedInstructions], the compiler switch for primitive opcodes. *)
  extendedInstructions : bool
}.

(** ** Errors (data.go) *)

Definition ErrorKey : LOB := Keyword "error:".
Definition ArgumentErrorKey : LOB := Keyword "argument-error:".
Definition SyntaxErrorKey : LOB := Keyword "syntax-error:".
Definition MacroErrorKey : LOB := Keyword "macro-error:".
Definition InterruptKey : LOB := Keyword "interrupt:".

(** An argument of the variadic [Error]: a Go string, a Go int, an object
    or a slice of objects. *)
Inductive ErrArg : Type :=
| AStr (s : string)
| AInt (n : Z)
| AObj (o : LOB)
| AObjs (os : list LOB).

Section Errors.
Context `{Host}.

(** [vectorToString(vec)] (vector.go) and [LOB.String()] (data.go). *)
Fixpoint LOB_String (lob : LOB) : string :=
  match lob with
  | Null => "null"
  | True_ => "true"
  | False_ => "false"
  | String_ text | Symbol text | Keyword text | Type_ text => text
  | Vector el =>
      "[" +:+
      match el with
      | [] => ""
      | e0 :: rest =>
          LOB_String e0 +:+
          String.concat "" (List.map (fun e => " " +:+ LOB_String e) rest)
      end +:+ "]"
  | ErrorObject data _ => "#<error>" +:+ write data
  | _ => stringOther lob
  end.

(** [func (lob *LOB) Error() string] *)
Definition LOB_Error (lob : LOB) : string :=
  match lob with
  | ErrorObject data text =>
      let s := LOB_String data in
      if bool_decide (text = "") then s else s +:+ " [in " +:+ text +:+ "]"
  | _ => LOB_String lob
  end.

(** [newError(elements...)] *)
Definition newError (elements : list LOB) : LOB :=
  ErrorObject (Vector elements) "".

Definition fmtArg (a : ErrArg) : string :=
  match a with
  | AStr s => s
  | AInt n => pretty n
  | AObj o => write o
  | AObjs os => formatSlice os
  end.

(** [func Error(errkey *LOB, args ...interface{}) error] (data.go) *)
Definition Error (errkey : LOB) (args : list ErrArg) : LOB :=
  let buf := String.concat "" (List.map fmtArg args) in
  let errkey := if isKeyword errkey then errkey else ErrorKey in
  newError [errkey; String_ buf].

(** Modelled from the spec: the variadic [Error(args...)] that the runtime
    and the macro expander call without a keyword is not among the
    sources.  By sections 3 and 6 of the specification an error is a pair
    of a keyword of the fixed set and a payload; the arguments are
    rendered into the message as [Error] of data.go does, under the
    generic keyword [error:]. *)
Definition ErrorV (args : list ErrArg) : LOB := Error ErrorKey args.


(** [func syntaxError(expr lob) error { return newError(expr) }] (compiler) *)
Definition syntaxError (expr : LOB) : LOB := newError [expr].

(** [ArgcError(name, expected, got)] *)
Definition ArgcError (name expected : string) (got : Z) : LOB :=
  ErrorV [AStr "Wrong number of arguments to "; AStr name;
          AStr " (expected "; AStr expected; AStr ", got "; AInt got; AStr ")"].

(** [ArgTypeError(expected, num, arg)] *)
Definition ArgTypeError (expected : string) (num : Z) (arg : LOB) : LOB :=
  ErrorV [AStr "Argument "; AInt num; AStr " is not of type <";
          AStr expected; AStr ">: "; AObj arg].
End Errors.

(** ** Frames and [buildFrame] (runtime) *)

Module Frame.
(** [type Frame struct { locals; previous; ops; elements; constants; code; pc }];
    [locals] and [previous] are frame pointers. *)
Record t : Type := Make {
  locals : option nat;
  previous : option nat;
  ops : list Z;
  elements : list LOB;
  constants : list LOB;
  code : option LCode;
  pc : Z
}.

Definition setElements (f : t) (el : list LOB) : t :=
  Make (locals f) (previous f) (ops f) el (constants f) (code f) (pc f).
End Frame.

Section BuildFrame.
Context `{Host}.

(** [for j := 0; j < extra; j++ { if keys[j] == key { ...; break } }]:
    the slot of the first key identical to [key], if any. *)
Fixpoint findKey (keys : list LOB) (key : LOB) (n : nat) (j : Z)
  : outcome (option Z) :=
  match n with
  | O => Ok None
  | S n' =>
      k ← orPanic (index keys j);
      if identical k key then Ok (Some j) else findKey keys key n' (j + 1)
  end.

Section Loops.
Variables (stack : list LOB) (sp argc expectedArgc totalArgc extra : Z).
Variables (defaults keys : list LOB).

(** [for ; i < totalArgc; i++ { el[i] = defaults[i-expectedArgc] }] *)
Fixpoint fillDefaults (n : nat) (i : Z) (el : list LOB)
  : outcome (list LOB) :=
  match n with
  | O => Ok el
  | S n' =>
      if i <? totalArgc then
        d ← orPanic (index defaults (i - expectedArgc));
        el' ← orPanic (store el i d);
        fillDefaults n' (i + 1) el'
      else Ok el
  end.

(** [for i := expectedArgc; i < argc; i += 2 { ... }] *)
Fixpoint bindKeywords (n : nat) (i : Z) (el : list LOB)
  : outcome (list LOB) :=
  match n with
  | O => Ok el
  | S n' =>
      if i <? argc then
        k ← orPanic (index stack (sp + i));
        match toSymbol k with
        | Some key =>
            r ← findKey keys key (Z.to_nat extra) 0;
            match r with
            | Some j =>
                v ← orPanic (index stack (sp + i + 1));
                el' ← orPanic (store el (expectedArgc + j) v);
                bindKeywords n' (i + 2) el'
            | None =>
                Err (ErrorV [AStr "Undefined keyword argument: "; AObj key])
            end
        | None =>
            bad ← orPanic (index stack (sp + 1));
            Err (ErrorV [AStr "Bad keyword argument: "; AObj bad])
        end
      else Ok el
  end.
End Loops.

(** [buildFrame(env, pc, ops, fun, argc, stack, sp)].  The frame is
    returned as a value; the caller places it in the heap. *)
Definition buildFrame (env : option nat) (pc : Z) (ops : list Z)
    (fun_ : LFunction) (argc : Z) (stack : list LOB) (sp : Z)
  : outcome Frame.t :=
  fcode ← orPanic (code fun_);
  let f := Frame.Make (frame fun_) env ops [] [] (code fun_) pc in
  let expectedArgc := Code.argc fcode in
  match Code.defaults fcode with
  | None =>
      if negb (argc =? expectedArgc) then
        Err (ErrorV [AStr "Wrong number of args to "; AObj (Function fun_);
                     AStr " (expected "; AInt expectedArgc;
                     AStr ", got "; AInt argc; AStr ")"])
      else
        el ← orPanic (make argc);
        args ← orPanic (slice stack sp (sp + argc));
        Ok (Frame.setElements f (copy el args))
  | Some defaults =>
      let keys := Code.keys fcode in
      let rest := Z.of_nat (length defaults) =? 0 in
      let extra := if rest then 1 else Z.of_nat (length defaults) in
      if argc <? expectedArgc then
        if 0 <? extra then
          Err (ErrorV [AStr "Wrong number of args to "; AObj (Function fun_);
                       AStr " (expected at least "; AInt expectedArgc;
                       AStr ", got "; AInt argc; AStr ")"])
        else
          Err (ErrorV [AStr "Wrong number of args to "; AObj (Function fun_);
                       AStr " (expected "; AInt expectedArgc;
                       AStr ", got "; AInt argc; AStr ")"])
      else
        let totalArgc := expectedArgc + extra in
        el ← orPanic (make totalArgc);
        let end_ := sp + expectedArgc in
        if rest then
          args ← orPanic (slice stack sp end_);
          let el := copy el args in
          restElements ← orPanic (slice stack end_ (sp + argc));
          el ← orPanic (store el expectedArgc (listFromValues restElements));
          Ok (Frame.setElements f el)
        else
          match keys with
          | Some keys =>
              bindings ← orPanic (slice stack (sp + expectedArgc) (sp + argc));
              if negb (Z.of_nat (length bindings) mod 2 =? 0) then
                Err (ErrorV [AStr "Bad keyword argument(s): "; AObjs bindings])
              else
                args ← orPanic (slice stack sp (sp + expectedArgc));
                let el := copy el args in
                el ← fillDefaults expectedArgc totalArgc defaults
                       (Z.to_nat (totalArgc - expectedArgc)) expectedArgc el;
                el ← bindKeywords stack sp argc expectedArgc extra keys
                       (Z.to_nat (argc - expectedArgc)) expectedArgc el;
                Ok (Frame.setElements f el)
          | None =>
              args ← orPanic (slice stack sp (sp + argc));
              let el := copy el args in
              el ← fillDefaults expectedArgc totalArgc defaults
                     (Z.to_nat (totalArgc - argc)) argc el;
              Ok (Frame.setElements f el)
          end
  end.
End BuildFrame.

(** ** Opcodes (code.go) *)

Definition opcodeBad : Z := 0.
Definition opcodeLiteral : Z := 1.
Definition opcodeLocal : Z := 2.
Definition opcodeJumpFalse : Z := 3.
Definition opcodeJump : Z := 4.
Definition opcodeTailCall : Z := 5.
Definition opcodeCall : Z := 6.
Definition opcodeReturn : Z := 7.
Definition opcodeClosure : Z := 8.
Definition opcodePop : Z := 9.
Definition opcodeGlobal : Z := 10.
Definition opcodeDefGlobal : Z := 11.
Definition opcodeSetLocal : Z := 12.
Definition opcodeUse : Z := 13.
Definition opcodeDefMacro : Z := 14.
Definition opcodeVector : Z := 15.
Definition opcodeStruct : Z := 16.
Definition opcodeUndefGlobal : Z := 17.

(** ** Global environment *)

(** The binding of a global symbol ([sym.car] in the runtime); [None] is
    the unbound marker (section 4.2, get-global). *)
Definition globalValue (w : World) (sym : LOB) : option LOB :=
  match sym with
  | Symbol s => globals w !! s
  | _ => None
  end.

(** Modelled from the spec: [defGlobal(sym, val)] is not among the
    sources; section 4.2, def-global: globals[sym] <- val. *)
Definition defGlobal (sym val : LOB) (w : World) : World :=
  match sym with
  | Symbol s => MkWorld (constants w) (<[s := val]> (globals w)) (macros w)
  | _ => w
  end.

(** Modelled from the spec: [undefGlobal(sym)] is not among the sources;
    section 4.2, undef-global: delete the binding. *)
Definition undefGlobal (sym : LOB) (w : World) : World :=
  match sym with
  | Symbol s => MkWorld (constants w) (delete s (globals w)) (macros w)
  | _ => w
  end.

(** Modelled from the spec: [defMacro(sym, val)] is not among the sources;
    section 4.2, def-macro: macros[sym] <- val. *)
Definition defMacro (sym val : LOB) (w : World) : World :=
  match sym with
  | Symbol s => MkWorld (constants w) (globals w) (<[s := val]> (macros w))
  | _ => w
  end.

(** ** The virtual machine ([VM.exec], runtime) *)

(** Where the loop stands: at the top of the [for], or at one of the two
    labels that the Apply branches jump back to. *)
Inductive Control : Type :=
| Fetch
| CallAgain (fun_ : LOB) (argc savedPc : Z)
| TailCallAgain (fun_ : LOB) (argc : Z).

(** The variables of [VM.exec] together with the heap of frames, the global
    tables and the interrupt flag.  [checkInterrupt()] is not among the
    sources; by section 5 of the specification it polls a flag owned by
    the host, here the field [interrupt]. *)
Record Machine : Type := MkMachine {
  stack : list LOB;
  sp : Z;
  env : nat;
  ops : list Z;
  pc : Z;
  control : Control;
  heap : list Frame.t;
  world : World;
  interrupt : bool
}.

Section VM.
Context `{Host}.

(** [addContext(env, err)] *)
Definition addContext (env : Frame.t) (err : LOB) : LOB :=
  match Frame.code env with
  | None => err
  | Some c =>
      if bool_decide (Code.name c = "") then err
      else ErrorV [AStr "["; AStr (Code.name c); AStr "] "; AStr (LOB_Error err)]
  end.

(** Every error leaves the loop as [addContext(env, err)]. *)
Definition withContext {A} (env : Frame.t) (o : outcome A) : outcome A :=
  match o with
  | Err e => Err (addContext env e)
  | _ => o
  end.

(** [for i > 0 { tmpEnv = tmpEnv.locals; i-- }] *)
Fixpoint walkLocals (h : list Frame.t) (n : nat) (tmpEnv : option nat)
  : option (option nat) :=
  match n with
  | O => Some tmpEnv
  | S n' =>
      a ← tmpEnv;
      f ← h !! a;
      walkLocals h n' (Frame.locals f)
  end.

(** [for i := argc - 2; i > 0; i-- { arglist = cons(stack[sp+i], arglist) }] *)
Fixpoint consArgs (stack : list LOB) (sp : Z) (n : nat) (i : Z) (arglist : LOB)
  : outcome LOB :=
  match n with
  | O => Ok arglist
  | S n' =>
      if 0 <? i then
        a ← orPanic (index stack (sp + i));
        consArgs stack sp n' (i - 1) (cons a arglist)
      else Ok arglist
  end.

(** [for arglist != EmptyList { stack[sp+i] = arglist.car; i++; arglist = arglist.cdr }] *)
Fixpoint spliceArgs (arglist : LOB) (stack : list LOB) (sp i : Z)
  : outcome (list LOB) :=
  match arglist with
  | EmptyList => Ok stack
  | Pair a d =>
      stack' ← orPanic (store stack (sp + i) a);
      spliceArgs d stack' sp (i + 1)
  | _ => Panic
  end.

(** The Apply branch up to its [goto]: the function to call, the new
    argument count, the stack and the stack pointer. *)
Definition applyArgs (argc : Z) (stack : list LOB) (sp : Z)
  : outcome (LOB * Z * list LOB * Z) :=
  if argc <? 2 then Err (ArgcError "apply" "2+" argc)
  else
    fun_ ← orPanic (index stack sp);
    args ← orPanic (index stack (sp + argc - 1));
    if negb (isList args) then Err (ArgTypeError "list" argc args)
    else
      arglist ← consArgs stack sp (Z.to_nat (argc - 2)) (argc - 2) args;
      let sp := sp + argc in
      let argc := length_ arglist in
      let sp := sp - argc in
      stack ← spliceArgs arglist stack sp 0;
      Ok (fun_, argc, stack, sp).

Definition codeField (o : LOB) : option LCode :=
  match o with
  | CodeObject c => Some c
  | _ => None
  end.

Definition setRegs (m : Machine) (stack : list LOB) (sp : Z) (pc : Z) : Machine :=
  MkMachine stack sp (env m) (ops m) pc Fetch (heap m) (world m) (interrupt m).

Definition setWorld (m : Machine) (w : World) : Machine :=
  MkMachine (stack m) (sp m) (env m) (ops m) (pc m) (control m) (heap m) w
            (interrupt m).

(** Entering a frame: [env = f; ops = ...; pc = 0] with [f] newly
    allocated at the end of the heap. *)
Definition enter (m : Machine) (f : Frame.t) (sp : Z) (ops : list Z) : Machine :=
  MkMachine (stack m) sp (length (heap m)) ops 0 Fetch (heap m ++ [f])
            (world m) (interrupt m).

(** [pc = env.pc; ops = env.ops; env = env.previous; if env == nil { return stack[sp] }] *)
Definition leave (m : Machine) (cur : Frame.t) (stack : list LOB) (sp : Z)
  : outcome (Machine + LOB) :=
  match Frame.previous cur with
  | None => v ← orPanic (index stack sp); Ok (inr v)
  | Some prev =>
      Ok (inl (MkMachine stack sp prev (Frame.ops cur) (Frame.pc cur) Fetch
                         (heap m) (world m) (interrupt m)))
  end.

(** The body of [opcodeCall] from the label [opcodeCallAgain]. *)
Definition callAgain (m : Machine) (cur : Frame.t) (fun_ : LOB) (argc savedPc : Z)
  : outcome (Machine + LOB) :=
  match fun_ with
  | Nil => Panic
  | Function lfun =>
      match primitive lfun, code lfun with
      | Some prim, _ =>
          args ← orPanic (slice (stack m) (sp m) (sp m + argc));
          val ← primitiveFun prim args argc;
          let sp := sp m + argc - 1 in
          stack ← orPanic (store (stack m) sp val);
          Ok (inl (setRegs m stack sp savedPc))
      | None, Some fcode =>
          if interrupt m then Err (ErrorV [AStr "Interrupt"])
          else
            f ← buildFrame (Some (env m)) savedPc (ops m) lfun argc (stack m) (sp m);
            Ok (inl (enter m f (sp m + argc) (Code.ops fcode)))
      | None, None =>
          if identical fun_ Apply then
            '(fun_, argc, stack, sp) ← applyArgs argc (stack m) (sp m);
            Ok (inl (MkMachine stack sp (env m) (ops m) (pc m)
                               (CallAgain fun_ argc savedPc)
                               (heap m) (world m) (interrupt m)))
          else Err (ErrorV [AStr "unsupported instruction"; AObj fun_])
      end
  | Keyword text =>
      if negb (argc =? 1) then Err (ArgcError text "1" argc)
      else
        obj ← orPanic (index (stack m) (sp m));
        v ← get obj fun_;
        stack ← orPanic (store (stack m) (sp m) v);
        Ok (inl (setRegs m stack (sp m) savedPc))
  | _ => Err (ErrorV [AStr "Not a function: "; AObj fun_])
  end.

(** The body of [opcodeTailCall] from the label [opcodeTailCallAgain]. *)
Definition tailCallAgain (m : Machine) (cur : Frame.t) (fun_ : LOB) (argc : Z)
  : outcome (Machine + LOB) :=
  match fun_ with
  | Nil => Panic
  | Function lfun =>
      match primitive lfun, code lfun with
      | Some prim, _ =>
          args ← orPanic (slice (stack m) (sp m) (sp m + argc));
          val ← primitiveFun prim args argc;
          let sp := sp m + argc - 1 in
          stack ← orPanic (store (stack m) sp val);
          leave m cur stack sp
      | None, Some fcode =>
          f ← buildFrame (Frame.previous cur) (Frame.pc cur) (Frame.ops cur)
                lfun argc (stack m) (sp m);
          Ok (inl (enter m f (sp m + argc) (Code.ops fcode)))
      | None, None =>
          if identical fun_ Apply then
            '(fun_, argc, stack, sp) ← applyArgs argc (stack m) (sp m);
            Ok (inl (MkMachine stack sp (env m) (ops m) (pc m)
                               (TailCallAgain fun_ argc)
                               (heap m) (world m) (interrupt m)))
          else Err (ErrorV [AStr "unsupported instruction"; AObj fun_])
      end
  | Keyword text =>
      if negb (argc =? 1) then Err (ArgcError text "1" argc)
      else
        obj ← orPanic (index (stack m) (sp m));
        v ← get obj fun_;
        stack ← orPanic (store (stack m) (sp m) v);
        leave m cur stack (sp m)
  | _ => Err (ErrorV [AStr "Not a function:"; AObj fun_])
  end.

(** [sp--; stack[sp] = val] *)
Definition push (m : Machine) (val : LOB) (pc : Z) : outcome (Machine + LOB) :=
  let sp := sp m - 1 in
  stack ← orPanic (store (stack m) sp val);
  Ok (inl (setRegs m stack sp pc)).

(** One instruction at the top of the loop: [op := ops[pc]] and the chain
    of [if op == ...]. *)
Definition fetch (m : Machine) (cur : Frame.t) : outcome (Machine + LOB) :=
  let w := world m in
  op ← orPanic (index (ops m) (pc m));
  if op =? opcodeCall then
    fun_ ← orPanic (index (stack m) (sp m));
    argc ← orPanic (index (ops m) (pc m + 1));
    Ok (inl (MkMachine (stack m) (sp m + 1) (env m) (ops m) (pc m)
                       (CallAgain fun_ argc (pc m + 2))
                       (heap m) w (interrupt m)))
  else if op =? opcodeGlobal then
    idx ← orPanic (index (ops m) (pc m + 1));
    sym ← orPanic (index (constants w) idx);
    match globalValue w sym with
    | None => Err (ErrorV [AStr "Undefined symbol: "; AObj sym])
    | Some val => push m val (pc m + 2)
    end
  else if op =? opcodeLocal then
    i ← orPanic (index (ops m) (pc m + 1));
    tmpEnv ← orPanic (walkLocals (heap m) (Z.to_nat i) (Some (env m)));
    j ← orPanic (index (ops m) (pc m + 2));
    a ← orPanic tmpEnv;
    f ← orPanic (heap m !! a);
    val ← orPanic (index (Frame.elements f) j);
    push m val (pc m + 3)
  else if op =? opcodeJumpFalse then
    b ← orPanic (index (stack m) (sp m));
    if identical b False_ then
      rel ← orPanic (index (ops m) (pc m + 1));
      Ok (inl (setRegs m (stack m) (sp m + 1) (pc m + rel)))
    else Ok (inl (setRegs m (stack m) (sp m + 1) (pc m + 2)))
  else if op =? opcodePop then
    Ok (inl (setRegs m (stack m) (sp m + 1) (pc m + 1)))
  else if op =? opcodeTailCall then
    if interrupt m then Err (ErrorV [AStr "Interrupt"])
    else
      fun_ ← orPanic (index (stack m) (sp m));
      argc ← orPanic (index (ops m) (pc m + 1));
      Ok (inl (MkMachine (stack m) (sp m + 1) (env m) (ops m) (pc m)
                         (TailCallAgain fun_ argc)
                         (heap m) w (interrupt m)))
  else if op =? opcodeLiteral then
    idx ← orPanic (index (ops m) (pc m + 1));
    val ← orPanic (index (constants w) idx);
    push m val (pc m + 2)
  else if op =? opcodeSetLocal then
    i ← orPanic (index (ops m) (pc m + 1));
    tmpEnv ← orPanic (walkLocals (heap m) (Z.to_nat i) (Some (env m)));
    j ← orPanic (index (ops m) (pc m + 2));
    a ← orPanic tmpEnv;
    f ← orPanic (heap m !! a);
    val ← orPanic (index (stack m) (sp m));
    el ← orPanic (store (Frame.elements f) j val);
    Ok (inl (MkMachine (stack m) (sp m) (env m) (ops m) (pc m + 3) Fetch
                       (<[a := Frame.setElements f el]> (heap m))
                       w (interrupt m)))
  else if op =? opcodeClosure then
    idx ← orPanic (index (ops m) (pc m + 1));
    c ← orPanic (index (constants w) idx);
    if identical c Nil then Panic
    else push m (newClosure (codeField c) (env m)) (pc m + 2)
  else if op =? opcodeReturn then
    if interrupt m then Err (ErrorV [AStr "Interrupt"])
    else leave m cur (stack m) (sp m)
  else if op =? opcodeJump then
    rel ← orPanic (index (ops m) (pc m + 1));
    Ok (inl (setRegs m (stack m) (sp m) (pc m + rel)))
  else if op =? opcodeDefGlobal then
    idx ← orPanic (index (ops m) (pc m + 1));
    sym ← orPanic (index (constants w) idx);
    val ← orPanic (index (stack m) (sp m));
    Ok (inl (setWorld (setRegs m (stack m) (sp m) (pc m + 2))
                      (defGlobal sym val w)))
  else if op =? opcodeUndefGlobal then
    idx ← orPanic (index (ops m) (pc m + 1));
    sym ← orPanic (index (constants w) idx);
    Ok (inl (setWorld (setRegs m (stack m) (sp m) (pc m + 2))
                      (undefGlobal sym w)))
  else if op =? opcodeDefMacro then
    idx ← orPanic (index (ops m) (pc m + 1));
    sym ← orPanic (index (constants w) idx);
    val ← orPanic (index (stack m) (sp m));
    stack ← orPanic (store (stack m) (sp m) sym);
    Ok (inl (setWorld (setRegs m stack (sp m) (pc m + 2))
                      (defMacro sym val w)))
  else if op =? opcodeUse then
    idx ← orPanic (index (ops m) (pc m + 1));
    sym ← orPanic (index (constants w) idx);
    match use sym w with
    | (_, Some err) => Err err
    | (w', None) =>
        r ← push m sym (pc m + 2);
        match r with
        | inl m' => Ok (inl (setWorld m' w'))
        | inr v => Ok (inr v)
        end
    end
  else if op =? opcodeVector then
    vlen ← orPanic (index (ops m) (pc m + 1));
    el ← orPanic (slice (stack m) (sp m) (sp m + vlen));
    let sp := sp m + vlen - 1 in
    stack ← orPanic (store (stack m) sp (Vector el));
    Ok (inl (setRegs m stack sp (pc m + 2)))
  else if op =? opcodeStruct then
    vlen ← orPanic (index (ops m) (pc m + 1));
    el ← orPanic (slice (stack m) (sp m) (sp m + vlen));
    let sp := sp m + vlen - 1 in
    stack ← orPanic (store (stack m) sp (newStruct el));
    Ok (inl (setRegs m stack sp (pc m + 2)))
  else Err (ErrorV [AStr "Bad instruction: "; AStr (pretty op)]).

(** One turn of the loop (or of a label of the Apply branches): the next
    machine, the value returned to the host, the error returned to the
    host, or a Go panic. *)
Definition step (m : Machine) : outcome (Machine + LOB) :=
  cur ← orPanic (heap m !! env m);
  withContext cur
    match control m with
    | Fetch => fetch m cur
    | CallAgain fun_ argc savedPc => callAgain m cur fun_ argc savedPc
    | TailCallAgain fun_ argc => tailCallAgain m cur fun_ argc
    end.

(** The loop, for at most [n] turns; [None] when [n] turns do not finish
    the evaluation. *)
Fixpoint run (n : nat) (m : Machine) : option (outcome LOB) :=
  match n with
  | O => None
  | S n' =>
      match step m with
      | Ok (inl m') => run n' m'
      | Ok (inr v) => Some (Ok v)
      | Err e => Some (Err e)
      | Panic => Some Panic
      end
  end.

(** [vm.exec(code, args)] up to the loop: the initial machine, or the
    early return "No code to execute". *)
Definition initial (stackSize : Z) (w : World) (intr : bool)
    (c : LCode) (args : list LOB) : outcome Machine :=
  stack ← orPanic (make stackSize);
  let env := Frame.Make None None [] args [] None 0 in
  if Z.of_nat (length (Code.ops c)) =? 0 then
    Err (addContext env (ErrorV [AStr "No code to execute"]))
  else
    Ok (MkMachine stack stackSize 0 (Code.ops c) 0 Fetch [env] w intr).

(** [vm.exec(code, args)] for at most [n] turns of the loop (the
    instrumented variant, which prints each instruction, is left out). *)
Definition VM_exec (n : nat) (stackSize : Z) (w : World) (intr : bool)
    (c : LCode) (args : list LOB) : option (outcome LOB) :=
  match initial stackSize w intr c args with
  | Ok m => run n m
  | Err e => Some (Err e)
  | Panic => Some Panic
  end.

Definition defaultStackSize : Z := 1000.

(** [exec(code, args)]: a new VM of the default stack size. *)
Definition exec (n : nat) (w : World) (intr : bool) (c : LCode)
    (args : list LOB) : option (outcome LOB) :=
  if negb (Z.of_nat (length args) =? Code.argc c) then
    Some (Err (ErrorV [AStr "Wrong number of arguments"]))
  else VM_exec n defaultStackSize w intr c args.
End VM.

(** ** Code emission (code.go) *)

(** The code object being filled and the constant pool. *)
Record CompileState : Type := MkCompile {
  cur : LCode;
  pool : list LOB
}.

Fixpoint findConstant (cs : list LOB) (val : LOB) (i : Z) : option Z :=
  match cs with
  | [] => None
  | c :: rest => if identical c val then Some i else findConstant rest val (i + 1)
  end.

(** Modelled from the spec: [putConstant(val)] is not among the sources;
    section 3: the constant pool is append-only during compilation.  The
    index of a constant identical to [val] if the pool has one, else the
    index at which [val] is appended. *)
Definition putConstant (val : LOB) (cs : list LOB) : Z * list LOB :=
  match findConstant cs val 0 with
  | Some i => (i, cs)
  | None => (Z.of_nat (length cs), cs ++ [val])
  end.

(** [code.ops = append(code.ops, ...)] *)
Definition appendOps (c : LCode) (more : list Z) : LCode :=
  Code.Make (Code.name c) (Code.ops c ++ more) (Code.argc c)
            (Code.defaults c) (Code.keys c).

Definition emit (st : CompileState) (more : list Z) : CompileState :=
  MkCompile (appendOps (cur st) more) (pool st).

(** [code.ops = append(code.ops, op); code.ops = append(code.ops, putConstant(val))] *)
Definition emitConstant (op : Z) (st : CompileState) (val : LOB) : CompileState :=
  let '(idx, cs) := putConstant val (pool st) in
  MkCompile (appendOps (cur st) [op; idx]) cs.

Definition emitLiteral := emitConstant opcodeLiteral.
Definition emitGlobal := emitConstant opcodeGlobal.
Definition emitDefGlobal := emitConstant opcodeDefGlobal.
Definition emitUndefGlobal := emitConstant opcodeUndefGlobal.
Definition emitDefMacro := emitConstant opcodeDefMacro.
Definition emitUse := emitConstant opcodeUse.
Definition emitClosure (st : CompileState) (newCode : LCode) : CompileState :=
  emitConstant opcodeClosure st (CodeObject newCode).
Definition emitCall (st : CompileState) (argc : Z) := emit st [opcodeCall; argc].
Definition emitTailCall (st : CompileState) (argc : Z) := emit st [opcodeTailCall; argc].
Definition emitReturn (st : CompileState) := emit st [opcodeReturn].
Definition emitPop (st : CompileState) := emit st [opcodePop].
Definition emitLocal (st : CompileState) (i j : Z) := emit st [opcodeLocal; i; j].
Definition emitSetLocal (st : CompileState) (i j : Z) := emit st [opcodeSetLocal; i; j].
Definition emitVector (st : CompileState) (alen : Z) := emit st [opcodeVector; alen].
Definition emitStruct (st : CompileState) (slen : Z) := emit st [opcodeStruct; slen].

(** [emitJumpFalse(offset)] and [emitJump(offset)] return the location of
    the operand. *)
Definition emitJumpFalse (st : CompileState) (offset : Z) : CompileState * Z :=
  (emit st [opcodeJumpFalse; offset], Z.of_nat (length (Code.ops (cur st))) + 1).
Definition emitJump (st : CompileState) (offset : Z) : CompileState * Z :=
  (emit st [opcodeJump; offset], Z.of_nat (length (Code.ops (cur st))) + 1).

(** [code.ops[loc] = len(code.ops) - loc + 1] *)
Definition setJumpLocation (st : CompileState) (loc : Z) : outcome CompileState :=
  let c := cur st in
  ops' ← orPanic (store (Code.ops c) loc (Z.of_nat (length (Code.ops c)) - loc + 1));
  Ok (MkCompile (Code.Make (Code.name c) ops' (Code.argc c)
                           (Code.defaults c) (Code.keys c)) (pool st)).

(** The primitive opcodes of the extended instruction set (older code.go). *)
Definition opcodeNull : Z := 17.
Definition opcodeCar : Z := 18.
Definition opcodeCdr : Z := 19.
Definition opcodeAdd : Z := 20.
Definition opcodeMul : Z := 21.
Definition emitCar (st : CompileState) := emit st [opcodeCar].
Definition emitCdr (st : CompileState) := emit st [opcodeCdr].
Definition emitNull (st : CompileState) := emit st [opcodeNull].
Definition emitAdd (st : CompileState) := emit st [opcodeAdd].
Definition emitMul (st : CompileState) := emit st [opcodeMul].

(** [newCode(mod, argc, defaults, keys, name)] / [MakeCode] *)
Definition newCode (argc : Z) (defaults keys : option (list LOB)) (name : string)
  : LCode := Code.Make name [] argc defaults keys.

(** ** Recursion on fuel *)

(** The compiler recurses on sub-expressions that it takes apart with
    [car] and [cdr] or builds anew; the embedding recurses on a counter.
    [None] means that the counter ran out. *)
Definition fueled (A : Type) : Type := option (outcome A).

Definition fbind {A B} (m : fueled A) (k : A -> fueled B) : fueled B :=
  match m with
  | Some (Ok a) => k a
  | Some (Err e) => Some (Err e)
  | Some Panic => Some Panic
  | None => None
  end.

Definition done {A} (a : A) : fueled A := Some (Ok a).
Definition fail {A} (e : LOB) : fueled A := Some (Err e).
Definition lift {A} (o : outcome A) : fueled A := Some o.

Notation "'let*' x := m 'in' k" := (fbind m (fun x => k))
  (at level 10, x name, m at level 100, k at level 200, only parsing).

(** ** The compiler (compiler.go) *)

Section Compiler.
Context `{Host}.

(** [calculateLocation(sym, env)]: the inner loop over one parameter
    list, then the outer loop over the frames. *)
Fixpoint locationInFrame (sym e : LOB) (j : Z) : option Z :=
  match e with
  | Pair a d => if identical a sym then Some j else locationInFrame sym d (j + 1)
  | _ => None
  end.

Fixpoint calculateLocation (sym env : LOB) (i : Z) : option (Z * Z) :=
  match env with
  | Pair e rest =>
      match locationInFrame sym e 0 with
      | Some j => Some (i, j)
      | None => calculateLocation sym rest (i + 1)
      end
  | _ => None
  end.

(** [if ignoreResult { code.emitPop() } else if isTail { code.emitReturn() }] *)
Definition finish (st : CompileState) (isTail ignoreResult : bool) : CompileState :=
  if ignoreResult then emitPop st
  else if isTail then emitReturn st
  else st.

(** [if !ignoreResult { code.emitX(val); if isTail { code.emitReturn() } }] *)
Definition value (st' : CompileState) (st : CompileState)
    (isTail ignoreResult : bool) : CompileState :=
  if negb ignoreResult then
    if isTail then emitReturn st' else st'
  else st.

(** The elements of an optional-parameter vector [[y (z 23)]] of
    [compileLambda]: the symbols and their defaults. *)
Fixpoint optionalParams (tmp : LOB) (elements syms defaults : list LOB)
  : outcome (list LOB * list LOB) :=
  match elements with
  | [] => Ok (syms, defaults)
  | sym :: rest =>
      let '(sym, def) :=
        match sym with
        | Pair a next =>
            (a, match next with Pair d _ => d | _ => EmptyList end)
        | _ => (sym, EmptyList)
        end in
      if negb (isSymbol sym) then Err (syntaxError tmp)
      else optionalParams tmp rest (syms ++ [sym]) (defaults ++ [def])
  end.

(** The bindings of a keyword-parameter map [{y: 23 z: 57}] of
    [compileLambda], in the order of the iteration. *)
Fixpoint keywordParams (tmp : LOB) (bindings : list (LOB * LOB))
    (syms keys defaults : list LOB)
  : outcome (list LOB * list LOB * list LOB) :=
  match bindings with
  | [] => Ok (syms, keys, defaults)
  | (sym, defValue) :: rest =>
      let sym :=
        if isPair sym && identical (car sym) (intern "quote") && isPair (cdr sym)
        then cadr sym else sym in
      if negb (isSymbol sym) then Err (syntaxError tmp)
      else keywordParams tmp rest (syms ++ [sym]) (keys ++ [sym])
                         (defaults ++ [defValue])
  end.

(** The parameter loop of [compileLambda] and the rest-argument test
    after it: [argc], [syms], [defaults], [keys]. *)
Fixpoint lambdaParams (tmp : LOB) (argc : Z) (syms : list LOB)
  : outcome (Z * list LOB * option (list LOB) * option (list LOB)) :=
  match tmp with
  | Pair a d =>
      match a with
      | Vector elements =>
          if negb (identical d EmptyList) then Err (syntaxError tmp)
          else
            '(syms, defaults) ← optionalParams tmp elements syms [];
            Ok (argc, syms, Some defaults, None)
      | Struct bindings =>
          if negb (identical d EmptyList) then Err (syntaxError tmp)
          else
            '(syms, keys, defaults) ← keywordParams tmp bindings syms [] [];
            Ok (argc, syms, Some defaults, Some keys)
      | _ =>
          if negb (isSymbol a) then Err (syntaxError tmp)
          else lambdaParams d (argc + 1) (syms ++ [a])
      end
  | EmptyList => Ok (argc, syms, None, None)
  | _ =>
      if isSymbol tmp then Ok (argc, syms ++ [tmp], Some [], None)
      else Err (syntaxError tmp)
  end.

(** [compilePrimopCall(code, fn, argc, isTail, ignoreResult)] *)
Definition compilePrimopCall (st : CompileState) (fn : LOB) (argc : Z)
    (isTail ignoreResult : bool) : bool * CompileState :=
  let after st' :=
    (true, if isTail then emitReturn st'
           else if ignoreResult then emitPop st' else st') in
  if identical fn (intern "car") then
    if negb (argc =? 1) then (false, st) else after (emitCar st)
  else if identical fn (intern "cdr") then
    if negb (argc =? 1) then (false, st) else after (emitCdr st)
  else if identical fn (intern "null?") then
    if negb (argc =? 1) then (false, st) else after (emitNull st)
  else if identical fn (intern "+") then
    if negb (argc =? 2) then (false, st) else after (emitAdd st)
  else if identical fn (intern "*") then
    if negb (argc =? 2) then (false, st) else after (emitMul st)
  else (false, st).

(** [compileUse(code, rest)] *)
Definition compileUse (st : CompileState) (rest : LOB) : outcome CompileState :=
  let lstlen := length_ rest in
  if negb (lstlen =? 1) then Err (syntaxError (cons (intern "use") rest))
  else
    let sym := car rest in
    if negb (isSymbol sym) then Err (syntaxError rest)
    else Ok (emitUse st sym).

(** The parameter descriptor of a [(func ...)] list in [loadOps]:
    [argc], [name], [defaults], [keys]. *)
Definition loadFuncParams (funcParams : LOB)
  : outcome (Z * string * option (list LOB) * option (list LOB)) :=
  if isSymbol funcParams then
    argc ← AsIntValue funcParams;
    if argc <? 0 then Ok (- argc - 1, "", Some [], None)
    else Ok (argc, "", None, None)
  else if isList funcParams && (length_ funcParams =? 4) then
    let tmp := funcParams in
    let a := car tmp in
    let tmp := cdr tmp in
    match AsStringValue a with
    | Ok name =>
        let a := car tmp in
        let tmp := cdr tmp in
        match AsIntValue a with
        | Ok argc =>
            let a := car tmp in
            let tmp := cdr tmp in
            let defaults := match a with Vector el => Some el | _ => None end in
            let a := car tmp in
            let keys := match a with Vector el => Some el | _ => None end in
            Ok (argc, name, defaults, keys)
        | Err _ => Err (Error SyntaxErrorKey [AObj funcParams])
        | Panic => Panic
        end
    | Err _ => Err (Error SyntaxErrorKey [AObj funcParams])
    | Panic => Panic
    end
  else Err (Error SyntaxErrorKey [AObj funcParams]).

(** [code.loadOps(lst)] (code.go).  The code object keeps what was
    emitted before an error: the result is the state and the error. *)
Fixpoint loadOps (fuel : nat) (st : CompileState) (lst : LOB)
  : fueled (CompileState * option LOB) :=
  match fuel with
  | O => None
  | S n =>
      if identical lst EmptyList then done (st, None)
      else
        let instr := car lst in
        let op := car instr in
        let next st' := loadOps n st' (cdr lst) in
        let stop (e : LOB) : fueled (CompileState * option LOB) :=
          done (st, Some e) in
        let withInt (o : LOB) (k : Z -> fueled (CompileState * option LOB)) :=
          match AsIntValue o with
          | Ok i => k i
          | Err e => stop e
          | Panic => Some Panic
          end in
        if identical op (intern "closure") then
          let lstFunc := cadr instr in
          if negb (identical (car lstFunc) (intern "func")) then
            stop (Error SyntaxErrorKey [AObj instr])
          else
            let lstFunc := cdr lstFunc in
            match loadFuncParams (car lstFunc) with
            | Ok (argc, name, defaults, keys) =>
                let fun_ := newCode argc defaults keys name in
                let* r := loadOps n (MkCompile fun_ (pool st)) (cdr lstFunc) in
                next (emitClosure (MkCompile (cur st) (pool (fst r))) (cur (fst r)))
            | Err e => stop e
            | Panic => Some Panic
            end
        else if identical op (intern "literal") then
          next (emitLiteral st (cadr instr))
        else if identical op (intern "local") then
          withInt (cadr instr) (fun i =>
          withInt (caddr instr) (fun j => next (emitLocal st i j)))
        else if identical op (intern "setlocal") then
          withInt (cadr instr) (fun i =>
          withInt (caddr instr) (fun j => next (emitSetLocal st i j)))
        else if identical op (intern "global") then
          let sym := cadr instr in
          if isSymbol sym then next (emitGlobal st sym)
          else stop (Error (intern "global")
                           [AStr " argument 1 not a symbol: "; AObj sym])
        else if identical op (intern "undefine") then
          next (emitUndefGlobal st (cadr instr))
        else if identical op (intern "jump") then
          withInt (cadr instr) (fun loc => next (fst (emitJump st loc)))
        else if identical op (intern "jumpfalse") then
          withInt (cadr instr) (fun loc => next (fst (emitJumpFalse st loc)))
        else if identical op (intern "call") then
          withInt (cadr instr) (fun argc => next (emitCall st argc))
        else if identical op (intern "tailcall") then
          withInt (cadr instr) (fun argc => next (emitTailCall st argc))
        else if identical op (intern "return") then next (emitReturn st)
        else if identical op (intern "pop") then next (emitPop st)
        else if identical op (intern "defglobal") then
          next (emitDefGlobal st (cadr instr))
        else if identical op (intern "defmacro") then
          next (emitDefMacro st (cadr instr))
        else if identical op (intern "use") then
          next (emitUse st (cadr instr))
        else Some Panic
  end.

(** [compileExpr] and the functions it is mutually recursive with. *)
Fixpoint compileExpr (fuel : nat) (st : CompileState) (env expr : LOB)
    (isTail ignoreResult : bool) (context : string) {struct fuel}
  : fueled CompileState :=
  match fuel with
  | O => None
  | S n =>
      if isSymbol expr then
        let st :=
          match calculateLocation expr env 0 with
          | Some (i, j) => emitLocal st i j
          | None => emitGlobal st expr
          end in
        done (finish st isTail ignoreResult)
      else if isPair expr then
        let lst := expr in
        let lstlen := length_ lst in
        if lstlen =? 0 then fail (syntaxError lst)
        else
          let fn := car lst in
          if identical fn (intern "quote") then
            if negb (lstlen =? 2) then fail (syntaxError expr)
            else done (value (emitLiteral st (cadr lst)) st isTail ignoreResult)
          else if identical fn (intern "begin") then
            compileSequence n st env (cdr lst) isTail ignoreResult context
          else if identical fn (intern "if") then
            if (lstlen =? 3) || (lstlen =? 4) then
              compileIfElse n st env (cadr expr) (caddr expr) (cdddr expr)
                            isTail ignoreResult context
            else fail (syntaxError expr)
          else if identical fn (intern "define") then
            if lstlen <? 3 then fail (syntaxError expr)
            else
              let sym := cadr lst in
              let val := caddr lst in
              let* symval :=
                if negb (isSymbol sym) then
                  if isPair sym && (1 <=? length_ sym) then
                    let args := cdr sym in
                    done (car sym, list_ [intern "lambda"; args; val])
                  else fail (syntaxError expr)
                else done (sym, val) in
              let sym := fst symval in
              let* st := compileExpr n st env (snd symval) false false
                                     (LOB_String sym) in
              done (finish (emitDefGlobal st sym) isTail ignoreResult)
          else if identical fn (intern "define-macro") then
            if negb (lstlen =? 3) then fail (syntaxError expr)
            else
              let sym := cadr lst in
              if negb (isSymbol sym) then fail (syntaxError expr)
              else
                let* st := compileExpr n st env (caddr lst) false false
                                       (LOB_String sym) in
                done (finish (emitDefMacro st sym) isTail ignoreResult)
          else if identical fn (intern "lambda") then
            if lstlen <? 3 then fail (syntaxError expr)
            else
              let body := cddr lst in
              let args := cadr lst in
              compileLambda n st env args body isTail ignoreResult context
          else if identical fn (intern "set!") then
            if negb (lstlen =? 3) then fail (syntaxError expr)
            else
              let sym := cadr lst in
              if negb (isSymbol sym) then fail (syntaxError expr)
              else
                let* st := compileExpr n st env (caddr lst) false false context in
                let st :=
                  match calculateLocation sym env 0 with
                  | Some (i, j) => emitSetLocal st i j
                  | None => emitDefGlobal st sym (* fix, should be SetGlobal!!! *)
                  end in
                done (finish st isTail ignoreResult)
          else if identical fn (intern "lap") then
            let* r := loadOps n st (cdr expr) in
            match snd r with
            | Some e => fail e
            | None => done (fst r)
            end
          else if identical fn (intern "use") then
            lift (compileUse st (cdr lst))
          else
            compileFuncall n st env fn (cdr lst) isTail ignoreResult context
      else
        match expr with
        | Vector elements =>
            (* vector literal: the elements are evaluated *)
            let* st := compileElements n st env (rev elements) context in
            done (emitVector st (Z.of_nat (length elements)))
        | Struct bindings =>
            let vals := flat_map (fun kv => [fst kv; snd kv]) bindings in
            let* st := compileElements n st env (rev vals) context in
            done (emitStruct st (Z.of_nat (length vals)))
        | _ => done (value (emitLiteral st expr) st isTail ignoreResult)
        end
  end

(** [for i := vlen - 1; i >= 0; i-- { compileExpr(code, env, elements[i], false, false, context) }],
    given the elements from the last to the first. *)
with compileElements (fuel : nat) (st : CompileState) (env : LOB)
    (reversed : list LOB) (context : string) {struct fuel}
  : fueled CompileState :=
  match fuel with
  | O => None
  | S n =>
      match reversed with
      | [] => done st
      | obj :: rest =>
          let* st := compileExpr n st env obj false false context in
          compileElements n st env rest context
      end
  end

(** [compileLambda(code, env, args, body, isTail, ignoreResult, context)] *)
with compileLambda (fuel : nat) (st : CompileState) (env args body : LOB)
    (isTail ignoreResult : bool) (context : string) {struct fuel}
  : fueled CompileState :=
  match fuel with
  | O => None
  | S n =>
      let* params := lift (lambdaParams args 0 []) in
      let '(argc, syms, defaults, keys) := params in
      let args := toList syms in
      let newEnv := cons args env in
      let lambdaCode := newCode argc defaults keys context in
      let* lst := compileSequence n (MkCompile lambdaCode (pool st)) newEnv body
                                  true false context in
      let st := MkCompile (cur st) (pool lst) in
      done (value (emitClosure st (cur lst)) st isTail ignoreResult)
  end

(** [compileSequence(code, env, exprs, isTail, ignoreResult, context)] *)
with compileSequence (fuel : nat) (st : CompileState) (env exprs : LOB)
    (isTail ignoreResult : bool) (context : string) {struct fuel}
  : fueled CompileState :=
  match fuel with
  | O => None
  | S n =>
      if negb (identical exprs EmptyList) then
        if negb (identical (cdr exprs) EmptyList) then
          let* st := compileExpr n st env (car exprs) false true context in
          compileSequence n st env (cdr exprs) isTail ignoreResult context
        else compileExpr n st env (car exprs) isTail ignoreResult context
      else fail (syntaxError (cons (intern "begin") exprs))
  end

(** [compileFuncall(code, env, fn, args, isTail, ignoreResult, context)] *)
with compileFuncall (fuel : nat) (st : CompileState) (env fn args : LOB)
    (isTail ignoreResult : bool) (context : string) {struct fuel}
  : fueled CompileState :=
  match fuel with
  | O => None
  | S n =>
      let argc := length_ args in
      if argc <? 0 then fail (syntaxError (cons fn args))
      else
        let* st := compileArgs n st env args context in
        let prim :=
          if extendedInstructions
          then compilePrimopCall st fn argc isTail ignoreResult
          else (false, st) in
        if fst prim then done (snd prim)
        else
          let* st := compileExpr n st env fn false false context in
          if isTail then done (emitTailCall st argc)
          else
            let st := emitCall st argc in
            done (if ignoreResult then emitPop st else st)
  end

(** [compileArgs(code, env, args, context)] *)
with compileArgs (fuel : nat) (st : CompileState) (env args : LOB)
    (context : string) {struct fuel} : fueled CompileState :=
  match fuel with
  | O => None
  | S n =>
      if negb (identical args EmptyList) then
        let* st := compileArgs n st env (cdr args) context in
        compileExpr n st env (car args) false false context
      else done st
  end

(** [compileIfElse(code, env, predicate, consequent, antecedentOptional, isTail, ignoreResult, context)] *)
with compileIfElse (fuel : nat) (st : CompileState)
    (env predicate consequent antecedentOptional : LOB)
    (isTail ignoreResult : bool) (context : string) {struct fuel}
  : fueled CompileState :=
  match fuel with
  | O => None
  | S n =>
      let antecedent :=
        if negb (identical antecedentOptional EmptyList)
        then car antecedentOptional else EmptyList in
      let* st := compileExpr n st env predicate false false context in
      let '(st, loc1) := emitJumpFalse st 0 in
      let* st := compileExpr n st env consequent isTail ignoreResult context in
      let '(st, loc2) := if negb isTail then emitJump st 0 else (st, 0) in
      let* st := lift (setJumpLocation st loc1) in
      let* st := compileExpr n st env antecedent isTail ignoreResult context in
      if negb isTail then lift (setJumpLocation st loc2) else done st
  end.

(** [compile(module, expr)]: the code object and the constant pool. *)
Definition compile (fuel : nat) (constants : list LOB) (expr : LOB)
  : fueled CompileState :=
  let code := newCode 0 None None "" in
  let* st := compileExpr fuel (MkCompile code constants) EmptyList expr
                         false false "" in
  done (emitReturn st).
End Compiler.

(** ** Quasiquote (macro.go) *)

Definition symQuasiquote : LOB := intern "quasiquote".
Definition symUnquote : LOB := intern "unquote".
Definition symUnquoteSplicing : LOB := intern "unquote-splicing".

Section Quasiquote.
Context `{Host}.

(** [macroexpand(expr)].  The expander re-enters itself through the
    macro table, whose expanders are closures run by the VM and
    primitives of the host; the quasiquote walker is defined over any
    expander. *)
Variable macroexpand : LOB -> outcome LOB.

(** The loop of [expandQQList(lst)]: the cells linked after the head
    [(concat ...)], in order. *)
Fixpoint expandQQItems (lst : LOB) : outcome (list LOB) :=
  match lst with
  | Pair item rest =>
      part ←
        match item with
        | Pair head _ =>
            if identical head symQuasiquote then
              Err (ErrorV [AStr "nested quasiquote not supported"])
            else if identical head symUnquote && (length_ item =? 2) then
              tmp ← macroexpand (cadr item);
              Ok (list_ [intern "list"; tmp])
            else if identical head symUnquoteSplicing && (length_ item =? 2) then
              macroexpand (cadr item)
            else
              parts ← expandQQItems item;
              Ok (list_ [intern "list"; list_ (intern "concat" :: parts)])
        | _ => Ok (list_ [intern "quote"; list_ [item]])
        end;
      parts ← expandQQItems rest;
      Ok (part :: parts)
  | _ => Ok []
  end.

(** [expandQQList(lst)] *)
Definition expandQQList (lst : LOB) : outcome LOB :=
  parts ← expandQQItems lst;
  Ok (list_ (intern "concat" :: parts)).


End Quasiquote.

(** ** A host for closed examples *)

Module Example.
(** Modelled from the spec: the writer is outside the sources; atoms are
    written as their text (section 4.1, canonical form). *)
Definition writeAtom (o : LOB) : string :=
  match o with
  | Null => "null"
  | True_ => "true"
  | False_ => "false"
  | String_ t | Symbol t | Keyword t | Type_ t => t
  | EmptyList => "()"
  | _ => "#[object]"
  end.

Fixpoint sum (argv : list LOB) (acc : float) : option float :=
  match argv with
  | [] => Some acc
  | Number f :: rest => sum rest (acc + f)%float
  | _ => None
  end.

(** Modelled from the spec: the primitive library is outside the
    sources; [+] adds its numeric arguments (section 8, scenarios 1 and
    7), any other primitive is absent. *)
Definition plusOnly (p : Primitive) (argv : list LOB) (argc : Z)
  : outcome LOB :=
  if bool_decide (prim_name p = "+") then
    match sum argv 0%float with
    | Some f => Ok (Number f)
    | None => Err (ErrorObject (Vector [ArgumentErrorKey; String_ "not a number"]) "")
    end
  else Err (ErrorObject (Vector [ErrorKey; String_ "no such primitive"]) "").

(** Modelled from the spec: [toSymbol] is outside the sources; a keyword
    is a symbol whose text ends in a colon (glossary), a symbol is itself. *)
Definition keySymbol (o : LOB) : option LOB :=
  match o with
  | Symbol _ => Some o
  | Keyword t => Some (Symbol (substring 0 (String.length t - 1) t))
  | _ => None
  end.

#[global] Instance host : Host := {|
  write := writeAtom;
  formatSlice := fun os => String.concat " " (List.map writeAtom os);
  stringOther := writeAtom;
  primitiveFun := plusOnly;
  get := fun _ _ => Ok Null;
  toSymbol := keySymbol;
  newStruct := fun el => Struct [];
  use := fun _ w => (w, None);
  AsIntValue := fun _ => Err Null;
  AsStringValue := fun _ => Err Null;
  extendedInstructions := false
|}.

(** The primitive [+] as a function object. *)
Definition plus : LOB :=
  Function (MkFunction None None (Some {| prim_name := "+"; prim_signature := "(<number>*) <number>"; prim_idx := 0 |}) instructionNone).
End Example.

(** ** Vocabulary of the properties, closed examples *)


(** The slot of a key: the index, counted from [j], of the first element of
    [keys] identical to [key]. *)
Fixpoint slotFrom (keys : list LOB) (key : LOB) (j : Z) : option Z :=
  match keys with
  | [] => None
  | k :: rest => if identical k key then Some j else slotFrom rest key (j + 1)
  end.

(** The slot that a supplied key argument selects. *)
Definition keySlot `{Host} (keys : list LOB) (k : LOB) : option Z :=
  key ← toSymbol k; slotFrom keys key 0.

(** The stack cells of a sequence of (key, value) pairs. *)
Definition keywordCells (pairs : list (LOB * LOB)) : list LOB :=
  flat_map (fun kv => [fst kv; snd kv]) pairs.

(** The parameter slots after binding the pairs from left to right; [None]
    when a key selects no slot. *)
Fixpoint bindPairs `{Host} (keys : list LOB) (required : Z)
    (pairs : list (LOB * LOB)) (el : list LOB) : option (list LOB) :=
  match pairs with
  | [] => Some el
  | (k, v) :: rest =>
      j ← keySlot keys k;
      bindPairs keys required rest (<[Z.to_nat (required + j) := v]> el)
  end.



(** Scenario 7 of the specification: [(apply + '(1 2 3 4))], and globals
    that bind [+] and [apply]. *)
Definition applyExpr : LOB :=
  list_ [Symbol "apply"; Symbol "+";
         list_ [Symbol "quote"; list_ [Number 1; Number 2; Number 3; Number 4]]].

Definition applyGlobals : gmap string LOB :=
  <["+" := Example.plus]> (<["apply" := Apply]> ∅).

Definition applyMachine : Machine :=
  MkMachine [Nil; Nil; Example.plus;
             list_ [Number 1; Number 2; Number 3; Number 4]]
            2 0 [opcodeCall; 2; opcodeReturn] 0 (CallAgain Apply 2 2)
            [Frame.Make None None [] [] [] None 0]
            (MkWorld [] ∅ ∅) false.

(** [Callers h p n]: the chain of [previous] links that starts at the frame
    pointer [p] has [n] frames. *)
Inductive Callers (h : list Frame.t) : option nat -> nat -> Prop :=
| Callers_nil : Callers h None 0
| Callers_frame (a : nat) (f : Frame.t) (n : nat) :
    h !! a = Some f ->
    Callers h (Frame.previous f) n ->
    Callers h (Some a) (S n).

(** The chain of the current frame, counted by following the links at most
    [fuel] times. *)
Fixpoint chainLength (h : list Frame.t) (fuel : nat) (p : option nat) : nat :=
  match fuel, p with
  | S fuel', Some a =>
      match h !! a with
      | Some f => S (chainLength h fuel' (Frame.previous f))
      | None => 0
      end
  | _, _ => 0
  end.


Section Runs.
Context `{Host}.

(** [n] turns of the loop, none of which ends the evaluation. *)
Fixpoint steps (n : nat) (m : Machine) : option Machine :=
  match n with
  | O => Some m
  | S n' =>
      match step m with
      | Ok (inl m') => steps n' m'
      | _ => None
      end
  end.

End Runs.

(** [(define (loop) (loop))]: the code of the closure, and a machine inside
    a call of it.  Every call of [loop] is a [tailcall]. *)
Definition loopCode : LCode :=
  Code.Make "loop" [opcodeGlobal; 0; opcodeTailCall; 0] 0 None None.

Definition loopMachine : Machine :=
  MkMachine [Nil; Nil; Nil; Nil] 4 1 (Code.ops loopCode) 0 Fetch
            [Frame.Make None None [] [] [] None 0;
             Frame.Make (Some 0%nat) (Some 0%nat)
                        [opcodeGlobal; 0; opcodeCall; 0; opcodeReturn]
                        [] [] (Some loopCode) 4]
            (MkWorld [Symbol "loop"]
                     (<["loop" := newClosure (Some loopCode) 0]> ∅) ∅)
            false.

(** An expression that [compileExpr] emits as a [literal]: neither a
    symbol, nor a pair, nor a vector or struct literal. *)
Definition selfEvaluating (o : LOB) : bool :=
  match o with
  | Symbol _ | Pair _ _ | Vector _ | Struct _ => false
  | _ => true
  end.

(** The instructions [literal idx] for a list of constant indices. *)
Definition literals (idxs : list Z) : list Z :=
  flat_map (fun idx => [opcodeLiteral; idx]) idxs.

(** The number of slots of the frame that [buildFrame] builds for a call
    of a closure of [c]: the required parameters, plus one slot for a rest
    list (empty defaults) or one slot per default value. *)
Definition frameSlots (c : LCode) : Z :=
  match Code.defaults c with
  | None => Code.argc c
  | Some ds =>
      Code.argc c +
      (if Z.of_nat (length ds) =? 0 then 1 else Z.of_nat (length ds))
  end.

(** Two states of one frame: the same links, code and return address, and
    as many slots. *)
Definition sameFrame (f f' : Frame.t) : Prop :=
  Frame.locals f' = Frame.locals f /\
  Frame.previous f' = Frame.previous f /\
  Frame.ops f' = Frame.ops f /\
  Frame.pc f' = Frame.pc f /\
  Frame.code f' = Frame.code f /\
  length (Frame.elements f') = length (Frame.elements f).

(** The loop stands at the label [opcodeTailCallAgain]. *)
Definition inTailCall (m : Machine) : bool :=
  match control m with
  | TailCallAgain _ _ => true
  | _ => false
  end.

(** A machine about to run [setlocal 0 0; local 0 0; return] with 7 on
    top of the stack. *)
Definition setLocalMachine : Machine :=
  MkMachine [Nil; Nil; Number 7] 2 0
            [opcodeSetLocal; 0; 0; opcodeLocal; 0; 0; opcodeReturn] 0 Fetch
            [Frame.Make None None [] [Null] [] None 0]
            (MkWorld [] ∅ ∅) false.

(** The code of [(lambda (x) x)], and a machine at the label
    [opcodeCallAgain] of a call of its closure with the argument 1. *)
Definition identityCode : LCode :=
  Code.Make "id" [opcodeLocal; 0; 0; opcodeReturn] 1 None None.

Definition callMachine : Machine :=
  MkMachine [Nil; Nil; Number 1] 2 0 [opcodeCall; 1; opcodeReturn] 0
            (CallAgain (newClosure (Some identityCode) 0) 1 2)
            [Frame.Make None None [] [] [] None 0]
            (MkWorld [] ∅ ∅) false.

(** A machine about to run [closure 0; call 0; return] in a frame whose
    slot 0 holds 5; the code of the closure reads that slot, one frame up. *)
Definition closureMachine : Machine :=
  MkMachine [Nil; Nil] 2 0 [opcodeClosure; 0; opcodeCall; 0; opcodeReturn] 0 Fetch
            [Frame.Make None None [] [Number 5] [] None 0]
            (MkWorld [CodeObject (Code.Make "k" [opcodeLocal; 1; 0; opcodeReturn]
                                            0 None None)] ∅ ∅)
            false.



(** [st'] is [st] with instructions appended to the code object and
    constants appended to the pool; the descriptor of the code object is
    the same. *)
Definition extends (st st' : CompileState) : Prop :=
  (exists more, Code.ops (cur st') = Code.ops (cur st) ++ more) /\
  (exists cs, pool st' = pool st ++ cs) /\
  Code.name (cur st') = Code.name (cur st) /\
  Code.argc (cur st') = Code.argc (cur st) /\
  Code.defaults (cur st') = Code.defaults (cur st) /\
  Code.keys (cur st') = Code.keys (cur st).

(** Each of the functions of the compiler, run on [n] units of fuel,
    returns a state that extends the state it was given. *)
Definition compilerExtends `{Host} (n : nat) : Prop :=
  (forall st cenv e t i ctx st',
     compileExpr n st cenv e t i ctx = Some (Ok st') -> extends st st') /\
  (forall st cenv l ctx st',
     compileElements n st cenv l ctx = Some (Ok st') -> extends st st') /\
  (forall st cenv a b t i ctx st',
     compileLambda n st cenv a b t i ctx = Some (Ok st') -> extends st st') /\
  (forall st cenv es t i ctx st',
     compileSequence n st cenv es t i ctx = Some (Ok st') -> extends st st') /\
  (forall st cenv fn args t i ctx st',
     compileFuncall n st cenv fn args t i ctx = Some (Ok st') -> extends st st') /\
  (forall st cenv args ctx st',
     compileArgs n st cenv args ctx = Some (Ok st') -> extends st st') /\
  (forall st cenv p c a t i ctx st',
     compileIfElse n st cenv p c a t i ctx = Some (Ok st') -> extends st st').


(** The application of [(lambda (x1 ... xn) x)] to arguments selects one
    of them; [projection] is the lambda expression and [projectionCode]
    the code of its body when [x] is the parameter of index [k]. *)
Definition projection (names : list string) (x : string) : LOB :=
  list_ [intern "lambda"; list_ (List.map Symbol names); Symbol x].

Definition projectionCode (names : list string) (k : nat) : LCode :=
  Code.Make "" [opcodeLocal; 0; Z.of_nat k; opcodeReturn]
            (Z.of_nat (length names)) None None.

(** * Properties *)

(** ** Slices *)

Section SliceFacts.
Context {A : Type}.
Implicit Types l dst src : list A.

Lemma index_Some l (i : Z) :
  0 <= i -> index l i = l !! Z.to_nat i.
Proof. intros Hi. unfold index. destruct (Z.leb_spec 0 i); [done | lia]. Qed.

Lemma index_nat l (n : nat) : index l (Z.of_nat n) = l !! n.
Proof. rewrite index_Some by lia. by rewrite Nat2Z.id. Qed.

Lemma store_Some l (i : Z) v :
  0 <= i < Z.of_nat (length l) -> store l i v = Some (<[Z.to_nat i := v]> l).
Proof.
  intros Hi. unfold store.
  destruct (Z.leb_spec 0 i), (Z.ltb_spec i (Z.of_nat (length l))); simpl; [done | lia ..].
Qed.

Lemma store_length l i v l' : store l i v = Some l' -> length l' = length l.
Proof.
  unfold store. destruct (_ && _); [|done].
  intros [= <-]. by rewrite length_insert.
Qed.

Lemma slice_Some l (lo hi : Z) :
  0 <= lo -> lo <= hi -> hi <= Z.of_nat (length l) ->
  slice l lo hi = Some (take (Z.to_nat (hi - lo)) (drop (Z.to_nat lo) l)).
Proof.
  intros H1 H2 H3. unfold slice.
  destruct (Z.leb_spec 0 lo), (Z.leb_spec lo hi),
    (Z.leb_spec hi (Z.of_nat (length l))); simpl; [done | lia ..].
Qed.

Lemma slice_length l lo hi s :
  slice l lo hi = Some s -> Z.of_nat (length s) = hi - lo.
Proof.
  unfold slice.
  destruct (Z.leb_spec 0 lo), (Z.leb_spec lo hi),
    (Z.leb_spec hi (Z.of_nat (length l))); simpl; try done.
  intros [= <-]. rewrite length_take, length_drop. lia.
Qed.

Lemma copy_same dst src : length dst = length src -> copy dst src = src.
Proof.
  intros E. unfold copy. rewrite E, firstn_all.
  rewrite drop_ge by lia. apply app_nil_r.
Qed.

Lemma copy_length dst src : length (copy dst src) = length dst.
Proof.
  unfold copy. rewrite length_app, length_take, length_drop. lia.
Qed.

Lemma copy_short dst src :
  (length src <= length dst)%nat -> copy dst src = src ++ drop (length src) dst.
Proof. intros Hle. unfold copy. by rewrite take_ge. Qed.

Lemma copy_long dst src :
  (length dst <= length src)%nat -> copy dst src = take (length dst) src.
Proof. intros Hle. unfold copy. rewrite drop_ge by done. apply app_nil_r. Qed.
End SliceFacts.

Lemma make_Some (n : Z) : 0 <= n -> make n = Some (replicate (Z.to_nat n) Nil).
Proof. intros Hn. unfold make. destruct (Z.leb_spec 0 n); [done | lia]. Qed.

Lemma make_length n el : make n = Some el -> Z.of_nat (length el) = n.
Proof.
  unfold make. destruct (Z.leb_spec 0 n); [|done].
  intros [= <-]. rewrite length_replicate. lia.
Qed.

(** ** [buildFrame]: exact arity *)

(** C3: for a Code with a nil defaults vector, [buildFrame] returns an
    error exactly when the argument count differs from the Code's argc;
    when the counts match and the arguments are on the operand stack, it
    returns a frame whose elements are the argc argument values of the
    stack, in order. *)
Theorem buildFrame_exact_arity `{Host} (env : option nat) (pc : Z)
    (ops : list Z) (fun_ : LFunction) (fcode : LCode) (argc : Z)
    (stack : list LOB) (sp : Z) :
  code fun_ = Some fcode ->
  Code.defaults fcode = None ->
  ((exists e, buildFrame env pc ops fun_ argc stack sp = Err e)
     <-> argc <> Code.argc fcode) /\
  (argc = Code.argc fcode ->
   0 <= sp -> 0 <= argc -> sp + argc <= Z.of_nat (length stack) ->
   exists f, buildFrame env pc ops fun_ argc stack sp = Ok f /\
     Frame.elements f = take (Z.to_nat argc) (drop (Z.to_nat sp) stack) /\
     Z.of_nat (length (Frame.elements f)) = argc).
Proof.
  intros Hc Hd. unfold buildFrame. rewrite Hc. simpl. rewrite Hd.
  destruct (Z.eqb_spec argc (Code.argc fcode)) as [E | E]; simpl.
  - split.
    + split; [|done].
      intros [e He].
      destruct (make argc); simpl in He; [|done].
      destruct (slice stack sp (sp + argc)); simpl in He; done.
    + intros _ Hsp Hargc Hlen.
      rewrite make_Some by done. simpl.
      rewrite slice_Some by lia. simpl.
      replace (sp + argc - sp) with argc by lia.
      eexists. split; [done|]. simpl.
      assert (length (take (Z.to_nat argc) (drop (Z.to_nat sp) stack))
              = Z.to_nat argc) as L.
      { rewrite length_take, length_drop. lia. }
      rewrite copy_same by (by rewrite length_replicate, L).
      split; [done | lia].
  - split; [|done]. split; [done|]. intros _. eauto.
Qed.

Lemma buildFrame_exact_arity_witness :
  let c := Code.Make "f" [opcodeReturn] 2 None None in
  let f := MkFunction (Some c) None None instructionNone in
  code f = Some c /\ Code.defaults c = None /\
  (((exists e, buildFrame None 0 [] f 2 [Nil; Null; True_] 1 = Err e) <-> 2 <> Code.argc c) /\
   (2 = Code.argc c -> 0 <= 1 -> 0 <= 2 -> 1 + 2 <= Z.of_nat (length [Nil; Null; True_]) ->
    exists fr, buildFrame None 0 [] f 2 [Nil; Null; True_] 1 = Ok fr /\
      Frame.elements fr = take (Z.to_nat 2) (drop (Z.to_nat 1) [Nil; Null; True_]) /\
      Z.of_nat (length (Frame.elements fr)) = 2)).
Proof.
  intros c f. split; [reflexivity|]. split; [reflexivity|].
  apply (buildFrame_exact_arity None 0 [] f c 2 [Nil; Null; True_] 1); reflexivity.
Defined.

(** ** [buildFrame]: optional parameters *)

Lemma fillDefaults_never_err (expectedArgc totalArgc : Z) (defaults : list LOB)
    (n : nat) (i : Z) (el : list LOB) (e : LOB) :
  fillDefaults expectedArgc totalArgc defaults n i el <> Err e.
Proof.
  revert i el. induction n as [|n IH]; intros i el; simpl; [done|].
  destruct (i <? totalArgc); [|done].
  destruct (index defaults (i - expectedArgc)); simpl; [|done].
  destruct (store el i l); simpl; [apply IH | done].
Qed.

Lemma fillDefaults_spec (expectedArgc totalArgc : Z) (defaults : list LOB) :
  totalArgc = expectedArgc + Z.of_nat (length defaults) ->
  forall (n : nat) (i : Z) (el : list LOB),
    0 <= i -> expectedArgc <= i -> i <= totalArgc ->
    Z.of_nat (length el) = totalArgc ->
    n = Z.to_nat (totalArgc - i) ->
    fillDefaults expectedArgc totalArgc defaults n i el
    = Ok (take (Z.to_nat i) el ++ drop (Z.to_nat (i - expectedArgc)) defaults).
Proof.
  intros Htot. induction n as [|n IH]; intros i el H0 Hlo Hhi Hlen Hn; simpl.
  - rewrite take_ge by lia. rewrite drop_ge by lia. by rewrite app_nil_r.
  - destruct (Z.ltb_spec i totalArgc); [|lia].
    rewrite index_Some by lia.
    destruct (lookup_lt_is_Some_2 defaults (Z.to_nat (i - expectedArgc)))
      as [d Hd]; [lia|].
    rewrite Hd. simpl. rewrite store_Some by lia. simpl.
    rewrite IH; [|lia | lia | lia | rewrite length_insert; lia | lia].
    f_equal.
    replace (Z.to_nat (i + 1)) with (S (Z.to_nat i)) by lia.
    replace (Z.to_nat (i + 1 - expectedArgc))
      with (S (Z.to_nat (i - expectedArgc))) by lia.
    rewrite (take_S_r _ _ d) by (apply list_lookup_insert_eq; lia).
    rewrite take_insert_ge by lia.
    rewrite <- app_assoc. simpl. by rewrite <- (drop_S _ _ _ Hd).
Qed.

(** C10: for a Code with a non-empty defaults vector and a nil keys vector,
    [buildFrame] returns an error exactly when the argument count is below
    the required count; with the arguments on the operand stack it returns
    a frame of required + len(defaults) slots, also when more arguments
    than that are supplied: the slots hold the first arguments, and the
    excess arguments are dropped. *)
Theorem buildFrame_optional_excess `{Host} (env : option nat) (pc : Z)
    (ops : list Z) (fun_ : LFunction) (fcode : LCode) (ds : list LOB)
    (argc : Z) (stack : list LOB) (sp : Z) :
  code fun_ = Some fcode ->
  Code.defaults fcode = Some ds -> ds <> [] ->
  Code.keys fcode = None ->
  let required := Code.argc fcode in
  let total := required + Z.of_nat (length ds) in
  let args := take (Z.to_nat argc) (drop (Z.to_nat sp) stack) in
  ((exists e, buildFrame env pc ops fun_ argc stack sp = Err e)
     <-> argc < required) /\
  (0 <= required -> required <= argc ->
   0 <= sp -> sp + argc <= Z.of_nat (length stack) ->
   exists f, buildFrame env pc ops fun_ argc stack sp = Ok f /\
     Z.of_nat (length (Frame.elements f)) = total /\
     (argc <= total ->
      Frame.elements f = args ++ drop (Z.to_nat (argc - required)) ds) /\
     (total < argc -> Frame.elements f = take (Z.to_nat total) args)).
Proof.
  intros Hc Hd Hne Hk required total args.
  unfold buildFrame. rewrite Hc. simpl. rewrite Hd, Hk.
  assert ((Z.of_nat (length ds) =? 0) = false) as ->.
  { apply Z.eqb_neq. destruct ds; simpl in *; [done | lia]. }
  fold required.
  destruct (Z.ltb_spec argc required) as [Hlt | Hge].
  - split; [|lia]. split; [done|].
    intros _. destruct (0 <? Z.of_nat (length ds)); eauto.
  - split.
    + split; [|lia]. intros [e He].
      destruct (make _) as [el|]; simpl in He; [|done].
      destruct (slice _ _ _) as [s|]; simpl in He; [|done].
      destruct (fillDefaults _ _ _ _ _ _) eqn:F; simpl in He; try done.
      by apply fillDefaults_never_err in F.
    + intros Hreq _ Hsp Hlen. fold total.
      rewrite make_Some by lia. simpl.
      rewrite slice_Some by lia. simpl.
      replace (sp + argc - sp) with argc by lia. fold args.
      assert (length args = Z.to_nat argc) as La.
      { unfold args. rewrite length_take, length_drop. lia. }
      set (el := copy (replicate (Z.to_nat total) Nil) args).
      assert (length el = Z.to_nat total) as Le.
      { unfold el. by rewrite copy_length, length_replicate. }
      destruct (Z.le_gt_cases argc total) as [Hle | Hgt].
      * rewrite fillDefaults_spec; [|done | lia | lia | lia | lia | done].
        simpl. eexists. split; [done|]. simpl.
        assert (take (Z.to_nat argc) el = args) as ->.
        { unfold el. rewrite copy_short by (rewrite length_replicate; lia).
          rewrite <- La. apply take_app_length. }
        split; [|split; [done | lia]].
        rewrite length_app, length_drop. lia.
      * replace (Z.to_nat (total - argc)) with 0%nat by lia. simpl.
        eexists. split; [done|]. simpl. fold el.
        split; [lia|]. split; [lia|]. intros _.
        unfold el. rewrite copy_long by (rewrite length_replicate; lia).
        by rewrite length_replicate.
Qed.

Lemma buildFrame_optional_excess_witness :
  let c := Code.Make "f" [opcodeReturn] 1 (Some [Number 10; Number 20]) None in
  let f := MkFunction (Some c) None None instructionNone in
  let stack := [Nil; Number 1; Number 2; Number 3; Number 4; Number 5] in
  code f = Some c /\
  Code.defaults c = Some [Number 10; Number 20] /\
  [Number 10; Number 20] <> [] /\
  Code.keys c = None /\
  exists fr, buildFrame None 0 [] f 5 stack 1 = Ok fr /\
    Frame.elements fr = [Number 1; Number 2; Number 3].
Proof.
  intros c f stack. do 4 (split; [done|]).
  destruct (buildFrame_optional_excess None 0 [] f c [Number 10; Number 20]
              5 stack 1) as [_ Hok]; [done ..|].
  destruct Hok as (fr & Hfr & _ & _ & Hex); [simpl; lia ..|].
  exists fr. split; [exact Hfr|]. apply Hex. simpl. lia.
Defined.

(** ** Errors leave the loop through [addContext] *)








(** ** [buildFrame]: keyword parameters *)

Lemma slotFrom_bounds (keys : list LOB) (key : LOB) (j0 j : Z) :
  slotFrom keys key j0 = Some j -> j0 <= j < j0 + Z.of_nat (length keys).
Proof.
  revert j0. induction keys as [|k keys IH]; intros j0; simpl; [done|].
  destruct (identical k key).
  - intros [= <-]. lia.
  - intros Hs. apply IH in Hs. lia.
Qed.

Lemma findKey_spec (keys : list LOB) (key : LOB) (n : nat) (j : Z) :
  0 <= j -> Z.of_nat n = Z.of_nat (length keys) - j ->
  findKey keys key n j = Ok (slotFrom (drop (Z.to_nat j) keys) key j).
Proof.
  revert j. induction n as [|n IH]; intros j Hj Hn; simpl.
  - rewrite drop_ge by lia. done.
  - rewrite index_Some by done.
    destruct (lookup_lt_is_Some_2 keys (Z.to_nat j)) as [k Hk]; [lia|].
    rewrite Hk. simpl. rewrite (drop_S _ _ _ Hk). simpl.
    destruct (identical k key); [done|].
    rewrite IH by lia. do 3 f_equal. lia.
Qed.

Lemma keywordCells_length (pairs : list (LOB * LOB)) :
  length (keywordCells pairs) = (2 * length pairs)%nat.
Proof. induction pairs as [|[k v] r IH]; simpl; [done|]. rewrite IH. lia. Qed.

Section KeywordLoop.
Context `{Host}.
Variables (stack : list LOB) (sp argc required : Z) (ks : list LOB).
Hypothesis Hreq : 0 <= required.
Hypothesis Hsp : 0 <= sp.
Hypothesis Hstack : sp + argc <= Z.of_nat (length stack).

(** The keyword loop of [buildFrame] binds the cells of the stack as
    [bindPairs] binds the pairs they hold. *)
Lemma bindKeywords_spec (pairs : list (LOB * LOB)) :
  forall (n : nat) (i : Z) (el rest : list LOB),
    required <= i ->
    i + 2 * Z.of_nat (length pairs) = argc ->
    drop (Z.to_nat (sp + i)) stack = keywordCells pairs ++ rest ->
    (length pairs <= n)%nat ->
    Z.of_nat (length el) = required + Z.of_nat (length ks) ->
    match bindPairs ks required pairs el with
    | Some el' =>
        bindKeywords stack sp argc required (Z.of_nat (length ks)) ks n i el
        = Ok el'
    | None =>
        exists e,
          bindKeywords stack sp argc required (Z.of_nat (length ks)) ks n i el
          = Err e
    end.
Proof.
  induction pairs as [|[k v] pairs IH]; intros n i el rest Hi Hargc Hdrop Hn Hel.
  - simpl in *. destruct n; simpl; [done|].
    destruct (Z.ltb_spec i argc); [lia | done].
  - destruct n as [|n]; [simpl in Hn; lia|]. simpl in Hargc, Hn.
    cbn [bindKeywords bindPairs].
    destruct (Z.ltb_spec i argc); [|lia].
    assert (stack !! Z.to_nat (sp + i) = Some k) as Hk.
    { rewrite <- (Nat.add_0_r (Z.to_nat (sp + i))), <- lookup_drop, Hdrop. done. }
    assert (stack !! Z.to_nat (sp + i + 1) = Some v) as Hv.
    { replace (Z.to_nat (sp + i + 1)) with (Z.to_nat (sp + i) + 1)%nat by lia.
      rewrite <- lookup_drop, Hdrop. done. }
    rewrite (index_Some stack (sp + i)) by lia. rewrite Hk. simpl.
    unfold keySlot. destruct (toSymbol k) as [key|]; simpl.
    + rewrite Nat2Z.id.
      rewrite (findKey_spec ks key (length ks) 0) by lia.
      change (drop (Z.to_nat 0) ks) with ks. simpl.
      destruct (slotFrom ks key 0) as [j|] eqn:Hj; simpl; [|eauto].
      apply slotFrom_bounds in Hj.
      rewrite (index_Some stack (sp + i + 1)) by lia. rewrite Hv. simpl.
      rewrite store_Some by lia. simpl.
      apply (IH n (i + 2) _ rest); [lia | lia | | lia | rewrite length_insert; lia].
      replace (Z.to_nat (sp + (i + 2))) with (Z.to_nat (sp + i) + 2)%nat by lia.
      rewrite <- drop_drop, Hdrop. done.
    + rewrite (index_Some stack (sp + 1)) by lia.
      destruct (lookup_lt_is_Some_2 stack (Z.to_nat (sp + 1))) as [bad Hbad]; [lia|].
      rewrite Hbad. simpl. eauto.
Qed.
End KeywordLoop.

Section BindPairs.
Context `{Host}.
Variables (ks : list LOB) (required : Z).
Hypothesis Hreq : 0 <= required.

Lemma bindPairs_None (pairs : list (LOB * LOB)) (el : list LOB) :
  bindPairs ks required pairs el = None <->
  exists k v, In (k, v) pairs /\ keySlot ks k = None.
Proof.
  revert el. induction pairs as [|[k v] pairs IH]; intros el; simpl.
  - split; [done | intros (? & ? & [] & _)].
  - destruct (keySlot ks k) as [j|] eqn:Hj; simpl.
    + rewrite IH. split.
      * intros (k' & v' & Hin & Hk). eauto.
      * intros (k' & v' & [[= <- <-] | Hin] & Hk); [congruence | eauto].
    + split; [eauto | done].
Qed.

Lemma bindPairs_length (pairs : list (LOB * LOB)) (el el' : list LOB) :
  bindPairs ks required pairs el = Some el' -> length el' = length el.
Proof.
  revert el. induction pairs as [|[k v] pairs IH]; intros el; simpl.
  - by intros [= <-].
  - destruct (keySlot ks k) as [j|]; simpl; [|done].
    intros Hb. apply IH in Hb. by rewrite length_insert in Hb.
Qed.

Lemma keySlot_bounds (k : LOB) (j : Z) :
  keySlot ks k = Some j -> 0 <= j < Z.of_nat (length ks).
Proof.
  unfold keySlot. destruct (toSymbol k); simpl; [|done].
  intros Hs. apply slotFrom_bounds in Hs. lia.
Qed.

(** The required arguments stay where they are. *)
Lemma bindPairs_required (pairs : list (LOB * LOB)) (el el' : list LOB) :
  bindPairs ks required pairs el = Some el' ->
  take (Z.to_nat required) el' = take (Z.to_nat required) el.
Proof.
  revert el. induction pairs as [|[k v] pairs IH]; intros el; simpl.
  - by intros [= <-].
  - destruct (keySlot ks k) as [j|] eqn:Hj; simpl; [|done].
    apply keySlot_bounds in Hj.
    intros Hb. apply IH in Hb. rewrite Hb. apply take_insert_ge. lia.
Qed.

(** A slot that no pair selects keeps its value. *)
Lemma bindPairs_untouched (pairs : list (LOB * LOB)) (el el' : list LOB) (j : Z) :
  0 <= j ->
  bindPairs ks required pairs el = Some el' ->
  (forall k v, In (k, v) pairs -> keySlot ks k <> Some j) ->
  el' !! Z.to_nat (required + j) = el !! Z.to_nat (required + j).
Proof.
  intros Hj. revert el. induction pairs as [|[k v] pairs IH]; intros el; simpl.
  - by intros [= <-].
  - destruct (keySlot ks k) as [j'|] eqn:Hj'; simpl; [|done].
    intros Hb Hno. rewrite (IH _ Hb) by (intros k0 v0 ?; apply (Hno k0 v0); eauto).
    apply list_lookup_insert_ne.
    assert (j' <> j) by (intros ->; by apply (Hno k v); [left|]).
    apply keySlot_bounds in Hj'. lia.
Qed.

Lemma bindPairs_app (pre post : list (LOB * LOB)) (el el' : list LOB) :
  bindPairs ks required (pre ++ post) el = Some el' ->
  exists el1, bindPairs ks required pre el = Some el1 /\
              bindPairs ks required post el1 = Some el'.
Proof.
  revert el. induction pre as [|[k v] pre IH]; intros el; simpl; [eauto|].
  destruct (keySlot ks k); simpl; [apply IH | done].
Qed.

(** A slot holds the value of the last pair that selects it. *)
Lemma bindPairs_last (pre post : list (LOB * LOB)) (k v : LOB)
    (el el' : list LOB) (j : Z) :
  Z.of_nat (length el) = required + Z.of_nat (length ks) ->
  bindPairs ks required (pre ++ (k, v) :: post) el = Some el' ->
  keySlot ks k = Some j ->
  (forall k' v', In (k', v') post -> keySlot ks k' <> Some j) ->
  el' !! Z.to_nat (required + j) = Some v.
Proof.
  intros Hlen Hb Hj Hpost.
  apply bindPairs_app in Hb as (el1 & Hpre & Hb).
  simpl in Hb. rewrite Hj in Hb. simpl in Hb.
  pose proof (keySlot_bounds _ _ Hj).
  rewrite (bindPairs_untouched _ _ _ j ltac:(lia) Hb Hpost).
  apply list_lookup_insert_eq.
  apply bindPairs_length in Hpre. lia.
Qed.
End BindPairs.

(** C4, as stated, fails for a keys vector that is present but empty: the
    defaults vector is then empty too, [buildFrame] takes the closure for
    a rest-argument closure, and an odd number of extra arguments is no
    error: the extra argument is bound as a list. *)
Lemma buildFrame_empty_keys_odd_extra :
  let c := Code.Make "f" [opcodeReturn] 1 (Some []) (Some []) in
  let f := MkFunction (Some c) None None instructionNone in
  Code.keys c <> None /\
  buildFrame None 0 [] f 2 [Nil; Number 1; Keyword "x:"] 1
  = Ok (Frame.Make None None [] [Number 1; list_ [Keyword "x:"]] []
                   (Some c) 0) /\
  ~ (exists e, buildFrame None 0 [] f 2 [Nil; Number 1; Keyword "x:"] 1 = Err e).
Proof.
  intros c f. split; [done|]. split; [reflexivity|]. by intros [e He].
Qed.

(** C4 (amended): for a Code with a keys vector and a non-empty defaults
    vector of the same length, called with at least the required number of
    arguments, all on the operand stack: an odd number of arguments beyond
    the required ones is an error; a key that selects no slot of the keys
    vector is an error; otherwise the frame has the required arguments in
    their positions, every slot that no supplied key selects holds its
    default, and every slot that some supplied key selects holds the value
    of the last pair that selects it. *)
Theorem buildFrame_keywords `{Host} (env : option nat) (pc : Z)
    (ops : list Z) (fun_ : LFunction) (fcode : LCode) (ds ks : list LOB)
    (argc : Z) (stack : list LOB) (sp : Z) :
  code fun_ = Some fcode ->
  Code.defaults fcode = Some ds -> ds <> [] ->
  Code.keys fcode = Some ks -> length ks = length ds ->
  let required := Code.argc fcode in
  0 <= required -> required <= argc ->
  0 <= sp -> sp + argc <= Z.of_nat (length stack) ->
  let args := take (Z.to_nat required) (drop (Z.to_nat sp) stack) in
  let bindings :=
    take (Z.to_nat (argc - required)) (drop (Z.to_nat (sp + required)) stack) in
  ((argc - required) mod 2 <> 0 ->
   exists e, buildFrame env pc ops fun_ argc stack sp = Err e) /\
  (forall pairs, bindings = keywordCells pairs ->
     ((exists k v, In (k, v) pairs /\ keySlot ks k = None) ->
      exists e, buildFrame env pc ops fun_ argc stack sp = Err e) /\
     ((forall k v, In (k, v) pairs -> keySlot ks k <> None) ->
      exists f, buildFrame env pc ops fun_ argc stack sp = Ok f /\
        Z.of_nat (length (Frame.elements f)) = required + Z.of_nat (length ds) /\
        take (Z.to_nat required) (Frame.elements f) = args /\
        (forall j d, ds !! j = Some d ->
           (forall k v, In (k, v) pairs -> keySlot ks k <> Some (Z.of_nat j)) ->
           Frame.elements f !! (Z.to_nat required + j)%nat = Some d) /\
        (forall pre k v post j,
           pairs = pre ++ (k, v) :: post ->
           keySlot ks k = Some j ->
           (forall k' v', In (k', v') post -> keySlot ks k' <> Some j) ->
           Frame.elements f !! Z.to_nat (required + j) = Some v))).
Proof.
  intros Hc Hd Hne Hk Hks required Hreq Hargc Hsp Hstack args bindings.
  assert (length bindings = Z.to_nat (argc - required)) as Lb.
  { unfold bindings. rewrite length_take, length_drop. lia. }
  assert (length args = Z.to_nat required) as La.
  { unfold args. rewrite length_take, length_drop. lia. }
  assert (0 < Z.of_nat (length ds)) as Hpos.
  { destruct ds; simpl in *; [done | lia]. }
  unfold buildFrame. rewrite Hc. simpl. rewrite Hd, Hk. fold required.
  destruct (Z.eqb_spec (Z.of_nat (length ds)) 0) as [|_]; [lia|].
  destruct (Z.ltb_spec argc required) as [|_]; [lia|].
  rewrite make_Some by lia. simpl.
  rewrite (slice_Some stack (sp + required)) by lia. simpl.
  replace (sp + argc - (sp + required)) with (argc - required) by lia.
  fold bindings. rewrite Lb.
  rewrite Z2Nat.id by lia.
  split.
  - intros Hodd. destruct (Z.eqb_spec ((argc - required) mod 2) 0); [done|].
    simpl. eauto.
  - intros pairs Hpairs.
    assert (argc - required = 2 * Z.of_nat (length pairs)) as Heven.
    { rewrite Hpairs, keywordCells_length in Lb. lia. }
    destruct (Z.eqb_spec ((argc - required) mod 2) 0) as [_|Hm];
      [|contradict Hm; rewrite Heven, Z.mul_comm; apply Z_mod_mult].
    simpl. rewrite (slice_Some stack sp) by lia. simpl.
    replace (sp + required - sp) with required by lia. fold args.
    set (total := required + Z.of_nat (length ds)).
    rewrite copy_short by (rewrite length_replicate; lia).
    rewrite fillDefaults_spec;
      [|done | done | lia | lia
       | rewrite length_app, length_drop, length_replicate; lia | done].
    simpl.
    assert (forall tl : list LOB, take (Z.to_nat required) (args ++ tl) = args)
      as ->.
    { intros tl. rewrite <- La. apply take_app_length. }
    replace (Z.to_nat (required - required)) with 0%nat by lia.
    rewrite drop_0.
    pose proof (bindKeywords_spec stack sp argc required ks Hreq Hsp Hstack
                  pairs (Z.to_nat (argc - required)) required (args ++ ds)
                  (drop (Z.to_nat (argc - required))
                        (drop (Z.to_nat (sp + required)) stack))) as Hloop.
    rewrite Hks in Hloop.
    rewrite <- Hpairs in Hloop. unfold bindings in Hloop.
    rewrite take_drop in Hloop.
    specialize (Hloop ltac:(lia) ltac:(lia) eq_refl ltac:(lia)
                      ltac:(rewrite length_app; lia)).
    split.
    + intros Hbad. apply (bindPairs_None ks required pairs (args ++ ds)) in Hbad.
      rewrite Hbad in Hloop. destruct Hloop as [e He].
      rewrite He. simpl. eauto.
    + intros Hgood.
      destruct (bindPairs ks required pairs (args ++ ds)) as [el'|] eqn:Hb.
      2:{ apply bindPairs_None in Hb as (k & v & Hin & Hno).
          by apply Hgood in Hin. }
      rewrite Hloop. simpl. eexists. split; [done|]. simpl.
      pose proof (bindPairs_length _ _ _ _ _ Hb) as Hl.
      rewrite length_app in Hl.
      split; [lia|]. split.
      { rewrite (bindPairs_required _ _ _ _ _ Hb).
        rewrite <- La. apply take_app_length. }
      split.
      { intros j d Hj Hno.
        replace (Z.to_nat required + j)%nat
          with (Z.to_nat (required + Z.of_nat j)) by lia.
        rewrite (bindPairs_untouched _ _ Hreq _ _ _ (Z.of_nat j)
                   ltac:(lia) Hb Hno).
        replace (Z.to_nat (required + Z.of_nat j))
          with (length args + j)%nat by lia.
        by rewrite lookup_app_r, Nat.add_comm, Nat.add_sub by lia. }
      { intros pre k v post j -> Hj Hpost.
        apply (bindPairs_last ks required Hreq pre post k v (args ++ ds));
          [rewrite length_app; lia | done ..]. }
Qed.

(** Scenario 10 of the specification, [(f 1 y: 5)] for
    [(define (f a {x: 0 y: 0}) ...)]: the slot of [x] keeps its default,
    the slot of [y] holds 5. *)
Lemma buildFrame_keywords_witness :
  let c := Code.Make "f" [opcodeReturn] 1 (Some [Number 0; Number 0])
                     (Some [Symbol "x"; Symbol "y"]) in
  let f := MkFunction (Some c) None None instructionNone in
  let stack := [Nil; Number 1; Keyword "y:"; Number 5] in
  code f = Some c /\
  Code.defaults c = Some [Number 0; Number 0] /\
  [Number 0; Number 0] <> [] /\
  Code.keys c = Some [Symbol "x"; Symbol "y"] /\
  length [Symbol "x"; Symbol "y"] = length [Number 0; Number 0] /\
  0 <= Code.argc c /\ Code.argc c <= 3 /\ 0 <= 1 /\
  1 + 3 <= Z.of_nat (length stack) /\
  exists fr, buildFrame None 0 [] f 3 stack 1 = Ok fr /\
    take 1 (Frame.elements fr) = [Number 1] /\
    Frame.elements fr !! 1%nat = Some (Number 0) /\
    Frame.elements fr !! 2%nat = Some (Number 5).
Proof.
  intros c f stack. do 5 (split; [done|]). do 4 (split; [simpl; lia|]).
  destruct (buildFrame_keywords None 0 [] f c [Number 0; Number 0]
              [Symbol "x"; Symbol "y"] 3 stack 1)
    as [_ Hpairs]; [done | done | done | done | done | simpl; lia ..|].
  destruct (Hpairs [(Keyword "y:", Number 5)] eq_refl) as [_ Hok].
  destruct Hok as (fr & Hfr & _ & Hargs & Hdef & Hlast).
  { intros k v [[= <- <-] | []]. discriminate. }
  exists fr. split; [exact Hfr|]. split; [exact Hargs|]. split.
  - apply (Hdef 0%nat (Number 0)); [done|].
    intros k v [[= <- <-] | []]. discriminate.
  - apply (Hlast [] (Keyword "y:") (Number 5) [] 1); [done | done|].
    intros k' v' [].
Defined.

(** ** The compiler ends every accepted expression with [return] *)

Lemma emit_ops (st : CompileState) (more : list Z) :
  Code.ops (cur (emit st more)) = Code.ops (cur st) ++ more.
Proof. done. Qed.

(** C5: when [compile] accepts an expression, the opcode sequence of the
    Code it returns is not empty and ends with the opcode [return], the
    last one emitted. *)
Theorem compile_ends_with_return `{Host} (fuel : nat) (constants : list LOB)
    (expr : LOB) (st : CompileState) :
  compile fuel constants expr = Some (Ok st) ->
  Code.ops (cur st) <> [] /\
  last (Code.ops (cur st)) = Some opcodeReturn /\
  exists body, Code.ops (cur st) = body ++ [opcodeReturn].
Proof.
  unfold compile, fbind, done.
  destruct (compileExpr fuel _ EmptyList expr false false "") as [[st'|e|]|];
    try done.
  intros [= <-]. unfold emitReturn. rewrite emit_ops.
  split; [by destruct (Code.ops (cur st'))|].
  split; [apply last_snoc | eauto].
Qed.

(** [(+ 1 2)] compiles to [literal 2; literal 1; global +; call 2; return]. *)
Lemma compile_ends_with_return_witness :
  let expr := list_ [Symbol "+"; Number 1; Number 2] in
  let st := MkCompile
              (Code.Make "" [opcodeLiteral; 0; opcodeLiteral; 1; opcodeGlobal; 2;
                             opcodeCall; 2; opcodeReturn] 0 None None)
              [Number 2; Number 1; Symbol "+"] in
  compile 5 [] expr = Some (Ok st) /\
  last (Code.ops (cur st)) = Some opcodeReturn.
Proof.
  intros expr st.
  assert (compile 5 [] expr = Some (Ok st)) as Hc by reflexivity.
  split; [exact Hc|].
  apply (compile_ends_with_return 5 [] expr st Hc).
Defined.

(** ** [set!] of a symbol that is not lexically bound *)

Lemma identical_eq (a b : LOB) : identical a b = true -> a = b.
Proof.
  destruct a, b; simpl; try done;
    try (intros Hd; apply bool_decide_eq_true in Hd; by subst).
  destruct function as [c1 f1 p1 i1], function0 as [c2 f2 p2 i2]; simpl.
  destruct c1, f1, p1, c2, f2, p2; try done.
  intros [_ Hi%Z.eqb_eq]%andb_prop. by subst.
Qed.

Lemma findConstant_spec (cs : list LOB) (val : LOB) (i0 i : Z) :
  findConstant cs val i0 = Some i ->
  i0 <= i /\ cs !! Z.to_nat (i - i0) = Some val.
Proof.
  revert i0. induction cs as [|c cs IH]; intros i0; simpl; [done|].
  destruct (identical c val) eqn:E.
  - apply identical_eq in E as ->. intros [= <-].
    split; [lia|]. by replace (Z.to_nat (i0 - i0)) with 0%nat by lia.
  - intros Hf. apply IH in Hf as [Hle Hl]. split; [lia|].
    replace (Z.to_nat (i - i0)) with (S (Z.to_nat (i - (i0 + 1)))) by lia.
    done.
Qed.

(** The pool only grows, and the index that [putConstant] returns holds
    the constant. *)
Lemma putConstant_spec (val : LOB) (cs : list LOB) :
  index (putConstant val cs).2 (putConstant val cs).1 = Some val /\
  exists more, (putConstant val cs).2 = cs ++ more.
Proof.
  unfold putConstant. destruct (findConstant cs val 0) as [i|] eqn:E; simpl.
  - apply findConstant_spec in E as [Hle Hl].
    rewrite index_Some by done. rewrite Z.sub_0_r in Hl.
    split; [done|]. exists []. by rewrite app_nil_r.
  - rewrite index_nat. split; [|eauto].
    by rewrite lookup_app_r, Nat.sub_diag by lia.
Qed.

Lemma emitConstant_spec (op : Z) (st : CompileState) (val : LOB) :
  exists idx more,
    Code.ops (cur (emitConstant op st val)) = Code.ops (cur st) ++ [op; idx] /\
    pool (emitConstant op st val) = pool st ++ more /\
    index (pool (emitConstant op st val)) idx = Some val.
Proof.
  unfold emitConstant.
  destruct (putConstant_spec val (pool st)) as [Hi [more Hm]].
  destruct (putConstant val (pool st)) as [idx cs]. simpl in *.
  exists idx, more. done.
Qed.

(** The turn of the loop at a [defglobal] instruction. *)
Lemma step_defglobal `{Host} (m : Machine) (cur : Frame.t) (idx : Z)
    (s : string) (v : LOB) :
  heap m !! env m = Some cur ->
  control m = Fetch ->
  index (ops m) (pc m) = Some opcodeDefGlobal ->
  index (ops m) (pc m + 1) = Some idx ->
  index (constants (world m)) idx = Some (Symbol s) ->
  index (stack m) (sp m) = Some v ->
  step m = Ok (inl (MkMachine (stack m) (sp m) (env m) (ops m) (pc m + 2) Fetch
                      (heap m)
                      (MkWorld (constants (world m))
                               (<[s := v]> (globals (world m)))
                               (macros (world m)))
                      (interrupt m))).
Proof.
  intros Hcur Hctl Hop Hidx Hsym Hv.
  unfold step. rewrite Hcur, Hctl. simpl.
  unfold fetch. rewrite Hop. simpl. rewrite Hidx. simpl.
  rewrite Hsym. simpl. rewrite Hv. simpl. done.
Qed.

(** Comparisons of closed symbol names, by evaluation. *)
Ltac decide_symbols :=
  repeat match goal with
  | |- context [bool_decide (?a = ?b)] =>
      let r := eval vm_compute in (bool_decide (a = b)) in
      change (bool_decide (a = b)) with r
  end.

Ltac unfold_compile :=
  cbn -[emitDefGlobal emitLiteral emitVector finish value calculateLocation];
  decide_symbols;
  cbn -[emitDefGlobal emitLiteral emitVector finish value calculateLocation].

(** C8: [(set! sym val)] for a symbol that the compile-time environment
    does not resolve compiles [val] and then emits [defglobal] on the
    symbol, the instruction that [(define sym val)] emits; at run time the
    instruction binds the global to the value on top of the stack and
    raises no error, whatever the symbol was bound to before, if at all. *)
Theorem set_unresolved_is_defglobal `{Host} (fuel : nat) (st : CompileState)
    (cenv val : LOB) (s context : string) (isTail ignoreResult : bool)
    (st1 : CompileState) :
  calculateLocation (Symbol s) cenv 0 = None ->
  compileExpr fuel st cenv val false false context = Some (Ok st1) ->
  exists idx,
    compileExpr (S fuel) st cenv (list_ [intern "set!"; Symbol s; val])
                isTail ignoreResult context
    = Some (Ok (finish (emitDefGlobal st1 (Symbol s)) isTail ignoreResult)) /\
    Code.ops (cur (emitDefGlobal st1 (Symbol s)))
    = Code.ops (cur st1) ++ [opcodeDefGlobal; idx] /\
    index (pool (emitDefGlobal st1 (Symbol s))) idx = Some (Symbol s) /\
    (forall st2,
       compileExpr fuel st cenv val false false s = Some (Ok st2) ->
       compileExpr (S fuel) st cenv (list_ [intern "define"; Symbol s; val])
                   isTail ignoreResult context
       = Some (Ok (finish (emitDefGlobal st2 (Symbol s)) isTail ignoreResult))) /\
    (forall (m : Machine) (fr : Frame.t) (v : LOB),
       heap m !! env m = Some fr ->
       control m = Fetch ->
       index (ops m) (pc m) = Some opcodeDefGlobal ->
       index (ops m) (pc m + 1) = Some idx ->
       index (constants (world m)) idx = Some (Symbol s) ->
       index (stack m) (sp m) = Some v ->
       exists m',
         step m = Ok (inl m') /\
         globals (world m') = <[s := v]> (globals (world m)) /\
         globals (world m') !! s = Some v /\
         stack m' = stack m /\ sp m' = sp m /\ pc m' = pc m + 2).
Proof.
  intros Hloc Hval.
  destruct (emitConstant_spec opcodeDefGlobal st1 (Symbol s))
    as (idx & more & Hops & _ & Hidx).
  exists idx. split; [|split; [exact Hops | split; [exact Hidx | split]]].
  - unfold_compile. rewrite Hval. simpl. by rewrite Hloc.
  - intros st2 Hval2. unfold_compile. by rewrite Hval2.
  - intros m fr v Hcur Hctl Hop Hi Hsym Hv.
    eexists. split; [by eapply step_defglobal|]. simpl.
    split; [done|]. split; [apply lookup_insert_eq | done].
Qed.

Lemma set_unresolved_is_defglobal_witness :
  let st := MkCompile (newCode 0 None None "") [] in
  let st1 := MkCompile (Code.Make "" [opcodeLiteral; 0] 0 None None) [Number 5] in
  calculateLocation (Symbol "x") EmptyList 0 = None /\
  compileExpr 1 st EmptyList (Number 5) false false "" = Some (Ok st1) /\
  compileExpr 2 st EmptyList (list_ [intern "set!"; Symbol "x"; Number 5])
              false false ""
  = Some (Ok (MkCompile (Code.Make "" [opcodeLiteral; 0; opcodeDefGlobal; 1]
                                   0 None None)
                        [Number 5; Symbol "x"])).
Proof.
  intros st st1. split; [reflexivity|]. split; [reflexivity|].
  destruct (set_unresolved_is_defglobal 1 st EmptyList (Number 5) "x" ""
              false false st1 eq_refl eq_refl) as (idx & Hc & _).
  exact Hc.
Defined.

(** ** Nested quasiquote *)

Section QuasiquoteFacts.
Context `{Host}.
Variable macroexpand : LOB -> outcome LOB.


Hypothesis macroexpand_returns : forall x, macroexpand x <> Panic.


End QuasiquoteFacts.




(** ** The Apply builtin *)

Lemma listElements_foldr (mids : list LOB) (lst : LOB) (l : list LOB) :
  listElements lst = Some l ->
  listElements (foldr Pair lst mids) = Some (mids ++ l).
Proof.
  intros Hl. induction mids as [|a mids IH]; simpl; [done|]. by rewrite IH.
Qed.

Lemma listElements_list (l : list LOB) : listElements (list_ l) = Some l.
Proof.
  unfold list_. rewrite <- (app_nil_r l) at 2. by apply listElements_foldr.
Qed.

(** The loop that conses the intervening arguments onto the list. *)
Lemma consArgs_spec (stack : list LOB) (sp : Z) :
  0 <= sp ->
  forall (n : nat) (i : Z) (arglist : LOB),
    Z.of_nat n = i ->
    sp + i < Z.of_nat (length stack) ->
    consArgs stack sp n i arglist
    = Ok (foldr Pair arglist (take n (drop (Z.to_nat (sp + 1)) stack))).
Proof.
  intros Hsp. induction n as [|n IH]; intros i arglist Hi Hlen; simpl.
  - done.
  - destruct (Z.ltb_spec 0 i); [|lia].
    rewrite index_Some by lia.
    destruct (lookup_lt_is_Some_2 stack (Z.to_nat (sp + i))) as [a Ha]; [lia|].
    rewrite Ha. simpl. rewrite IH by lia.
    assert (drop (Z.to_nat (sp + 1)) stack !! n = Some a) as Hd.
    { rewrite lookup_drop. by replace (Z.to_nat (sp + 1) + n)%nat
        with (Z.to_nat (sp + i)) by lia. }
    rewrite (take_S_r _ _ _ Hd), foldr_app. done.
Qed.

(** The loop that writes the elements of the list onto the stack. *)
Lemma spliceArgs_spec (sp : Z) (xs : list LOB) :
  forall (arglist : LOB) (stack : list LOB) (i : Z),
    listElements arglist = Some xs ->
    0 <= sp + i ->
    sp + i + Z.of_nat (length xs) <= Z.of_nat (length stack) ->
    spliceArgs arglist stack sp i
    = Ok (take (Z.to_nat (sp + i)) stack ++ xs ++
          drop (Z.to_nat (sp + i) + length xs) stack).
Proof.
  induction xs as [|x xs IH]; intros arglist stack i Hl H0 Hlen.
  - destruct arglist; simpl in Hl; try done.
    + simpl. by rewrite Nat.add_0_r, take_drop.
    + by destruct (listElements arglist2).
  - destruct arglist as [| | | | | | | | | | | |a d| | | | |]; simpl in Hl; try done.
    destruct (listElements d) as [xs'|] eqn:Hd; simpl in Hl; [|done].
    injection Hl as -> ->. simpl in Hlen.
    cbn [spliceArgs]. rewrite store_Some by lia. simpl.
    rewrite (IH d _ (i + 1) Hd) by (rewrite ?length_insert; lia).
    f_equal.
    replace (Z.to_nat (sp + (i + 1))) with (S (Z.to_nat (sp + i))) by lia.
    rewrite (take_S_r _ _ x) by (apply list_lookup_insert_eq; lia).
    rewrite take_insert_ge by lia.
    rewrite drop_insert_lt by lia.
    rewrite <- app_assoc. simpl. by rewrite Nat.add_succ_r.
Qed.

(** The Apply branch on a stack that holds the function, the intervening
    arguments and a proper list. *)
Lemma applyArgs_spec `{Host} (argc : Z) (stack : list LOB) (sp : Z)
    (f : LOB) (mids : list LOB) (lst : LOB) (l : list LOB) :
  slice stack sp (sp + argc) = Some (f :: mids ++ [lst]) ->
  listElements lst = Some l ->
  Z.of_nat (length l) <= sp + 2 ->
  let argc' := Z.of_nat (length mids) + Z.of_nat (length l) in
  let sp' := sp + argc - argc' in
  let stack' := take (Z.to_nat sp') stack ++ (mids ++ l) ++
                drop (Z.to_nat (sp + argc)) stack in
  argc = 2 + Z.of_nat (length mids) /\
  applyArgs argc stack sp = Ok (f, argc', stack', sp') /\
  slice stack' sp' (sp' + argc') = Some (mids ++ l) /\
  length stack' = length stack.
Proof.
  intros Hs Hl Hroom argc' sp' stack'.
  pose proof (slice_length _ _ _ _ Hs) as Hlen.
  rewrite length_cons, length_app in Hlen. simpl in Hlen.
  assert (argc = 2 + Z.of_nat (length mids)) as Hargc by lia.
  unfold slice in Hs.
  destruct (Z.leb_spec 0 sp), (Z.leb_spec sp (sp + argc)),
    (Z.leb_spec (sp + argc) (Z.of_nat (length stack))); simpl in Hs; try done.
  injection Hs as Hs.
  replace (sp + argc - sp) with argc in Hs by lia.
  assert (forall k x, (f :: mids ++ [lst]) !! k = Some x ->
                      stack !! (Z.to_nat sp + k)%nat = Some x) as Hcell.
  { intros k x Hk. rewrite <- Hs in Hk.
    apply lookup_take_Some in Hk as [Hk _]. by rewrite lookup_drop in Hk. }
  assert (take (length mids) (drop (Z.to_nat (sp + 1)) stack) = mids) as Hmids.
  { replace (Z.to_nat (sp + 1)) with (Z.to_nat sp + 1)%nat by lia.
    rewrite <- drop_drop.
    replace (drop (Z.to_nat sp) stack)
      with ((f :: mids ++ [lst]) ++ drop (Z.to_nat argc) (drop (Z.to_nat sp) stack))
      by (rewrite <- Hs; apply take_drop).
    simpl. rewrite drop_0, <- app_assoc. apply take_app_length. }
  split; [done|]. split; [|split].
  - unfold applyArgs.
    destruct (Z.ltb_spec argc 2); [lia|].
    assert (index stack sp = Some f) as ->.
    { rewrite index_Some by lia.
      rewrite <- (Nat.add_0_r (Z.to_nat sp)). by apply Hcell. }
    assert (index stack (sp + argc - 1) = Some lst) as ->.
    { rewrite index_Some by lia.
      replace (Z.to_nat (sp + argc - 1))
        with (Z.to_nat sp + S (length mids))%nat by lia.
      apply Hcell. simpl. by rewrite lookup_app_r, Nat.sub_diag by lia. }
    simpl.
    assert (isList lst = true) as ->.
    { destruct lst; simpl in Hl; done. }
    simpl.
    rewrite (consArgs_spec stack sp) by lia.
    replace (Z.to_nat (argc - 2)) with (length mids) by lia.
    rewrite Hmids. simpl.
    unfold length_. rewrite (listElements_foldr mids lst l Hl).
    rewrite length_app, Nat2Z.inj_add. fold argc'. fold sp'.
    rewrite (spliceArgs_spec sp' (mids ++ l) _ stack 0
               (listElements_foldr mids lst l Hl))
      by (rewrite ?length_app; lia).
    simpl. do 4 f_equal.
    + f_equal. lia.
    + f_equal. f_equal. rewrite length_app. lia.
  - unfold slice.
    assert (length stack' = length stack) as Hst.
    { unfold stack'. rewrite !length_app, length_take, length_drop. lia. }
    destruct (Z.leb_spec 0 sp'), (Z.leb_spec sp' (sp' + argc')),
      (Z.leb_spec (sp' + argc') (Z.of_nat (length stack'))); simpl; try lia.
    f_equal. unfold stack'.
    rewrite drop_app_length' by (rewrite length_take; lia).
    replace (Z.to_nat (sp' + argc' - sp')) with (length (mids ++ l))
      by (rewrite length_app; lia).
    apply take_app_length.
  - unfold stack'. rewrite !length_app, length_take, length_drop. lia.
Qed.

(** C7: at a call of the Apply builtin (at either label), fewer than two
    arguments are an argument-count error and a last argument that is not
    a list is an argument-type error; with a proper list as the last
    argument and room on the stack, the elements of the list are written
    onto the stack after the intervening arguments and the call is
    dispatched again, to the first argument, with as many arguments as
    there are intervening arguments and list elements.  And
    [(apply + '(1 2 3 4))] evaluates to 10. *)
Theorem apply_redispatch :
  (forall (H : Host) (m : Machine) (fr : Frame.t) (tail : bool)
          (argc savedPc : Z),
     heap m !! env m = Some fr ->
     control m = (if tail then TailCallAgain Apply argc
                  else CallAgain Apply argc savedPc) ->
     (argc < 2 ->
      step m = Err (addContext fr (ArgcError "apply" "2+" argc))) /\
     (forall f a,
        2 <= argc ->
        index (stack m) (sp m) = Some f ->
        index (stack m) (sp m + argc - 1) = Some a ->
        isList a = false ->
        step m = Err (addContext fr (ArgTypeError "list" argc a))) /\
     (forall f mids lst l,
        slice (stack m) (sp m) (sp m + argc) = Some (f :: mids ++ [lst]) ->
        listElements lst = Some l ->
        Z.of_nat (length l) <= sp m + 2 ->
        let argc' := Z.of_nat (length mids) + Z.of_nat (length l) in
        let sp' := sp m + argc - argc' in
        exists stack',
          step m = Ok (inl (MkMachine stack' sp' (env m) (ops m) (pc m)
                              (if tail then TailCallAgain f argc'
                               else CallAgain f argc' savedPc)
                              (heap m) (world m) (interrupt m))) /\
          slice stack' sp' (sp' + argc') = Some (mids ++ l) /\
          drop (Z.to_nat (sp m + argc)) stack'
          = drop (Z.to_nat (sp m + argc)) (stack m))) /\
  (exists st,
     compile 10 [] applyExpr = Some (Ok st) /\
     exec 20 (MkWorld (pool st) applyGlobals ∅) false (cur st) []
     = Some (Ok (Number 10))).
Proof.
  split.
  - intros H m fr tail argc savedPc Hfr Hctl. split; [|split].
    + intros Hlt. unfold step. rewrite Hfr, Hctl. simpl.
      destruct tail; simpl; unfold applyArgs;
        (destruct (Z.ltb_spec argc 2); [done | lia]).
    + intros f a Hge Hf Ha Hnl. unfold step. rewrite Hfr, Hctl. simpl.
      destruct tail; simpl; unfold applyArgs;
        (destruct (Z.ltb_spec argc 2); [lia|]);
        rewrite Hf, Ha; simpl; by rewrite Hnl.
    + intros f mids lst l Hs Hl Hroom argc' sp'.
      destruct (applyArgs_spec argc (stack m) (sp m) f mids lst l Hs Hl Hroom)
        as (Hargc & Happ & Hslice & Hlen).
      eexists. split; [|split; [exact Hslice|]].
      * unfold step. rewrite Hfr, Hctl. simpl.
        destruct tail; simpl; rewrite Happ; reflexivity.
      * pose proof (slice_length _ _ _ _ Hs) as Hsl.
        rewrite length_cons, length_app in Hsl. simpl in Hsl.
        unfold slice in Hs.
        destruct (Z.leb_spec 0 (sp m)), (Z.leb_spec (sp m) (sp m + argc)),
          (Z.leb_spec (sp m + argc) (Z.of_nat (length (stack m))));
          simpl in Hs; try done.
        rewrite app_assoc.
        rewrite drop_app_length'; [done|].
        rewrite length_app, length_take. fold argc'. rewrite length_app. lia.
  - eexists. split; [vm_compute; reflexivity|]. vm_compute. reflexivity.
Qed.

Lemma apply_redispatch_witness :
  heap applyMachine !! env applyMachine
  = Some (Frame.Make None None [] [] [] None 0) /\
  control applyMachine = CallAgain Apply 2 2 /\
  slice (stack applyMachine) 2 (2 + 2)
  = Some (Example.plus :: [] ++ [list_ [Number 1; Number 2; Number 3; Number 4]]) /\
  listElements (list_ [Number 1; Number 2; Number 3; Number 4])
  = Some [Number 1; Number 2; Number 3; Number 4] /\
  exists stack',
    step applyMachine
    = Ok (inl (MkMachine stack' 0 0 [opcodeCall; 2; opcodeReturn] 0
                         (CallAgain Example.plus 4 2)
                         [Frame.Make None None [] [] [] None 0]
                         (MkWorld [] ∅ ∅) false)) /\
    slice stack' 0 4 = Some [Number 1; Number 2; Number 3; Number 4].
Proof.
  do 4 (split; [reflexivity|]).
  destruct apply_redispatch as [Hgen _].
  destruct (Hgen Example.host applyMachine
              (Frame.Make None None [] [] [] None 0) false 2 2
              eq_refl eq_refl) as (_ & _ & Hsplice).
  destruct (Hsplice Example.plus []
              (list_ [Number 1; Number 2; Number 3; Number 4])
              [Number 1; Number 2; Number 3; Number 4] eq_refl eq_refl)
    as (stack' & Hstep & Hslice & _); [simpl; lia|].
  exists stack'. split; [exact Hstep | exact Hslice].
Defined.

(** ** Tail calls *)

Lemma bind_Ok {A B} (m : outcome A) (k : A -> outcome B) (b : B) :
  m ≫= k = Ok b -> exists a, m = Ok a /\ k a = Ok b.
Proof. destruct m; simpl; [eauto | done | done]. Qed.

Lemma withContext_Ok {A} `{Host} (fr : Frame.t) (o : outcome A) (a : A) :
  withContext fr o = Ok a -> o = Ok a.
Proof. by destruct o. Qed.

(** Inversion of a chain of binds that ends in [Ok]. *)
Ltac bind_inv :=
  repeat match goal with
  | H : _ ≫= _ = Ok _ |- _ =>
      let a := fresh "a" in
      let Ha := fresh "Ha" in
      apply bind_Ok in H as (a & Ha & H)
  | H : (if ?c then _ else _) = Ok _ |- _ => destruct c eqn:?
  | H : Err _ = Ok _ |- _ => discriminate H
  | H : Panic = Ok _ |- _ => discriminate H
  | H : Ok _ = Ok _ |- _ => injection H as H; try subst
  end.

(** The links of the frame that [buildFrame] returns. *)
Lemma buildFrame_links `{Host} (prev : option nat) (pc0 : Z) (ops0 : list Z)
    (fun_ : LFunction) (argc : Z) (stk : list LOB) (sp0 : Z) (f : Frame.t) :
  buildFrame prev pc0 ops0 fun_ argc stk sp0 = Ok f ->
  Frame.previous f = prev /\ Frame.pc f = pc0 /\ Frame.ops f = ops0 /\
  Frame.locals f = frame fun_ /\ Frame.code f = code fun_.
Proof.
  unfold buildFrame. intros Hb.
  apply bind_Ok in Hb as (fcode & _ & Hb).
  destruct (Code.defaults fcode) as [ds|].
  - destruct (argc <? Code.argc fcode).
    { by destruct (0 <? _). }
    apply bind_Ok in Hb as (el & _ & Hb).
    destruct (Z.of_nat (length ds) =? 0).
    { bind_inv. done. }
    destruct (Code.keys fcode).
    + apply bind_Ok in Hb as (bs & _ & Hb).
      destruct (negb _); [done|]. bind_inv. done.
    + bind_inv. done.
  - destruct (negb _); [done|]. bind_inv. done.
Qed.

Lemma orPanic_Ok {A} (o : option A) (a : A) : orPanic o = Ok a -> o = Some a.
Proof. destruct o; simpl; [by intros [= ->] | done]. Qed.

Ltac step_inv :=
  repeat first
    [ progress bind_inv
    | match goal with
      | H : orPanic _ = Ok _ |- _ => apply orPanic_Ok in H
      | H : buildFrame _ _ _ _ _ _ _ = Ok _ |- _ => apply buildFrame_links in H
      | H : match ?x with _ => _ end = Ok _ |- _ => destruct x eqn:?
      | H : inl _ = inl _ |- _ => injection H as H; try subst
      | H : inr _ = inl _ |- _ => discriminate H
      end ].



Lemma Callers_app (h : list Frame.t) (f : Frame.t) (p : option nat) (n : nat) :
  Callers h p n -> Callers (h ++ [f]) p n.
Proof.
  induction 1 as [|a g n Hg _ IH]; [constructor|].
  apply (Callers_frame _ a g); [|done].
  rewrite lookup_app_l; [done|]. by apply lookup_lt_Some in Hg.
Qed.



Lemma chainLength_Callers (h : list Frame.t) (p : option nat) (n : nat) :
  Callers h p n -> forall fuel, (n <= fuel)%nat -> chainLength h fuel p = n.
Proof.
  induction 1 as [|a f n Hf _ IH]; intros fuel Hle.
  - by destruct fuel.
  - destruct fuel as [|fuel]; [lia|]. simpl. rewrite Hf, IH; [done | lia].
Qed.



(** The compiler emits the recursive call of [(define (loop) (loop))], a
    call in tail position, as a [tailcall]: the closure's code is
    [loopCode]. *)
Lemma loop_compiles_to_tailcall :
  compile 10 [] (list_ [Symbol "define"; list_ [Symbol "loop"];
                        list_ [Symbol "loop"]])
  = Some (Ok (MkCompile
                (Code.Make "" [opcodeClosure; 1; opcodeDefGlobal; 0; opcodeReturn]
                           0 None None)
                [Symbol "loop"; CodeObject loopCode])).
Proof. vm_compute. reflexivity. Qed.


(** ** Vector literals *)

Lemma literals_length (idxs : list Z) :
  length (literals idxs) = (2 * length idxs)%nat.
Proof. induction idxs as [|i idxs IH]; simpl; [done|]. rewrite IH. lia. Qed.

Lemma compileExpr_selfEvaluating `{Host} (fuel : nat) (st : CompileState)
    (cenv obj : LOB) (context : string) :
  selfEvaluating obj = true ->
  compileExpr (S fuel) st cenv obj false false context
  = Some (Ok (emitLiteral st obj)).
Proof. by destruct obj. Qed.

Lemma index_app_l {A} (l more : list A) (i : Z) (x : A) :
  index l i = Some x -> index (l ++ more) i = Some x.
Proof.
  unfold index. destruct (0 <=? i); [|done].
  intros Hl. by apply lookup_app_l_Some.
Qed.

(** The elements of a literal, all constants, compile to one [literal]
    instruction each, in the order given, and their constants are in the
    pool. *)
Lemma compileElements_literals `{Host} (cenv : LOB) (context : string)
    (objs : list LOB) :
  Forall (fun o => selfEvaluating o = true) objs ->
  forall (fuel : nat) (st : CompileState),
    (2 * length objs + 1 <= fuel)%nat ->
    exists st' idxs more,
      compileElements fuel st cenv objs context = Some (Ok st') /\
      Code.ops (cur st') = Code.ops (cur st) ++ literals idxs /\
      pool st' = pool st ++ more /\
      Forall2 (fun idx o => index (pool st') idx = Some o) idxs objs.
Proof.
  induction 1 as [|obj objs Hobj _ IH]; intros fuel st Hfuel.
  - destruct fuel as [|fuel]; [lia|]. exists st, [], []. simpl.
    by rewrite !app_nil_r.
  - destruct fuel as [|[|fuel]]; [simpl in Hfuel; lia ..|].
    cbn [compileElements]. rewrite compileExpr_selfEvaluating by done.
    cbn [fbind].
    destruct (emitConstant_spec opcodeLiteral st obj)
      as (idx & more1 & Hops1 & Hpool1 & Hidx1).
    destruct (IH (S fuel) (emitLiteral st obj)) as (st' & idxs & more & Hc & Hops & Hpool & Hall);
      [simpl in Hfuel; lia|].
    exists st', (idx :: idxs), (more1 ++ more).
    split; [exact Hc|]. split; [|split].
    + rewrite Hops. unfold emitLiteral. rewrite Hops1.
      by rewrite <- app_assoc.
    + rewrite Hpool. unfold emitLiteral. rewrite Hpool1.
      by rewrite <- app_assoc.
    + constructor; [|done].
      rewrite Hpool. by apply index_app_l.
Qed.

(** The turn of the loop at a [literal] instruction. *)
Lemma step_literal `{Host} (m : Machine) (idx : Z) (v : LOB) :
  is_Some (heap m !! env m) ->
  control m = Fetch ->
  index (ops m) (pc m) = Some opcodeLiteral ->
  index (ops m) (pc m + 1) = Some idx ->
  index (constants (world m)) idx = Some v ->
  1 <= sp m <= Z.of_nat (length (stack m)) ->
  step m = Ok (inl (MkMachine (<[Z.to_nat (sp m - 1) := v]> (stack m))
                              (sp m - 1) (env m) (ops m) (pc m + 2) Fetch
                              (heap m) (world m) (interrupt m))).
Proof.
  intros [fr Hfr] Hctl Hop Hidx Hv Hsp.
  unfold step. rewrite Hfr, Hctl. simpl.
  unfold fetch. rewrite Hop. simpl. rewrite Hidx. simpl. rewrite Hv. simpl.
  unfold push. rewrite store_Some by lia. done.
Qed.

(** The turn of the loop at a [vector] instruction: the new vector holds
    the cells from [sp] upwards, in increasing address order. *)
Lemma step_vector `{Host} (m : Machine) (vlen : Z) (el : list LOB) :
  is_Some (heap m !! env m) ->
  control m = Fetch ->
  index (ops m) (pc m) = Some opcodeVector ->
  index (ops m) (pc m + 1) = Some vlen ->
  slice (stack m) (sp m) (sp m + vlen) = Some el ->
  0 <= sp m + vlen - 1 < Z.of_nat (length (stack m)) ->
  step m = Ok (inl (MkMachine
                      (<[Z.to_nat (sp m + vlen - 1) := Vector el]> (stack m))
                      (sp m + vlen - 1) (env m) (ops m) (pc m + 2) Fetch
                      (heap m) (world m) (interrupt m))).
Proof.
  intros [fr Hfr] Hctl Hop Hlen Hel Hsp.
  unfold step. rewrite Hfr, Hctl. simpl.
  unfold fetch. rewrite Hop. simpl. rewrite Hlen. simpl. rewrite Hel. simpl.
  rewrite store_Some by lia. done.
Qed.

Lemma index_drop_head {A} (l : list A) (i : Z) (x : A) (rest : list A) :
  0 <= i -> drop (Z.to_nat i) l = x :: rest -> index l i = Some x.
Proof.
  intros Hi Hd. rewrite index_Some by done.
  rewrite <- (Nat.add_0_r (Z.to_nat i)), <- lookup_drop, Hd. done.
Qed.

(** Running a block of [literal] instructions pushes their constants: the
    last one pushed lies at the lowest address. *)
Lemma run_literals `{Host} (idxs : list Z) (objs : list LOB) :
  Forall2 (fun idx o => True) idxs objs ->
  forall (m : Machine) (suffix : list Z),
    Forall2 (fun idx o => index (constants (world m)) idx = Some o) idxs objs ->
    control m = Fetch ->
    0 <= pc m ->
    drop (Z.to_nat (pc m)) (ops m) = literals idxs ++ suffix ->
    is_Some (heap m !! env m) ->
    Z.of_nat (length idxs) <= sp m <= Z.of_nat (length (stack m)) ->
    steps (length idxs) m
    = Some (MkMachine
              (take (Z.to_nat (sp m) - length idxs) (stack m) ++ rev objs ++
               drop (Z.to_nat (sp m)) (stack m))
              (sp m - Z.of_nat (length idxs)) (env m) (ops m)
              (pc m + 2 * Z.of_nat (length idxs)) Fetch
              (heap m) (world m) (interrupt m)).
Proof.
  induction 1 as [|idx o idxs objs _ _ IH];
    intros m suffix Hall Hctl Hpc Hops Hfr Hsp.
  - simpl. destruct m as [stk sp0 e0 o0 pc0 c0 h0 w0 i0]. simpl in *. subst c0.
    rewrite Nat.sub_0_r, take_drop, Z.sub_0_r, Z.add_0_r. done.
  - inversion Hall as [|? ? ? ? Hidx Hall']; subst. simpl in Hops, Hsp.
    cbn [steps length].
    rewrite (step_literal m idx o Hfr Hctl); [| | |done|lia].
    2:{ by eapply index_drop_head. }
    2:{ rewrite index_Some by lia.
        replace (Z.to_nat (pc m + 1)) with (Z.to_nat (pc m) + 1)%nat by lia.
        by rewrite <- lookup_drop, Hops. }
    rewrite (IH _ suffix); simpl; [|done|done|lia| |done|rewrite length_insert; lia].
    2:{ replace (Z.to_nat (pc m + 2)) with (Z.to_nat (pc m) + 2)%nat by lia.
        by rewrite <- drop_drop, Hops. }
    f_equal. f_equal; [|lia|lia].
    rewrite take_insert_ge by lia.
    rewrite drop_insert_ge by lia.
    replace (Z.to_nat (sp m - 1) - Z.to_nat (sp m - 1))%nat with 0%nat by lia.
    destruct (lookup_lt_is_Some_2 (stack m) (Z.to_nat (sp m - 1))) as [old Hold];
      [lia|].
    rewrite (drop_S _ _ _ Hold). simpl.
    replace (S (Z.to_nat (sp m - 1))) with (Z.to_nat (sp m)) by lia.
    rewrite <- !app_assoc. simpl.
    f_equal. f_equal. lia.
Qed.

Lemma steps_app `{Host} (n k : nat) (m m1 : Machine) :
  steps n m = Some m1 -> steps (n + k) m = steps k m1.
Proof.
  revert m. induction n as [|n IH]; intros m; simpl.
  - by intros [= ->].
  - destruct (step m) as [[m2|v]|e|]; try done. apply IH.
Qed.

(** C6: a vector literal compiles its elements from the last to the first
    and then emits one [vector] instruction whose operand is their number;
    the [vector] instruction builds its vector from the cells at [sp]
    upwards, in increasing address order; when the elements are constants, the emitted block is one [literal] per
    element, last element first, and running it pushes one value, a vector
    whose elements are the elements of the literal from left to right. *)
Theorem vector_literal_order `{Host} (fuel : nat) (st : CompileState)
    (cenv : LOB) (elems : list LOB) (isTail ignoreResult : bool)
    (context : string) :
  let n := Z.of_nat (length elems) in
  compileExpr (S fuel) st cenv (Vector elems) isTail ignoreResult context
  = fbind (compileElements fuel st cenv (rev elems) context)
          (fun st' => done (emitVector st' n)) /\
  (forall (m : Machine) (vlen : Z) (el : list LOB),
     is_Some (heap m !! env m) ->
     control m = Fetch ->
     index (ops m) (pc m) = Some opcodeVector ->
     index (ops m) (pc m + 1) = Some vlen ->
     slice (stack m) (sp m) (sp m + vlen) = Some el ->
     0 <= sp m + vlen - 1 < Z.of_nat (length (stack m)) ->
     step m = Ok (inl (MkMachine
                         (<[Z.to_nat (sp m + vlen - 1) := Vector el]> (stack m))
                         (sp m + vlen - 1) (env m) (ops m) (pc m + 2) Fetch
                         (heap m) (world m) (interrupt m)))) /\
  (Forall (fun o => selfEvaluating o = true) elems ->
   (2 * length elems + 1 <= fuel)%nat ->
   exists st' idxs,
     compileExpr (S fuel) st cenv (Vector elems) isTail ignoreResult context
     = Some (Ok st') /\
     Code.ops (cur st')
     = Code.ops (cur st) ++ literals idxs ++ [opcodeVector; n] /\
     Forall2 (fun idx o => index (pool st') idx = Some o) idxs (rev elems) /\
     forall (m : Machine) (suffix : list Z),
       constants (world m) = pool st' ->
       control m = Fetch ->
       0 <= pc m ->
       drop (Z.to_nat (pc m)) (ops m)
       = literals idxs ++ [opcodeVector; n] ++ suffix ->
       is_Some (heap m !! env m) ->
       n <= sp m -> 1 <= sp m -> sp m <= Z.of_nat (length (stack m)) ->
       exists m',
         steps (length elems + 1) m = Some m' /\
         sp m' = sp m - 1 /\
         index (stack m') (sp m') = Some (Vector elems) /\
         drop (Z.to_nat (sp m)) (stack m') = drop (Z.to_nat (sp m)) (stack m) /\
         pc m' = pc m + 2 * n + 2 /\
         control m' = Fetch /\ env m' = env m /\ heap m' = heap m).
Proof.
  intros n. split; [reflexivity|]. split; [apply step_vector|].
  intros Hconst Hfuel.
  destruct (compileElements_literals cenv context (rev elems)
              ltac:(by apply Forall_rev) fuel st
              ltac:(rewrite length_rev; lia))
    as (st1 & idxs & more & Hc & Hops & Hpool & Hall).
  exists (emitVector st1 n), idxs.
  assert (length idxs = length elems) as Hk.
  { apply Forall2_length in Hall. by rewrite length_rev in Hall. }
  split; [|split; [|split]].
  - cbn [compileExpr isSymbol isPair]. by rewrite Hc.
  - unfold emitVector. rewrite emit_ops, Hops. by rewrite <- app_assoc.
  - done.
  - intros m suffix Hpoolm Hctl Hpc Hdrop Hfr Hn H1 Hsp. simpl in Hpoolm.
    pose proof (run_literals idxs (rev elems)
                  ltac:(eapply Forall2_impl; [exact Hall | done]) m
                  ([opcodeVector; n] ++ suffix)
                  ltac:(by rewrite Hpoolm) Hctl Hpc Hdrop Hfr
                  ltac:(lia)) as Hrun.
    rewrite rev_involutive, Hk in Hrun.
    rewrite (steps_app _ 1 _ _ Hrun). cbn [steps].
    set (stack1 := take (Z.to_nat (sp m) - length elems) (stack m) ++ elems ++
                   drop (Z.to_nat (sp m)) (stack m)).
    assert (length stack1 = length (stack m)) as Hl1.
    { unfold stack1. rewrite !length_app, length_take, length_drop. lia. }
    assert (drop (Z.to_nat (pc m + 2 * n)) (ops m)
            = opcodeVector :: n :: suffix) as Hv.
    { replace (Z.to_nat (pc m + 2 * n))
        with (Z.to_nat (pc m) + length (literals idxs))%nat
        by (rewrite literals_length; lia).
      rewrite <- drop_drop, Hdrop. apply drop_app_length. }
    assert (index (ops m) (pc m + 2 * n) = Some opcodeVector) as Hop.
    { eapply index_drop_head; [lia | exact Hv]. }
    assert (index (ops m) (pc m + 2 * n + 1) = Some n) as Hlen.
    { rewrite index_Some by lia.
      replace (Z.to_nat (pc m + 2 * n + 1))
        with (Z.to_nat (pc m + 2 * n) + 1)%nat by lia.
      by rewrite <- lookup_drop, Hv. }
    assert (slice stack1 (sp m - n) (sp m - n + n) = Some elems) as Hsl.
    { rewrite slice_Some by lia. f_equal.
      replace (Z.to_nat (sp m - n)) with (Z.to_nat (sp m) - length elems)%nat
        by lia.
      unfold stack1.
      rewrite drop_app_length' by (rewrite length_take; lia).
      replace (Z.to_nat (sp m - n + n - (sp m - n))) with (length elems) by lia.
      apply take_app_length. }
    erewrite step_vector; cbn [stack sp env ops pc control heap world interrupt];
      [| done | done | exact Hop | exact Hlen | exact Hsl | fold stack1; lia].
    eexists. split; [reflexivity|].
    cbn [stack sp env ops pc control heap world interrupt]. fold stack1.
    subst n.
    replace (sp m - Z.of_nat (length elems) + Z.of_nat (length elems) - 1)
      with (sp m - 1) by lia.
    split; [done|]. split; [|split; [|split; [lia | done]]].
    + rewrite index_Some by lia. apply list_lookup_insert_eq. lia.
    + rewrite drop_insert_lt by lia. unfold stack1.
      rewrite app_assoc.
      apply drop_app_length'. rewrite length_app, length_take. lia.
Qed.

(** The literal [[1 "a" k:]] compiles to [literal k:; literal "a";
    literal 1; vector 3] and evaluates to the vector [[1 "a" k:]]. *)
Lemma vector_literal_order_witness :
  let elems := [Number 1; String_ "a"; Keyword "k:"] in
  let st := MkCompile (newCode 0 None None "") [] in
  Forall (fun o => selfEvaluating o = true) elems /\
  (2 * length elems + 1 <= 9)%nat /\
  (exists st' idxs,
     compileExpr 10 st EmptyList (Vector elems) false false "" = Some (Ok st') /\
     Code.ops (cur st')
     = Code.ops (cur st) ++ literals idxs ++ [opcodeVector; 3]) /\
  exists code pool,
    compile 10 [] (Vector elems) = Some (Ok (MkCompile code pool)) /\
    Code.ops code = [opcodeLiteral; 0; opcodeLiteral; 1; opcodeLiteral; 2;
                     opcodeVector; 3; opcodeReturn] /\
    pool = [Keyword "k:"; String_ "a"; Number 1] /\
    exec 10 (MkWorld pool ∅ ∅) false code [] = Some (Ok (Vector elems)).
Proof.
  intros elems st.
  assert (Forall (fun o => selfEvaluating o = true) elems) as Hall.
  { repeat constructor. }
  assert (2 * length elems + 1 <= 9)%nat as Hfuel by (simpl; lia).
  split; [exact Hall|]. split; [exact Hfuel|]. split.
  - destruct (vector_literal_order 9 st EmptyList elems false false "")
      as (_ & _ & Hconst).
    destruct (Hconst Hall Hfuel) as (st' & idxs & Hc & Hops & _).
    exists st', idxs. split; [exact Hc | exact Hops].
  - eexists _, _. split; [vm_compute; reflexivity|].
    split; [reflexivity|]. split; [reflexivity|]. vm_compute. reflexivity.
Defined.

(** ** [buildFrame]: rest parameter and the size of frames *)

(** X1: for a Code with an empty (non-nil) defaults vector, the rest
    parameter, [buildFrame] returns an error exactly when the argument
    count is below the required count; with the arguments on the operand
    stack it returns a frame of required + 1 slots: the required arguments
    in order, then the proper list of all the remaining arguments, the
    empty list when there are none. *)
Theorem buildFrame_rest `{Host} (env : option nat) (pc : Z)
    (ops : list Z) (fun_ : LFunction) (fcode : LCode)
    (argc : Z) (stack : list LOB) (sp : Z) :
  code fun_ = Some fcode ->
  Code.defaults fcode = Some [] ->
  let required := Code.argc fcode in
  ((exists e, buildFrame env pc ops fun_ argc stack sp = Err e)
     <-> argc < required) /\
  (0 <= required -> required <= argc ->
   0 <= sp -> sp + argc <= Z.of_nat (length stack) ->
   exists f, buildFrame env pc ops fun_ argc stack sp = Ok f /\
     Frame.elements f
     = take (Z.to_nat required) (drop (Z.to_nat sp) stack) ++
       [list_ (take (Z.to_nat (argc - required))
                    (drop (Z.to_nat (sp + required)) stack))]).
Proof.
  intros Hc Hd required.
  unfold buildFrame. rewrite Hc. simpl. rewrite Hd. simpl. fold required.
  destruct (Z.ltb_spec argc required) as [Hlt | Hge].
  - split; [|lia]. split; [done|]. intros _. eauto.
  - split.
    + split; [|lia]. intros [e He].
      repeat match type of He with
      | orPanic ?o ≫= _ = _ => destruct o; simpl in He; [|done]
      end.
      done.
    + intros Hreq _ Hsp Hlen.
      rewrite make_Some by lia. simpl.
      rewrite slice_Some by lia. simpl.
      rewrite slice_Some by lia. simpl.
      replace (sp + required - sp) with required by lia.
      replace (sp + argc - (sp + required)) with (argc - required) by lia.
      set (args := take (Z.to_nat required) (drop (Z.to_nat sp) stack)).
      assert (length args = Z.to_nat required) as La.
      { unfold args. rewrite length_take, length_drop. lia. }
      rewrite store_Some by (rewrite copy_length, length_replicate; lia).
      simpl. eexists. split; [done|]. simpl.
      rewrite copy_short by (rewrite length_replicate; lia).
      rewrite La, drop_replicate.
      replace (Z.to_nat (required + 1) - Z.to_nat required)%nat with 1%nat by lia.
      simpl. rewrite <- La at 1.
      rewrite insert_app_r_alt by lia. rewrite Nat.sub_diag. done.
Qed.

(** A function of one required parameter and a rest parameter, called
    with three, one and no arguments. *)
Lemma buildFrame_rest_witness :
  let c := Code.Make "f" [opcodeReturn] 1 (Some []) None in
  let f := MkFunction (Some c) None None instructionNone in
  let stack := [Nil; Number 1; Number 2; Number 3] in
  code f = Some c /\ Code.defaults c = Some [] /\
  (exists fr, buildFrame None 0 [] f 3 stack 1 = Ok fr /\
     Frame.elements fr = [Number 1; list_ [Number 2; Number 3]]) /\
  (exists fr, buildFrame None 0 [] f 1 stack 1 = Ok fr /\
     Frame.elements fr = [Number 1; EmptyList]) /\
  exists e, buildFrame None 0 [] f 0 stack 1 = Err e.
Proof.
  intros c f stack. do 2 (split; [done|]).
  split; [|split].
  - destruct (buildFrame_rest None 0 [] f c 3 stack 1) as [_ Hok]; [done ..|].
    destruct Hok as (fr & Hfr & Hel); [simpl; lia ..|].
    exists fr. split; [exact Hfr | exact Hel].
  - destruct (buildFrame_rest None 0 [] f c 1 stack 1) as [_ Hok]; [done ..|].
    destruct Hok as (fr & Hfr & Hel); [simpl; lia ..|].
    exists fr. split; [exact Hfr | exact Hel].
  - destruct (buildFrame_rest None 0 [] f c 0 stack 1) as [Herr _]; [done ..|].
    apply Herr. simpl. lia.
Defined.

Lemma fillDefaults_length (expectedArgc totalArgc : Z) (defaults : list LOB)
    (n : nat) (i : Z) (el el' : list LOB) :
  fillDefaults expectedArgc totalArgc defaults n i el = Ok el' ->
  length el' = length el.
Proof.
  revert i el. induction n as [|n IH]; intros i el; simpl.
  - by intros [= ->].
  - destruct (i <? totalArgc); [|by intros [= ->]].
    intros Hf. apply bind_Ok in Hf as (d & _ & Hf).
    apply bind_Ok in Hf as (el1 & Hs & Hf).
    apply orPanic_Ok, store_length in Hs. apply IH in Hf. congruence.
Qed.

Lemma bindKeywords_length `{Host} (stack : list LOB) (sp argc expectedArgc extra : Z)
    (keys : list LOB) (n : nat) (i : Z) (el el' : list LOB) :
  bindKeywords stack sp argc expectedArgc extra keys n i el = Ok el' ->
  length el' = length el.
Proof.
  revert i el. induction n as [|n IH]; intros i el; simpl.
  - by intros [= ->].
  - destruct (i <? argc); [|by intros [= ->]].
    intros Hf. apply bind_Ok in Hf as (k & _ & Hf).
    destruct (toSymbol k) as [key|].
    + apply bind_Ok in Hf as ([j|] & _ & Hf); [|done].
      apply bind_Ok in Hf as (v & _ & Hf).
      apply bind_Ok in Hf as (el1 & Hs & Hf).
      apply orPanic_Ok, store_length in Hs. apply IH in Hf. congruence.
    + by apply bind_Ok in Hf as (bad & _ & Hf).
Qed.

Lemma buildFrame_length `{Host} (env : option nat) (pc : Z) (ops : list Z)
    (fun_ : LFunction) (c : LCode) (argc : Z) (stack : list LOB) (sp : Z)
    (f : Frame.t) :
  code fun_ = Some c ->
  buildFrame env pc ops fun_ argc stack sp = Ok f ->
  Z.of_nat (length (Frame.elements f)) = frameSlots c.
Proof.
  intros Hc Hb. unfold buildFrame in Hb. rewrite Hc in Hb. simpl in Hb.
  unfold frameSlots.
  destruct (Code.defaults c) as [ds|].
  - destruct (argc <? Code.argc c); [by destruct (0 <? _)|].
    apply bind_Ok in Hb as (el & Hel & Hb).
    apply orPanic_Ok, make_length in Hel.
    destruct (Z.of_nat (length ds) =? 0).
    + apply bind_Ok in Hb as (args & _ & Hb).
      apply bind_Ok in Hb as (r & _ & Hb).
      apply bind_Ok in Hb as (el1 & Hs & Hb).
      apply orPanic_Ok, store_length in Hs. rewrite copy_length in Hs.
      injection Hb as <-. simpl. lia.
    + destruct (Code.keys c) as [ks|].
      * apply bind_Ok in Hb as (bs & _ & Hb).
        destruct (negb _); [done|].
        apply bind_Ok in Hb as (args & _ & Hb).
        apply bind_Ok in Hb as (el1 & H1 & Hb).
        apply bind_Ok in Hb as (el2 & H2 & Hb).
        apply fillDefaults_length in H1. apply bindKeywords_length in H2.
        rewrite copy_length in H1.
        injection Hb as <-. simpl. lia.
      * apply bind_Ok in Hb as (args & _ & Hb).
        apply bind_Ok in Hb as (el1 & H1 & Hb).
        apply fillDefaults_length in H1. rewrite copy_length in H1.
        injection Hb as <-. simpl. lia.
  - destruct (Z.eqb_spec argc (Code.argc c)) as [E|E]; simpl in Hb; [|done].
    apply bind_Ok in Hb as (el & Hel & Hb).
    apply orPanic_Ok, make_length in Hel.
    apply bind_Ok in Hb as (args & _ & Hb).
    injection Hb as <-. simpl. rewrite copy_length. lia.
Qed.

(** X2: the number of slots of a frame depends on the Code alone: every
    frame that [buildFrame] builds for a function has [frameSlots] slots,
    so any two calls of one function, whatever their argument counts and
    operand stacks, build frames of the same size. *)
Theorem buildFrame_slots `{Host} (fun_ : LFunction) (c : LCode)
    (env1 env2 : option nat) (pc1 pc2 : Z) (ops1 ops2 : list Z)
    (argc1 argc2 : Z) (stack1 stack2 : list LOB) (sp1 sp2 : Z)
    (f1 f2 : Frame.t) :
  code fun_ = Some c ->
  buildFrame env1 pc1 ops1 fun_ argc1 stack1 sp1 = Ok f1 ->
  buildFrame env2 pc2 ops2 fun_ argc2 stack2 sp2 = Ok f2 ->
  Z.of_nat (length (Frame.elements f1)) = frameSlots c /\
  length (Frame.elements f2) = length (Frame.elements f1).
Proof.
  intros Hc H1 H2.
  apply (buildFrame_length _ _ _ _ c) in H1; [|done].
  apply (buildFrame_length _ _ _ _ c) in H2; [|done].
  split; [done | lia].
Qed.

(** One required and two optional parameters: three slots for a call
    with five arguments and for a call with one. *)
Lemma buildFrame_slots_witness :
  let c := Code.Make "f" [opcodeReturn] 1 (Some [Number 10; Number 20]) None in
  let f := MkFunction (Some c) None None instructionNone in
  let stack := [Nil; Number 1; Number 2; Number 3; Number 4; Number 5] in
  exists fr1 fr2,
    buildFrame None 0 [] f 5 stack 1 = Ok fr1 /\
    buildFrame None 0 [] f 1 stack 1 = Ok fr2 /\
    Z.of_nat (length (Frame.elements fr1)) = frameSlots c /\
    length (Frame.elements fr2) = length (Frame.elements fr1) /\
    frameSlots c = 3.
Proof.
  intros c f stack.
  destruct (buildFrame None 0 [] f 5 stack 1) as [fr1| |] eqn:H1;
    [|vm_compute in H1; discriminate ..].
  destruct (buildFrame None 0 [] f 1 stack 1) as [fr2| |] eqn:H2;
    [|vm_compute in H2; discriminate ..].
  exists fr1, fr2. split; [reflexivity|]. split; [reflexivity|].
  destruct (buildFrame_slots f c None None 0 0 [] [] 5 1 stack stack 1 1 fr1 fr2
              eq_refl H1 H2) as [Hn Heq].
  split; [exact Hn|]. split; [exact Heq | reflexivity].
Defined.

Lemma optionalParams_length (tmp : LOB) (elements syms defaults syms' defaults' : list LOB) :
  optionalParams tmp elements syms defaults = Ok (syms', defaults') ->
  length syms' = (length syms + length elements)%nat /\
  length defaults' = (length defaults + length elements)%nat.
Proof.
  revert syms defaults. induction elements as [|e els IH]; intros syms defaults; simpl.
  - intros [= <- <-]. lia.
  - assert (forall sym def,
              (if negb (isSymbol sym) then Err (syntaxError tmp)
               else optionalParams tmp els (syms ++ [sym]) (defaults ++ [def]))
              = Ok (syms', defaults') ->
              length syms' = (length syms + S (length els))%nat /\
              length defaults' = (length defaults + S (length els))%nat) as Hstep.
    { intros sym def. destruct (negb (isSymbol sym)); [done|].
      intros Ho. apply IH in Ho. rewrite !length_app in Ho. simpl in Ho. lia. }
    destruct e; apply Hstep.
Qed.

Lemma keywordParams_length (tmp : LOB) (bindings : list (LOB * LOB))
    (syms keys defaults syms' keys' defaults' : list LOB) :
  keywordParams tmp bindings syms keys defaults = Ok (syms', keys', defaults') ->
  length syms' = (length syms + length bindings)%nat /\
  length keys' = (length keys + length bindings)%nat /\
  length defaults' = (length defaults + length bindings)%nat.
Proof.
  revert syms keys defaults.
  induction bindings as [|[s d] bs IH]; intros syms keys defaults; simpl.
  - intros [= <- <- <-]. lia.
  - match goal with
    | |- context [negb (isSymbol ?x)] => destruct (negb (isSymbol x)); [done|]
    end.
    intros Ho. apply IH in Ho. rewrite !length_app in Ho. simpl in Ho. lia.
Qed.

Lemma lambdaParams_slots (tmp : LOB) (argc : Z) (syms : list LOB)
    (argc' : Z) (syms' : list LOB) (defaults keys : option (list LOB))
    (c : LCode) :
  lambdaParams tmp argc syms = Ok (argc', syms', defaults, keys) ->
  Z.of_nat (length syms) = argc ->
  Code.argc c = argc' -> Code.defaults c = defaults ->
  Z.of_nat (length syms') <= frameSlots c.
Proof.
  intros Hl Hn Hargc Hdef. unfold frameSlots. rewrite Hargc, Hdef. clear Hargc Hdef.
  revert argc syms Hl Hn.
  induction tmp; intros argc syms Hl Hn; simpl in Hl; try done.
  - injection Hl as <- <- <- <-. rewrite length_app. simpl. lia.
  - injection Hl as <- <- <- <-. lia.
  - destruct tmp1; simpl in Hl; try done;
      try (eapply IHtmp2; [exact Hl | rewrite length_app; simpl; lia]).
    + destruct (negb (identical tmp2 EmptyList)); [done|].
      apply bind_Ok in Hl as ([s d] & Ho & Hl). injection Hl as <- <- <- <-.
      apply optionalParams_length in Ho as [-> ->]. simpl.
      destruct (Z.eqb_spec (Z.of_nat (length elements)) 0); lia.
    + destruct (negb (identical tmp2 EmptyList)); [done|].
      apply bind_Ok in Hl as ([[s k] d] & Ho & Hl). injection Hl as <- <- <- <-.
      apply keywordParams_length in Ho as (-> & _ & ->). simpl.
      destruct (Z.eqb_spec (Z.of_nat (length bindings)) 0); lia.
Qed.

Lemma locationInFrame_bounds (sym : LOB) (syms : list LOB) (j0 j : Z) :
  locationInFrame sym (list_ syms) j0 = Some j ->
  j0 <= j < j0 + Z.of_nat (length syms).
Proof.
  revert j0. induction syms as [|s syms IH]; intros j0; simpl; [done|].
  destruct (identical s sym).
  - intros [= <-]. lia.
  - intros Hl. apply IH in Hl. lia.
Qed.

(** X3: the compiler and [buildFrame] agree on the layout of a frame:
    when [compileLambda] accepts a parameter list and the Code carries the
    argc and defaults it computed, every lexical address that
    [calculateLocation] finds for a parameter symbol in the innermost
    frame is the index of a slot of the frame built at a call. *)
Theorem parameters_have_slots `{Host} (args : LOB) (argc : Z) (syms : list LOB)
    (defaults keys : option (list LOB)) (c : LCode)
    (env : option nat) (pc : Z) (ops : list Z) (fun_ : LFunction)
    (n : Z) (stack : list LOB) (sp : Z) (f : Frame.t) (sym : LOB) (j : Z) :
  lambdaParams args 0 [] = Ok (argc, syms, defaults, keys) ->
  code fun_ = Some c ->
  Code.argc c = argc -> Code.defaults c = defaults ->
  buildFrame env pc ops fun_ n stack sp = Ok f ->
  locationInFrame sym (toList syms) 0 = Some j ->
  is_Some (index (Frame.elements f) j).
Proof.
  intros Hl Hc Hargc Hdef Hb Hloc.
  apply (lambdaParams_slots _ _ _ _ _ _ _ c) in Hl; [|done ..].
  apply (buildFrame_length _ _ _ _ c) in Hb; [|done].
  apply locationInFrame_bounds in Hloc.
  rewrite index_Some by lia. apply lookup_lt_is_Some_2. lia.
Qed.

(** [(lambda (a [b (c 3)]) ...)] called with two arguments: [c] has the
    address 2, and the frame has a slot 2. *)
Lemma parameters_have_slots_witness :
  let args := Pair (Symbol "a") (Pair (Vector [Symbol "b"; list_ [Symbol "c"; Number 3]]) EmptyList) in
  let c := Code.Make "f" [opcodeReturn] 1 (Some [EmptyList; Number 3]) None in
  let f := MkFunction (Some c) None None instructionNone in
  let stack := [Nil; Number 1; Number 2] in
  lambdaParams args 0 []
  = Ok (1, [Symbol "a"; Symbol "b"; Symbol "c"], Some [EmptyList; Number 3], None) /\
  locationInFrame (Symbol "c") (toList [Symbol "a"; Symbol "b"; Symbol "c"]) 0 = Some 2 /\
  exists fr, buildFrame None 0 [] f 2 stack 1 = Ok fr /\
    is_Some (index (Frame.elements fr) 2).
Proof.
  intros args c f stack.
  assert (lambdaParams args 0 []
          = Ok (1, [Symbol "a"; Symbol "b"; Symbol "c"],
                Some [EmptyList; Number 3], None)) as Hl by (vm_compute; reflexivity).
  assert (locationInFrame (Symbol "c") (toList [Symbol "a"; Symbol "b"; Symbol "c"]) 0
          = Some 2) as Hloc by (vm_compute; reflexivity).
  split; [exact Hl|]. split; [exact Hloc|].
  destruct (buildFrame None 0 [] f 2 stack 1) as [fr| |] eqn:Hb;
    [|vm_compute in Hb; discriminate ..].
  exists fr. split; [reflexivity|].
  exact (parameters_have_slots args 1 _ _ _ c None 0 [] f 2 stack 1 fr
           (Symbol "c") 2 Hl eq_refl eq_refl eq_refl Hb Hloc).
Defined.

(** ** Invariants of the loop *)

Lemma sameFrame_refl (f : Frame.t) : sameFrame f f.
Proof. by repeat split. Qed.

Lemma sameFrame_trans (f g h : Frame.t) :
  sameFrame f g -> sameFrame g h -> sameFrame f h.
Proof. unfold sameFrame. intuition congruence. Qed.

Lemma step_heap `{Host} (m m' : Machine) :
  step m = Ok (inl m') ->
  heap m' = heap m \/
  (exists a f el, heap m !! a = Some f /\
     length el = length (Frame.elements f) /\
     heap m' = <[a := Frame.setElements f el]> (heap m)) \/
  (exists f, heap m' = heap m ++ [f]).
Proof.
  intros Hs. unfold step in Hs.
  apply bind_Ok in Hs as (fr & Hfr & Hs). apply withContext_Ok in Hs.
  destruct (control m) as [|fun_ argc savedPc|fun_ argc] eqn:Hctl.
  - unfold fetch, push, leave in Hs. step_inv; simpl; eauto 10 using store_length.
  - unfold callAgain, leave in Hs. step_inv; simpl; eauto 10.
  - unfold tailCallAgain, leave in Hs. step_inv; simpl; eauto 10.
Qed.

(** X4: the loop never moves, unlinks or resizes a frame: after any number
    of turns a frame that was in the heap is at the same address, with
    the same [locals] and [previous] links, return address, code and
    number of slots; only the values in its slots may differ. *)
Theorem frames_keep_links `{Host} (n : nat) (m m' : Machine) (a : nat) (f : Frame.t) :
  steps n m = Some m' ->
  heap m !! a = Some f ->
  exists f', heap m' !! a = Some f' /\ sameFrame f f'.
Proof.
  revert m f. induction n as [|n IH]; intros m f Hs Hf; simpl in Hs.
  - injection Hs as <-. exists f. split; [done | apply sameFrame_refl].
  - destruct (step m) as [[m1|v]|e|] eqn:Hstep; try done.
    assert (exists f1, heap m1 !! a = Some f1 /\ sameFrame f f1) as (f1 & Hf1 & Hsame).
    { destruct (step_heap m m1 Hstep) as [-> | [(b & g & el & Hg & Hlen & ->) | (g & ->)]].
      - exists f. split; [done | apply sameFrame_refl].
      - destruct (decide (b = a)) as [->|Hne].
        + rewrite Hf in Hg. injection Hg as <-.
          exists (Frame.setElements f el). split.
          * apply list_lookup_insert_eq. by apply lookup_lt_Some in Hf.
          * by repeat split.
        + exists f. rewrite list_lookup_insert_ne by done.
          split; [done | apply sameFrame_refl].
      - exists f. split; [|apply sameFrame_refl].
        apply lookup_app_l_Some. done. }
    destruct (IH m1 f1 Hs Hf1) as (f' & Hf' & Hsame').
    exists f'. split; [done|]. by eapply sameFrame_trans.
Qed.

Lemma spliceArgs_length (arglist : LOB) (stack : list LOB) (sp i : Z)
    (stack' : list LOB) :
  spliceArgs arglist stack sp i = Ok stack' -> length stack' = length stack.
Proof.
  revert stack i. induction arglist; intros stack i; simpl; try done.
  - by intros [= ->].
  - intros Hs. apply bind_Ok in Hs as (s1 & H1 & Hs).
    apply orPanic_Ok, store_length in H1. apply IHarglist2 in Hs. congruence.
Qed.

Lemma applyArgs_length `{Host} (argc : Z) (stack : list LOB) (sp : Z)
    (fun_ : LOB) (argc' : Z) (stack' : list LOB) (sp' : Z) :
  applyArgs argc stack sp = Ok (fun_, argc', stack', sp') ->
  length stack' = length stack.
Proof.
  unfold applyArgs. intros Ha. bind_inv. by eapply spliceArgs_length.
Qed.

(** X5: the operand stack is allocated once: no turn of the loop changes
    its length. *)
Theorem step_keeps_stack_size `{Host} (n : nat) (m m' : Machine) :
  steps n m = Some m' -> length (stack m') = length (stack m).
Proof.
  revert m. induction n as [|n IH]; intros m Hs; simpl in Hs.
  - by injection Hs as <-.
  - destruct (step m) as [[m1|v]|e|] eqn:Hstep; try done.
    apply IH in Hs. rewrite Hs. clear Hs IH.
    unfold step in Hstep.
    apply bind_Ok in Hstep as (fr & Hfr & Hs). apply withContext_Ok in Hs.
    destruct (control m) as [|fun_ argc savedPc|fun_ argc] eqn:Hctl.
    + unfold fetch, push, leave in Hs. step_inv; simpl; eauto using store_length.
    + unfold callAgain, leave in Hs.
      step_inv; simpl; eauto using store_length, applyArgs_length.
    + unfold tailCallAgain, leave in Hs.
      step_inv; simpl; eauto using store_length, applyArgs_length.
Qed.

Lemma step_interrupted `{Host} (m : Machine) :
  interrupt m = true -> inTailCall m = false ->
  (forall v, step m <> Ok (inr v)) /\
  (forall m', step m = Ok (inl m') ->
     interrupt m' = true /\ inTailCall m' = false /\
     length (heap m') = length (heap m) /\ env m' = env m).
Proof.
  intros Hi Ht. unfold inTailCall in Ht. split.
  - intros v Hs. unfold step in Hs.
    apply bind_Ok in Hs as (fr & Hfr & Hs). apply withContext_Ok in Hs.
    destruct (control m) as [|fun_ argc savedPc|fun_ argc] eqn:Hctl; [| |done].
    + unfold fetch, push, leave in Hs. rewrite Hi in Hs.
      step_inv; done.
    + unfold callAgain, leave in Hs. rewrite Hi in Hs.
      step_inv; done.
  - intros m' Hs. unfold step in Hs.
    apply bind_Ok in Hs as (fr & Hfr & Hs). apply withContext_Ok in Hs.
    unfold inTailCall.
    destruct (control m) as [|fun_ argc savedPc|fun_ argc] eqn:Hctl; [| |done].
    + unfold fetch, push, leave in Hs. rewrite Hi in Hs.
      step_inv; simpl; rewrite ?length_insert; done.
    + unfold callAgain, leave in Hs. rewrite Hi in Hs.
      step_inv; simpl; done.
Qed.

(** X6: while the interrupt flag is raised the loop returns no value: a
    machine at the top of the loop or at the label of a [call] either
    fails or is still running after any number of turns. *)
Theorem interrupted_never_returns `{Host} (n : nat) (m : Machine) (v : LOB) :
  interrupt m = true -> inTailCall m = false ->
  run n m <> Some (Ok v).
Proof.
  revert m. induction n as [|n IH]; intros m Hi Ht; simpl; [done|].
  destruct (step_interrupted m Hi Ht) as [Hv Hm].
  destruct (step m) as [[m'|v']|e|] eqn:Hs; try done.
  - destruct (Hm m' eq_refl) as (Hi' & Ht' & _). by apply IH.
  - by destruct (Hv v').
Qed.

(** A [return] at top level: an error when interrupted, the value on
    top of the stack otherwise. *)
Lemma interrupted_never_returns_witness :
  let m := MkMachine [Nil; Number 7] 1 0 [opcodeReturn] 0 Fetch
                     [Frame.Make None None [] [] [] None 0]
                     (MkWorld [] ∅ ∅) true in
  interrupt m = true /\ inTailCall m = false /\
  run 5 m <> Some (Ok (Number 7)) /\
  run 5 (MkMachine (stack m) (sp m) (env m) (ops m) (pc m) Fetch (heap m)
                   (world m) false) = Some (Ok (Number 7)).
Proof.
  intros m. split; [reflexivity|]. split; [reflexivity|]. split.
  - apply (interrupted_never_returns 5 m (Number 7)); reflexivity.
  - vm_compute. reflexivity.
Defined.

(** [setlocal 0 0] replaces the value of the slot and nothing else. *)
Lemma frames_keep_links_witness :
  exists m' f',
    steps 1 setLocalMachine = Some m' /\
    heap m' !! 0%nat = Some f' /\
    sameFrame (Frame.Make None None [] [Null] [] None 0) f' /\
    Frame.elements f' = [Number 7].
Proof.
  destruct (steps 1 setLocalMachine) as [m'|] eqn:Hs;
    [|vm_compute in Hs; discriminate].
  destruct (frames_keep_links 1 setLocalMachine m' 0 _ Hs eq_refl)
    as (f' & Hf' & Hsame).
  exists m', f'. split; [reflexivity|]. split; [exact Hf'|].
  split; [exact Hsame|].
  vm_compute in Hs. injection Hs as <-. vm_compute in Hf'.
  injection Hf' as <-. reflexivity.
Defined.

(** Three hundred turns of [(define (loop) (loop))]. *)
Lemma step_keeps_stack_size_witness :
  exists m',
    steps 300 loopMachine = Some m' /\
    length (stack m') = length (stack loopMachine).
Proof.
  destruct (steps 300 loopMachine) as [m'|] eqn:Hs;
    [|vm_compute in Hs; discriminate].
  exists m'. split; [reflexivity|].
  exact (step_keeps_stack_size 300 loopMachine m' Hs).
Defined.

(** ** Calls, returns and local variables *)

(** X7: a [call] that dispatches to a closure allocates one frame whose
    [previous] link is the frame of the caller and whose [locals] link is
    the frame captured by the closure, pops nothing but the function,
    makes the chain of callers one frame longer and starts the code of the
    closure at 0; a [return] executed later in that frame resumes the
    caller: its frame, its code and the instruction after the [call], the
    operand stack as the callee left it. *)
Theorem call_enters_return_resumes `{Host} (m m1 : Machine) (lfun : LFunction)
    (fcode : LCode) (argc savedPc : Z) :
  control m = CallAgain (Function lfun) argc savedPc ->
  primitive lfun = None -> code lfun = Some fcode ->
  step m = Ok (inl m1) ->
  exists f,
    heap m1 = heap m ++ [f] /\ env m1 = length (heap m) /\
    Frame.previous f = Some (env m) /\ Frame.locals f = frame lfun /\
    ops m1 = Code.ops fcode /\ pc m1 = 0 /\
    stack m1 = stack m /\ sp m1 = sp m + argc /\
    (forall d, Callers (heap m) (Some (env m)) d ->
               Callers (heap m1) (Some (env m1)) (S d)) /\
    (forall (m2 : Machine) (f2 : Frame.t),
       heap m2 !! env m2 = Some f2 -> sameFrame f f2 ->
       control m2 = Fetch ->
       index (ops m2) (pc m2) = Some opcodeReturn ->
       interrupt m2 = false ->
       step m2 = Ok (inl (MkMachine (stack m2) (sp m2) (env m) (ops m) savedPc
                                    Fetch (heap m2) (world m2) false))).
Proof.
  intros Hctl Hp Hcode Hs. unfold step in Hs.
  apply bind_Ok in Hs as (fr & Hfr & Hs). apply withContext_Ok in Hs.
  rewrite Hctl in Hs. simpl in Hs. rewrite Hp, Hcode in Hs.
  destruct (interrupt m); [done|].
  apply bind_Ok in Hs as (f & Hb & Hs). injection Hs as <-.
  apply buildFrame_links in Hb as (Hprev & Hpc & Hops & Hloc & _).
  exists f. simpl. do 8 (split; [done|]). split.
  - intros d Hc. apply (Callers_frame _ _ f).
    + by rewrite lookup_app_r, Nat.sub_diag by lia.
    + rewrite Hprev. by apply Callers_app.
  - intros m2 f2 Hf2 (_ & Hprev2 & Hops2 & Hpc2 & _) Hctl2 Hop Hi2.
    unfold step. rewrite Hf2, Hctl2. simpl.
    unfold fetch. rewrite Hop. simpl. rewrite Hi2.
    unfold leave. rewrite Hprev2, Hprev, Hops2, Hpc2, Hops, Hpc. simpl.
    by rewrite Hi2.
Qed.

(** [((lambda (x) x) 1)] from the label of the [call]. *)
Lemma call_enters_return_resumes_witness :
  exists m1 f,
    step callMachine = Ok (inl m1) /\
    heap m1 = heap callMachine ++ [f] /\
    Frame.previous f = Some 0%nat /\
    ops m1 = Code.ops identityCode /\
    run 4 callMachine = Some (Ok (Number 1)).
Proof.
  destruct (step callMachine) as [[m1|v]|e|] eqn:Hs;
    [|vm_compute in Hs; discriminate ..].
  destruct (call_enters_return_resumes callMachine m1
              (MkFunction (Some identityCode) (Some 0%nat) None instructionNone)
              identityCode 1 2 eq_refl eq_refl eq_refl Hs)
    as (f & Hh & _ & Hprev & _ & Hops & _).
  exists m1, f. split; [reflexivity|]. split; [exact Hh|].
  split; [exact Hprev|]. split; [exact Hops|]. vm_compute. reflexivity.
Defined.

Lemma walkLocals_update (h : list Frame.t) (a : nat) (f : Frame.t)
    (el : list LOB) (n : nat) (p : option nat) :
  h !! a = Some f ->
  walkLocals (<[a := Frame.setElements f el]> h) n p = walkLocals h n p.
Proof.
  intros Hf. revert p. induction n as [|n IH]; intros p; simpl; [done|].
  destruct p as [b|]; simpl; [|done].
  destruct (decide (a = b)) as [->|Hne].
  - rewrite list_lookup_insert_eq by (by apply lookup_lt_Some in Hf).
    rewrite Hf. simpl. apply IH.
  - rewrite list_lookup_insert_ne by done.
    destruct (h !! b); simpl; [apply IH | done].
Qed.

(** X8: [setlocal i j] stores the value on top of the stack in slot [j]
    of the frame [i] links up the [locals] chain and leaves the operand
    stack as it is; a [local i j] executed afterwards from the same frame
    over the same heap pushes that value. *)
Theorem setlocal_then_local `{Host} (m m1 : Machine) (i j : Z) :
  control m = Fetch ->
  index (ops m) (pc m) = Some opcodeSetLocal ->
  index (ops m) (pc m + 1) = Some i ->
  index (ops m) (pc m + 2) = Some j ->
  step m = Ok (inl m1) ->
  exists v,
    index (stack m) (sp m) = Some v /\
    stack m1 = stack m /\ sp m1 = sp m /\ pc m1 = pc m + 3 /\
    env m1 = env m /\
    forall m2 : Machine,
      heap m2 = heap m1 -> env m2 = env m1 ->
      control m2 = Fetch ->
      index (ops m2) (pc m2) = Some opcodeLocal ->
      index (ops m2) (pc m2 + 1) = Some i ->
      index (ops m2) (pc m2 + 2) = Some j ->
      1 <= sp m2 <= Z.of_nat (length (stack m2)) ->
      step m2 = Ok (inl (setRegs m2 (<[Z.to_nat (sp m2 - 1) := v]> (stack m2))
                                 (sp m2 - 1) (pc m2 + 3))).
Proof.
  intros Hctl Hop Hi Hj Hs. unfold step in Hs.
  apply bind_Ok in Hs as (fr & Hfr & Hs). apply orPanic_Ok in Hfr.
  apply withContext_Ok in Hs.
  rewrite Hctl in Hs. unfold fetch in Hs. rewrite Hop in Hs. simpl in Hs.
  rewrite Hi, Hj in Hs. simpl in Hs.
  apply bind_Ok in Hs as (tmpEnv & Hw & Hs). apply orPanic_Ok in Hw.
  apply bind_Ok in Hs as (a & Ha & Hs). apply orPanic_Ok in Ha. subst tmpEnv.
  apply bind_Ok in Hs as (f & Hf & Hs). apply orPanic_Ok in Hf.
  apply bind_Ok in Hs as (v & Hv & Hs). apply orPanic_Ok in Hv.
  apply bind_Ok in Hs as (el & Hel & Hs). apply orPanic_Ok in Hel.
  injection Hs as <-. exists v. simpl. do 5 (split; [done|]).
  intros m2 Hh He Hctl2 Hop2 Hi2 Hj2 Hsp. simpl in Hh, He.
  unfold step. rewrite Hh, He.
  assert (is_Some (<[a := Frame.setElements f el]> (heap m) !! env m)) as [fr2 Hfr2].
  { apply lookup_lt_is_Some. rewrite length_insert. by apply lookup_lt_Some in Hfr. }
  rewrite Hfr2, Hctl2. simpl.
  unfold fetch. rewrite Hop2. simpl. rewrite Hi2, Hj2. simpl.
  rewrite Hh, He, walkLocals_update, Hw by done. simpl.
  rewrite list_lookup_insert_eq by (by apply lookup_lt_Some in Hf). simpl.
  assert (index el j = Some v) as ->.
  { unfold store in Hel.
    destruct (Z.leb_spec 0 j), (Z.ltb_spec j (Z.of_nat (length (Frame.elements f))));
      simpl in Hel; try done.
    injection Hel as <-. rewrite index_Some by done.
    apply list_lookup_insert_eq. lia. }
  simpl. unfold push. by rewrite store_Some by lia.
Qed.

(** [setlocal 0 0; local 0 0] with 7 on top of the stack. *)
Lemma setlocal_then_local_witness :
  exists m1 v,
    step setLocalMachine = Ok (inl m1) /\
    index (stack setLocalMachine) (sp setLocalMachine) = Some v /\
    v = Number 7 /\
    step m1 = Ok (inl (setRegs m1 (<[1%nat := v]> (stack m1)) 1 6)).
Proof.
  destruct (step setLocalMachine) as [[m1|v]|e|] eqn:Hs;
    [|vm_compute in Hs; discriminate ..].
  destruct (setlocal_then_local setLocalMachine m1 0 0 eq_refl eq_refl eq_refl
              eq_refl Hs) as (v & Hv & Hstk & Hsp & Hpc & Henv & Hnext).
  exists m1, v. split; [reflexivity|]. split; [exact Hv|].
  vm_compute in Hs. injection Hs as <-.
  split; [vm_compute in Hv; by injection Hv as <-|].
  apply (Hnext _ eq_refl eq_refl eq_refl eq_refl eq_refl eq_refl).
  simpl. lia.
Defined.

(** X9: lexical scope: [closure] pushes a function whose frame is the
    current frame, and every later call or tail call of that function,
    from whatever frame, builds a frame whose [locals] link is the frame
    in which the closure was created. *)
Theorem closure_captures_frame `{Host} (m m1 : Machine) :
  control m = Fetch ->
  index (ops m) (pc m) = Some opcodeClosure ->
  step m = Ok (inl m1) ->
  exists lfun,
    index (stack m1) (sp m1) = Some (Function lfun) /\
    sp m1 = sp m - 1 /\
    frame lfun = Some (env m) /\ primitive lfun = None /\
    forall (m2 m3 : Machine) (argc : Z),
      (exists savedPc, control m2 = CallAgain (Function lfun) argc savedPc) \/
      control m2 = TailCallAgain (Function lfun) argc ->
      step m2 = Ok (inl m3) ->
      exists f, heap m3 = heap m2 ++ [f] /\
                heap m3 !! env m3 = Some f /\
                Frame.locals f = Some (env m).
Proof.
  intros Hctl Hop Hs. unfold step in Hs.
  apply bind_Ok in Hs as (fr & Hfr & Hs). apply withContext_Ok in Hs.
  rewrite Hctl in Hs. unfold fetch in Hs. rewrite Hop in Hs. simpl in Hs.
  apply bind_Ok in Hs as (i & Hi & Hs).
  apply bind_Ok in Hs as (c & Hc & Hs).
  destruct (identical c Nil); [done|]. unfold push in Hs.
  apply bind_Ok in Hs as (stk & Hstk & Hs). apply orPanic_Ok in Hstk.
  injection Hs as <-. simpl.
  exists (MkFunction (codeField c) (Some (env m)) None instructionNone).
  split; [|split; [done | split; [done | split; [done|]]]].
  { unfold store in Hstk.
    destruct (Z.leb_spec 0 (sp m - 1)), (Z.ltb_spec (sp m - 1) (Z.of_nat (length (stack m))));
      simpl in Hstk; try done.
    injection Hstk as <-. rewrite index_Some by done.
    apply list_lookup_insert_eq. lia. }
  intros m2 m3 argc Hctl2 Hs2. unfold step in Hs2.
  apply bind_Ok in Hs2 as (fr2 & Hfr2 & Hs2). apply withContext_Ok in Hs2.
  destruct Hctl2 as [[savedPc Hctl2] | Hctl2]; rewrite Hctl2 in Hs2; simpl in Hs2.
  - destruct (codeField c) as [fcode|] eqn:Hcode; simpl in Hs2.
    + destruct (interrupt m2); [done|].
      apply bind_Ok in Hs2 as (f & Hb & Hs2). injection Hs2 as <-.
      apply buildFrame_links in Hb as (_ & _ & _ & Hloc & _).
      exists f. simpl. split; [done|].
      split; [by rewrite lookup_app_r, Nat.sub_diag by lia | done].
    + done.
  - destruct (codeField c) as [fcode|] eqn:Hcode; simpl in Hs2.
    + apply bind_Ok in Hs2 as (f & Hb & Hs2). injection Hs2 as <-.
      apply buildFrame_links in Hb as (_ & _ & _ & Hloc & _).
      exists f. simpl. split; [done|].
      split; [by rewrite lookup_app_r, Nat.sub_diag by lia | done].
    + done.
Qed.

(** A closure created in a frame whose slot 0 holds 5, called at once. *)
Lemma closure_captures_frame_witness :
  exists m1 m2 m3 f,
    step closureMachine = Ok (inl m1) /\
    steps 2 closureMachine = Some m2 /\
    step m2 = Ok (inl m3) /\
    heap m3 !! env m3 = Some f /\
    Frame.locals f = Some (env closureMachine) /\
    run 6 closureMachine = Some (Ok (Number 5)).
Proof.
  destruct (step closureMachine) as [[m1|v]|e|] eqn:Hs;
    [|vm_compute in Hs; discriminate ..].
  destruct (steps 2 closureMachine) as [m2|] eqn:Hs2;
    [|vm_compute in Hs2; discriminate].
  destruct (step m2) as [[m3|v]|e|] eqn:Hs3;
    [|vm_compute in Hs2; injection Hs2 as <-; vm_compute in Hs3; discriminate ..].
  destruct (closure_captures_frame closureMachine m1 eq_refl eq_refl Hs)
    as (lfun & Hl & _ & _ & _ & Hcall).
  vm_compute in Hs. injection Hs as <-. vm_compute in Hl. injection Hl as <-.
  destruct (Hcall m2 m3 0) as (f & _ & Hf & Hloc).
  { left. exists 4. vm_compute in Hs2. by injection Hs2 as <-. }
  { exact Hs3. }
  eexists. exists m2, m3, f. split; [reflexivity|]. split; [reflexivity|].
  split; [exact Hs3|]. split; [exact Hf|]. split; [exact Hloc|].
  vm_compute. reflexivity.
Defined.

(** ** Lexical addresses *)








(** ** Sequences and [quote] *)

Lemma compileExpr_constant_ignored `{Host} (fuel : nat) (st : CompileState)
    (cenv obj : LOB) (isTail : bool) (context : string) :
  selfEvaluating obj = true ->
  compileExpr (S fuel) st cenv obj isTail true context = Some (Ok st).
Proof. by destruct obj. Qed.

(** X11: a sequence compiles the constants that are not in the last
    position to nothing: their values would be ignored, so
    [(begin c1 ... cn e)] compiles exactly as [e]. *)
Theorem begin_drops_constants `{Host} (cs : list LOB) (e : LOB) (k : nat)
    (st : CompileState) (cenv : LOB) (isTail ignoreResult : bool)
    (context : string) :
  Forall (fun o => selfEvaluating o = true) cs ->
  compileSequence (length cs + S k) st cenv (list_ (cs ++ [e]))
                  isTail ignoreResult context
  = compileExpr k st cenv e isTail ignoreResult context.
Proof.
  induction 1 as [|c cs Hc _ IH]; [done|].
  cbn [length Nat.add app list_ foldr compileSequence identical negb cdr car].
  assert (identical (foldr Pair EmptyList (cs ++ [e])) EmptyList = false) as ->.
  { by destruct cs. }
  cbn [negb].
  replace (length cs + S k)%nat with (S (length cs + k)) at 1 by lia.
  rewrite compileExpr_constant_ignored by done.
  cbn [fbind]. exact IH.
Qed.

(** [(begin 1 "a" x)] compiles to [global x]. *)
Lemma begin_drops_constants_witness :
  let st := MkCompile (newCode 0 None None "") [] in
  Forall (fun o => selfEvaluating o = true) [Number 1; String_ "a"] /\
  compileSequence 4 st EmptyList (list_ [Number 1; String_ "a"; Symbol "x"])
                  false false ""
  = compileExpr 1 st EmptyList (Symbol "x") false false "" /\
  compileExpr 1 st EmptyList (Symbol "x") false false ""
  = Some (Ok (MkCompile (Code.Make "" [opcodeGlobal; 0] 0 None None) [Symbol "x"])).
Proof.
  intros st.
  assert (Forall (fun o => selfEvaluating o = true) [Number 1; String_ "a"]) as Hall
    by (repeat constructor).
  split; [exact Hall|]. split; [|reflexivity].
  exact (begin_drops_constants [Number 1; String_ "a"] (Symbol "x") 1 st
           EmptyList false false "" Hall).
Defined.

Lemma run_step `{Host} (n : nat) (m m' : Machine) :
  step m = Ok (inl m') -> run (S n) m = run n m'.
Proof. intros Hs. simpl. by rewrite Hs. Qed.

Lemma run_steps `{Host} (k n : nat) (m m' : Machine) :
  steps k m = Some m' -> run (k + n) m = run n m'.
Proof.
  revert m. induction k as [|k IH]; intros m; simpl.
  - by intros [= ->].
  - destruct (step m) as [[m1|v]|e|]; try done. apply IH.
Qed.

Lemma step_return_top `{Host} (m : Machine) (fr : Frame.t) (v : LOB) :
  heap m !! env m = Some fr ->
  Frame.previous fr = None ->
  control m = Fetch ->
  index (ops m) (pc m) = Some opcodeReturn ->
  interrupt m = false ->
  index (stack m) (sp m) = Some v ->
  step m = Ok (inr v).
Proof.
  intros Hfr Hprev Hctl Hop Hi Hv.
  unfold step. rewrite Hfr, Hctl. simpl.
  unfold fetch. rewrite Hop. simpl. rewrite Hi.
  unfold leave. rewrite Hprev, Hv. done.
Qed.

Lemma run_return `{Host} (n : nat) (m : Machine) (v : LOB) :
  step m = Ok (inr v) -> run (S n) m = Some (Ok v).
Proof. intros Hs. simpl. by rewrite Hs. Qed.

Lemma exec_start `{Host} (n : nat) (w : World) (intr : bool) (c : LCode) :
  Code.argc c = 0 -> Code.ops c <> [] ->
  exec n w intr c []
  = run n (MkMachine (replicate (Z.to_nat defaultStackSize) Nil) defaultStackSize
                     0 (Code.ops c) 0 Fetch
                     [Frame.Make None None [] [] [] None 0] w intr).
Proof.
  intros Hargc Hops. unfold exec. rewrite Hargc. simpl.
  unfold VM_exec, initial. rewrite make_Some by done. simpl.
  destruct (Code.ops c); [done|]. done.
Qed.


(** ** The compiler only appends *)

Lemma extends_refl (st : CompileState) : extends st st.
Proof.
  split; [exists []; by rewrite app_nil_r|].
  split; [exists []; by rewrite app_nil_r | done].
Qed.

Lemma extends_trans (a b c : CompileState) :
  extends a b -> extends b c -> extends a c.
Proof.
  intros ([m1 H1] & [c1 P1] & N1 & A1 & D1 & K1)
         ([m2 H2] & [c2 P2] & N2 & A2 & D2 & K2).
  split; [exists (m1 ++ m2); by rewrite H2, H1, app_assoc|].
  split; [exists (c1 ++ c2); by rewrite P2, P1, app_assoc|].
  repeat split; congruence.
Qed.

Lemma extends_emit (st : CompileState) (more : list Z) : extends st (emit st more).
Proof.
  split; [by exists more|]. split; [exists []; by rewrite app_nil_r | done].
Qed.

Lemma extends_emitConstant (op : Z) (st : CompileState) (val : LOB) :
  extends st (emitConstant op st val).
Proof.
  unfold emitConstant.
  destruct (putConstant_spec val (pool st)) as [_ [more Hm]].
  destruct (putConstant val (pool st)) as [idx cs]. simpl in Hm.
  split; [by exists [op; idx]|]. split; [by exists more | done].
Qed.

Lemma extends_finish (st : CompileState) (isTail ignoreResult : bool) :
  extends st (finish st isTail ignoreResult).
Proof.
  unfold finish. destruct ignoreResult; [apply extends_emit|].
  destruct isTail; [apply extends_emit | apply extends_refl].
Qed.

Lemma extends_value (s0 st' st : CompileState) (isTail ignoreResult : bool) :
  extends s0 st -> extends s0 st' ->
  extends s0 (value st' st isTail ignoreResult).
Proof.
  intros Hs He. unfold value. destruct ignoreResult; simpl; [done|].
  destruct isTail; [|done].
  eapply extends_trans; [exact He | apply extends_emit].
Qed.

(** Code compiled into a fresh code object, its pool handed back. *)
Lemma extends_pool (st : CompileState) (c : LCode) (inner : CompileState) :
  extends (MkCompile c (pool st)) inner ->
  extends st (MkCompile (cur st) (pool inner)).
Proof.
  intros (_ & [cs Hp] & _). simpl in Hp.
  split; [exists []; by rewrite app_nil_r|]. split; [by exists cs | done].
Qed.

Lemma fbind_Ok {A B} (m : fueled A) (k : A -> fueled B) (b : B) :
  fbind m k = Some (Ok b) -> exists a, m = Some (Ok a) /\ k a = Some (Ok b).
Proof. destruct m as [[a|e|]|]; simpl; [eauto | done ..]. Qed.

Lemma setJumpLocation_ops (st st' : CompileState) (loc : Z) :
  setJumpLocation st loc = Ok st' ->
  0 <= loc < Z.of_nat (length (Code.ops (cur st))) /\
  Code.ops (cur st')
  = <[Z.to_nat loc := Z.of_nat (length (Code.ops (cur st))) - loc + 1]>
      (Code.ops (cur st)) /\
  pool st' = pool st /\
  Code.name (cur st') = Code.name (cur st) /\
  Code.argc (cur st') = Code.argc (cur st) /\
  Code.defaults (cur st') = Code.defaults (cur st) /\
  Code.keys (cur st') = Code.keys (cur st).
Proof.
  unfold setJumpLocation. intros Hs.
  apply bind_Ok in Hs as (ops' & Hst & Hs). apply orPanic_Ok in Hst.
  injection Hs as <-. simpl. unfold store in Hst.
  destruct (Z.leb_spec 0 loc), (Z.ltb_spec loc (Z.of_nat (length (Code.ops (cur st)))));
    simpl in Hst; try done.
  injection Hst as <-. done.
Qed.

Lemma setJumpLocation_extends (st0 st st' : CompileState) (loc : Z) :
  extends st0 st ->
  Z.of_nat (length (Code.ops (cur st0))) <= loc ->
  setJumpLocation st loc = Ok st' ->
  extends st0 st'.
Proof.
  intros ([more Ho] & Hp & Hn & Ha & Hd & Hk) Hloc Hs.
  apply setJumpLocation_ops in Hs as (Hb & Ho' & Hp' & Hn' & Ha' & Hd' & Hk').
  split.
  - rewrite Ho', Ho. rewrite insert_app_r_alt by lia. eauto.
  - rewrite Hp'. split; [done|]. repeat split; congruence.
Qed.

Ltac fuel_inv :=
  repeat match goal with
  | H : fbind _ _ = Some (Ok _) |- _ =>
      let a := fresh "st" in
      let Ha := fresh "Hc" in
      apply fbind_Ok in H as (a & Ha & H)
  | H : (if ?c then _ else _) = Some (Ok _) |- _ => destruct c eqn:?
  | H : match ?x with _ => _ end = Some (Ok _) |- _ => destruct x eqn:?
  | H : fail _ = Some (Ok _) |- _ => discriminate H
  | H : Some (Err _) = Some (Ok _) |- _ => discriminate H
  | H : Some Panic = Some (Ok _) |- _ => discriminate H
  | H : None = Some (Ok _) |- _ => discriminate H
  | H : done _ = Some (Ok _) |- _ => injection H as H; try subst
  | H : lift _ = Some (Ok _) |- _ => injection H as H
  | H : Some (Ok _) = Some (Ok _) |- _ => injection H as H; try subst
  end.

Ltac ext_goal :=
  unfold emitLiteral, emitGlobal, emitDefGlobal, emitUndefGlobal, emitDefMacro,
    emitUse, emitClosure, emitCall, emitTailCall, emitReturn, emitPop,
    emitLocal, emitSetLocal, emitVector, emitStruct, emitCar, emitCdr,
    emitNull, emitAdd, emitMul;
  lazymatch goal with
  | |- extends ?s ?s => apply extends_refl
  | |- extends _ (finish _ _ _) =>
      eapply extends_trans; [|apply extends_finish]; ext_goal
  | |- extends _ (value _ _ _ _) => apply extends_value; ext_goal
  | |- extends _ (emit _ _) =>
      eapply extends_trans; [|apply extends_emit]; ext_goal
  | |- extends _ (emitConstant _ _ _) =>
      eapply extends_trans; [|apply extends_emitConstant]; ext_goal
  | |- extends _ (match ?x with _ => _ end) => destruct x; ext_goal
  | |- extends _ (if ?x then _ else _) => destruct x; ext_goal
  | |- extends _ (let '(_, _) := ?x in _) => destruct x; ext_goal
  | |- extends _ (fst (_, _)) => cbn [fst]; ext_goal
  | |- extends _ (snd (_, _)) => cbn [snd]; ext_goal
  | _ => eassumption || (eapply extends_trans; [eassumption|]; ext_goal)
  end.

Ltac ext_hyps IHe IHel IHl IHs IHf IHa IHi IHlo :=
  repeat match goal with
  | H : _ = Some (Ok _) |- _ =>
      first [ apply IHe in H | apply IHel in H | apply IHl in H
            | apply IHs in H | apply IHf in H | apply IHa in H
            | apply IHi in H | apply IHlo in H ]
  end.

Section CompilerExtends.
Context `{Host}.

Lemma loadOps_extends (fuel : nat) :
  forall (st : CompileState) (lst : LOB) (r : CompileState * option LOB),
    loadOps fuel st lst = Some (Ok r) -> extends st (fst r).
Proof.
  induction fuel as [|n IH]; intros st lst r Hl; [done|].
  cbn [loadOps] in Hl.
  fuel_inv; simpl;
    try apply extends_refl;
    try (apply IH in Hl; eapply extends_trans; [|exact Hl]);
    try apply extends_emit; try apply extends_emitConstant.
  apply IH, extends_pool in Hc. simpl in Hc.
  eapply extends_trans; [exact Hc | apply extends_emitConstant].
Qed.

Lemma compileUse_extends (st st' : CompileState) (rest : LOB) :
  compileUse st rest = Ok st' -> extends st st'.
Proof.
  unfold compileUse. intros Hc. bind_inv. apply extends_emitConstant.
Qed.

Lemma compilePrimopCall_extends (st : CompileState) (fn : LOB) (argc : Z)
    (isTail ignoreResult : bool) :
  extends st (snd (compilePrimopCall st fn argc isTail ignoreResult)).
Proof.
  unfold compilePrimopCall.
  repeat match goal with
  | |- context [if ?c then _ else _] => destruct c
  end; cbn [snd]; ext_goal.
Qed.

Lemma extends_length (st st' : CompileState) :
  extends st st' ->
  (length (Code.ops (cur st)) <= length (Code.ops (cur st')))%nat.
Proof. intros ([more ->] & _). rewrite length_app. lia. Qed.

Lemma compiler_extends (n : nat) : compilerExtends n.
Proof.
  induction n as [|n (IHe & IHel & IHl & IHs & IHf & IHa & IHi)].
  { unfold compilerExtends. split_and!; intros; discriminate. }
  pose proof loadOps_extends as IHlo.
  unfold compilerExtends. split_and!.
  - intros st cenv e t i ctx st' Hc. cbn [compileExpr] in Hc.
    fuel_inv; ext_hyps IHe IHel IHl IHs IHf IHa IHi IHlo; try ext_goal.
    by eapply compileUse_extends.
  - intros st cenv l ctx st' Hc. cbn [compileElements] in Hc.
    fuel_inv; ext_hyps IHe IHel IHl IHs IHf IHa IHi IHlo; try ext_goal.
  - intros st cenv a b t i ctx st' Hc. cbn [compileLambda] in Hc.
    fuel_inv; ext_hyps IHe IHel IHl IHs IHf IHa IHi IHlo.
    match goal with
    | E : extends (MkCompile _ (pool st)) _ |- _ => apply extends_pool in E
    end.
    ext_goal.
  - intros st cenv es t i ctx st' Hc. cbn [compileSequence] in Hc.
    fuel_inv; ext_hyps IHe IHel IHl IHs IHf IHa IHi IHlo; try ext_goal.
  - intros st cenv fn args t i ctx st' Hc. cbn [compileFuncall] in Hc.
    fuel_inv; ext_hyps IHe IHel IHl IHs IHf IHa IHi IHlo; try ext_goal.
    destruct extendedInstructions; cbn [snd]; [|done].
    eapply extends_trans; [eassumption | apply compilePrimopCall_extends].
  - intros st cenv args ctx st' Hc. cbn [compileArgs] in Hc.
    fuel_inv; ext_hyps IHe IHel IHl IHs IHf IHa IHi IHlo; try ext_goal.
  - intros st cenv p c a t i ctx st' Hc. cbn [compileIfElse] in Hc.
    apply fbind_Ok in Hc as (st1 & H1 & Hc).
    unfold emitJumpFalse in Hc.
    apply fbind_Ok in Hc as (st3 & H3 & Hc).
    apply IHe in H1, H3.
    assert (extends st st3) as E3
      by (eapply extends_trans; [|exact H3]; ext_goal).
    pose proof (extends_length _ _ H1) as L1.
    pose proof (extends_length _ _ E3) as L3.
    destruct t; cbn [negb emitJump] in Hc.
    + apply fbind_Ok in Hc as (st5 & H5 & Hc). injection H5 as H5.
      apply fbind_Ok in Hc as (st6 & H6 & Hc). injection Hc as <-.
      apply IHe in H6.
      eapply extends_trans; [|exact H6].
      eapply (setJumpLocation_extends _ _ _ _ E3); [|exact H5]. lia.
    + apply fbind_Ok in Hc as (st5 & H5 & Hc). injection H5 as H5.
      apply fbind_Ok in Hc as (st6 & H6 & Hc). injection Hc as Hc.
      apply IHe in H6.
      assert (extends st st5) as E5.
      { assert (extends st (emit st3 [opcodeJump; 0])) as E4 by ext_goal.
        eapply (setJumpLocation_extends _ _ _ _ E4); [|exact H5]. lia. }
      assert (extends st st6) as E6 by (by eapply extends_trans).
      eapply (setJumpLocation_extends _ _ _ _ E6); [|exact Hc]. lia.
Qed.

Lemma compileExpr_extends (fuel : nat) (st : CompileState) (cenv expr : LOB)
    (isTail ignoreResult : bool) (context : string) (st' : CompileState) :
  compileExpr fuel st cenv expr isTail ignoreResult context = Some (Ok st') ->
  extends st st'.
Proof. apply (compiler_extends fuel). Qed.

(** X13: the compiler only appends.  The constant pool of an accepted
    expression starts with the pool it was given, so the indices of the
    constants compiled before stay valid; and each expression compiled
    into a code object leaves the instructions already in it where they
    are and keeps its name, argc, defaults and keys. *)
Theorem compile_only_appends (fuel : nat) (constants : list LOB) (expr : LOB)
    (st : CompileState) :
  compile fuel constants expr = Some (Ok st) ->
  (exists cs, pool st = constants ++ cs) /\
  (forall i v, index constants i = Some v -> index (pool st) i = Some v) /\
  forall (st0 : CompileState) (cenv e : LOB) (isTail ignoreResult : bool)
         (context : string) (st1 : CompileState),
    compileExpr fuel st0 cenv e isTail ignoreResult context = Some (Ok st1) ->
    extends st0 st1 /\
    forall i op, index (Code.ops (cur st0)) i = Some op ->
                 index (Code.ops (cur st1)) i = Some op.
Proof.
  intros Hc. unfold compile in Hc.
  apply fbind_Ok in Hc as (st1 & Hc & Hd). injection Hd as <-.
  apply compileExpr_extends in Hc as (_ & [cs Hp] & _). cbn [pool] in Hp.
  split; [by exists cs|]. split.
  - intros i v Hi. cbn [emitReturn emit pool]. rewrite Hp. by apply index_app_l.
  - intros st0 cenv e isTail ignoreResult context st2 He.
    apply compileExpr_extends in He. split; [done|].
    intros i op Hi. destruct He as ([more ->] & _). by apply index_app_l.
Qed.
End CompilerExtends.

(** [(if x 1 x)] compiled over the pool [[9]]. *)
Lemma compile_only_appends_witness :
  let expr := list_ [intern "if"; Symbol "x"; Number 1; Symbol "x"] in
  exists st,
    compile 5 [Number 9] expr = Some (Ok st) /\
    (exists cs, pool st = [Number 9] ++ cs) /\
    pool st = [Number 9; Symbol "x"; Number 1] /\
    Code.ops (cur st)
    = [opcodeGlobal; 1; opcodeJumpFalse; 6; opcodeLiteral; 2; opcodeJump; 4;
       opcodeGlobal; 1; opcodeReturn].
Proof.
  intros expr.
  destruct (compile 5 [Number 9] expr) as [[st| |]|] eqn:Hc;
    [|vm_compute in Hc; discriminate ..].
  exists st. split; [reflexivity|].
  split; [exact (proj1 (compile_only_appends 5 [Number 9] expr st Hc))|].
  vm_compute in Hc. injection Hc as <-. split; reflexivity.
Defined.

(** ** Conditionals *)

Lemma insert_operand {A} (l1 : list A) (x y v : A) (l2 : list A) (i : nat) :
  i = S (length l1) ->
  <[i := v]> (l1 ++ x :: y :: l2) = l1 ++ x :: v :: l2.
Proof.
  intros ->. rewrite insert_app_r_alt by lia.
  replace (S (length l1) - length l1)%nat with 1%nat by lia. done.
Qed.

(** X14: the two jumps of an [if].  [compileIfElse] emits the code of the
    predicate, [jumpfalse], the code of the consequent, [jump] unless in
    tail position, and the code of the alternative; the operand of
    [jumpfalse], added to the address of the [jumpfalse], is the address
    of the first instruction of the alternative, and the operand of
    [jump], added to the address of the [jump], is the address after the
    last instruction of the alternative. *)
Theorem if_jump_targets `{Host} (n : nat) (st : CompileState)
    (cenv predicate consequent alt : LOB) (isTail ignoreResult : bool)
    (context : string) (st' : CompileState) :
  compileIfElse (S n) st cenv predicate consequent alt isTail ignoreResult context
  = Some (Ok st') ->
  exists (stP stC stJ stA : CompileState) (P C A : list Z),
    compileExpr n st cenv predicate false false context = Some (Ok stP) /\
    Code.ops (cur stP) = Code.ops (cur st) ++ P /\
    compileExpr n (emit stP [opcodeJumpFalse; 0]) cenv consequent
                isTail ignoreResult context = Some (Ok stC) /\
    Code.ops (cur stC) = Code.ops (cur stP) ++ [opcodeJumpFalse; 0] ++ C /\
    compileExpr n stJ cenv
                (if negb (identical alt EmptyList) then car alt else EmptyList)
                isTail ignoreResult context = Some (Ok stA) /\
    Code.ops (cur stA) = Code.ops (cur stJ) ++ A /\
    Code.ops (cur st')
    = Code.ops (cur st) ++ P ++
      [opcodeJumpFalse; Z.of_nat (length C) + (if isTail then 2 else 4)] ++ C ++
      (if isTail then [] else [opcodeJump; Z.of_nat (length A) + 2]) ++ A.
Proof.
  intros Hc. cbn [compileIfElse] in Hc.
  apply fbind_Ok in Hc as (stP & HP & Hc).
  unfold emitJumpFalse in Hc.
  apply fbind_Ok in Hc as (stC & HC & Hc).
  destruct (compileExpr_extends _ _ _ _ _ _ _ _ HP) as ([P EP] & _).
  destruct (compileExpr_extends _ _ _ _ _ _ _ _ HC) as ([C EC] & _).
  rewrite emit_ops in EC.
  destruct isTail; cbn [negb emitJump] in Hc.
  - apply fbind_Ok in Hc as (stJ & HJ & Hc). injection HJ as HJ.
    apply fbind_Ok in Hc as (stA & HA & Hc). injection Hc as <-.
    destruct (compileExpr_extends _ _ _ _ _ _ _ _ HA) as ([A EA] & _).
    apply setJumpLocation_ops in HJ as (_ & EJ & _).
    exists stP, stC, stJ, stA, P, C, A.
    split; [done|]. split; [done|]. split; [done|].
    split; [by rewrite EC, <- app_assoc|]. split; [done|]. split; [done|].
    rewrite EA, EJ, EC, <- app_assoc. cbn [app].
    rewrite (insert_operand _ _ _ _ _ _) by lia.
    rewrite !length_app. cbn [length].
    rewrite EP, <- !app_assoc. cbn [app]. do 4 f_equal. lia.
  - apply fbind_Ok in Hc as (stJ & HJ & Hc). injection HJ as HJ.
    apply fbind_Ok in Hc as (stA & HA & Hc). injection Hc as Hc.
    destruct (compileExpr_extends _ _ _ _ _ _ _ _ HA) as ([A EA] & _).
    apply setJumpLocation_ops in HJ as (_ & EJ & _).
    apply setJumpLocation_ops in Hc as (_ & E' & _).
    rewrite emit_ops in EJ.
    exists stP, stC, stJ, stA, P, C, A.
    split; [done|]. split; [done|]. split; [done|].
    split; [by rewrite EC, <- app_assoc|]. split; [done|]. split; [done|].
    set (v := Z.of_nat (length C) + 4).
    assert (Code.ops (cur stJ)
            = (Code.ops (cur stP) ++ opcodeJumpFalse :: v :: C) ++ [opcodeJump; 0])
      as EJ'.
    { rewrite EJ, EC, <- !app_assoc. cbn [app].
      rewrite (insert_operand _ _ _ _ _ _) by lia.
      rewrite !length_app. cbn [length]. rewrite ?length_app. cbn [length].
      do 3 f_equal. unfold v. lia. }
    rewrite E', EA, EJ', <- !app_assoc. cbn [app].
    replace (Code.ops (cur stP) ++ opcodeJumpFalse :: v :: C ++ opcodeJump :: 0 :: A)
      with ((Code.ops (cur stP) ++ opcodeJumpFalse :: v :: C) ++ opcodeJump :: 0 :: A)
      by (by rewrite <- app_assoc).
    rewrite (insert_operand _ _ _ _ _ _)
      by (rewrite EC, !length_app; cbn [length]; lia).
    rewrite ?length_app. cbn [length]. rewrite ?length_app. cbn [length].
    rewrite EP, <- ?app_assoc. cbn [app]. rewrite <- ?app_assoc. cbn [app].
    do 7 f_equal. rewrite EC, EP, !length_app. cbn [length]. lia.
Qed.

(** [(if x 1 2)] not in tail position. *)
Lemma if_jump_targets_witness :
  let st := MkCompile (newCode 0 None None "") [] in
  exists st' P C A,
    compileIfElse 2 st EmptyList (Symbol "x") (Number 1) (list_ [Number 2])
                  false false ""
    = Some (Ok st') /\
    Code.ops (cur st')
    = Code.ops (cur st) ++ P ++
      [opcodeJumpFalse; Z.of_nat (length C) + 4] ++ C ++
      [opcodeJump; Z.of_nat (length A) + 2] ++ A /\
    Code.ops (cur st')
    = [opcodeGlobal; 0; opcodeJumpFalse; 6; opcodeLiteral; 1; opcodeJump; 4;
       opcodeLiteral; 2].
Proof.
  intros st.
  destruct (compileIfElse 2 st EmptyList (Symbol "x") (Number 1) (list_ [Number 2])
              false false "") as [[st'| |]|] eqn:Hc;
    [|vm_compute in Hc; discriminate ..].
  destruct (if_jump_targets 1 st EmptyList (Symbol "x") (Number 1)
              (list_ [Number 2]) false false "" st' Hc)
    as (stP & stC & stJ & stA & P & C & A & _ & _ & _ & _ & _ & _ & Hops).
  exists st', P, C, A. split; [reflexivity|]. split; [exact Hops|].
  vm_compute in Hc. by injection Hc as <-.
Defined.

Lemma step_jumpfalse `{Host} (m : Machine) (b : LOB) (rel : Z) :
  is_Some (heap m !! env m) ->
  control m = Fetch ->
  index (ops m) (pc m) = Some opcodeJumpFalse ->
  index (stack m) (sp m) = Some b ->
  index (ops m) (pc m + 1) = Some rel ->
  step m = Ok (inl (setRegs m (stack m) (sp m + 1)
                            (pc m + (if identical b False_ then rel else 2)))).
Proof.
  intros [fr Hfr] Hctl Hop Hb Hrel.
  unfold step. rewrite Hfr, Hctl. simpl.
  unfold fetch. rewrite Hop. simpl. rewrite Hb. simpl.
  destruct (identical b False_); [|done]. by rewrite Hrel.
Qed.

Lemma step_jump `{Host} (m : Machine) (rel : Z) :
  is_Some (heap m !! env m) ->
  control m = Fetch ->
  index (ops m) (pc m) = Some opcodeJump ->
  index (ops m) (pc m + 1) = Some rel ->
  step m = Ok (inl (setRegs m (stack m) (sp m) (pc m + rel))).
Proof.
  intros [fr Hfr] Hctl Hop Hrel.
  unfold step. rewrite Hfr, Hctl. simpl.
  unfold fetch. rewrite Hop. simpl. by rewrite Hrel.
Qed.

Lemma compileIfElse_literals `{Host} (fuel : nat) (cs : list LOB)
    (c a rest b : LOB) :
  selfEvaluating c = true -> selfEvaluating a = true -> selfEvaluating b = true ->
  (if negb (identical rest EmptyList) then car rest else EmptyList) = b ->
  exists st,
    compileIfElse (S (S fuel)) (MkCompile (newCode 0 None None "") cs) EmptyList
                  c a rest false false ""
    = Some (Ok st) /\
    forall (g mac : gmap string LOB) (n : nat),
      exec (5 + n) (MkWorld (pool (emitReturn st)) g mac) false
           (cur (emitReturn st)) []
      = Some (Ok (if identical c False_ then b else a)).
Proof.
  intros Hc Ha Hb Halt.
  remember (S fuel) as k eqn:Hk. cbn [compileIfElse]. rewrite Halt. subst k.
  rewrite compileExpr_selfEvaluating by done. cbn [fbind].
  unfold emitJumpFalse.
  rewrite compileExpr_selfEvaluating by done. cbn [fbind negb emitJump].
  unfold emitLiteral, emitConstant. cbn [cur pool].
  destruct (putConstant_spec c cs) as [Ic _].
  destruct (putConstant c cs) as [ic cs1]. cbn [fst snd] in Ic. cbn [cur pool emit].
  destruct (putConstant_spec a cs1) as [Ia [m1 E1]].
  destruct (putConstant a cs1) as [ia cs2]. cbn [fst snd] in Ia, E1.
  unfold setJumpLocation, emit, appendOps, newCode.
  cbn -[compileExpr putConstant exec].
  change (Z.of_nat 2 + 1) with 3. change (Z.of_nat 8 - 3 + 1) with 6.
  change (Z.of_nat 6 + 1) with 7.
  rewrite store_Some by (cbn [length]; lia).
  change (Z.to_nat 3) with 3%nat.
  cbn -[compileExpr putConstant exec].
  rewrite compileExpr_selfEvaluating by done. cbn [fbind].
  unfold emitLiteral, emitConstant. cbn [cur pool].
  destruct (putConstant_spec b cs2) as [Ib [m2 E2]].
  destruct (putConstant b cs2) as [ib cs3]. cbn [fst snd] in Ib, E2.
  unfold appendOps, lift.
  cbn -[exec store].
  rewrite store_Some by (cbn [length]; lia).
  change (Z.to_nat 7) with 7%nat. change (Z.of_nat 10 - 7 + 1) with 4.
  cbn -[exec].
  eexists. split; [reflexivity|]. intros g mac n.
  unfold emitReturn, emit, appendOps. cbn -[exec].
  assert (index cs3 ic = Some c) as Ic3
    by (subst cs3 cs2; by do 2 apply index_app_l).
  assert (index cs3 ia = Some a) as Ia3 by (subst cs3; by apply index_app_l).
  rewrite exec_start by done. cbn [Code.ops].
  set (stk := replicate (Z.to_nat defaultStackSize) Nil).
  erewrite run_step; [|eapply step_literal; cbn; try done].
  cbn [stack sp env ops pc heap world interrupt control].
  erewrite run_step; [|eapply step_jumpfalse; cbn; try done].
  unfold setRegs. cbn [stack sp env ops pc heap world interrupt control].
  destruct (identical c False_).
  - erewrite run_step; [|eapply step_literal; cbn; try done].
    cbn [stack sp env ops pc heap world interrupt control].
    apply run_return. eapply step_return_top; cbn; done.
  - erewrite run_step; [|eapply step_literal; cbn; try done].
    cbn [stack sp env ops pc heap world interrupt control].
    erewrite run_step; [|eapply step_jump; cbn; try done].
    unfold setRegs. cbn [stack sp env ops pc heap world interrupt control].
    apply run_return. eapply step_return_top; cbn; done.
Qed.

(** X15: only [false] is false.  [(if c a b)] on constants compiles and
    evaluates to [b] when [c] is the object [false] and to [a] for every
    other constant [c]; with the alternative left out the value for
    [false] is the empty list. *)
Theorem if_selects_branch `{Host} (fuel : nat) (cs : list LOB) (c a b : LOB)
    (g mac : gmap string LOB) (n : nat) :
  selfEvaluating c = true -> selfEvaluating a = true -> selfEvaluating b = true ->
  (exists st,
     compile (S (S (S fuel))) cs (list_ [intern "if"; c; a; b]) = Some (Ok st) /\
     exec (5 + n) (MkWorld (pool st) g mac) false (cur st) []
     = Some (Ok (if identical c False_ then b else a))) /\
  (exists st,
     compile (S (S (S fuel))) cs (list_ [intern "if"; c; a]) = Some (Ok st) /\
     exec (5 + n) (MkWorld (pool st) g mac) false (cur st) []
     = Some (Ok (if identical c False_ then EmptyList else a))).
Proof.
  intros Hc Ha Hb. split.
  - destruct (compileIfElse_literals fuel cs c a (Pair b EmptyList) b)
      as (st & Hst & Hrun); [done ..|].
    exists (emitReturn st). split; [|apply Hrun].
    unfold compile. remember (S (S fuel)) as k. unfold_compile. subst k.
    by rewrite Hst.
  - destruct (compileIfElse_literals fuel cs c a EmptyList EmptyList)
      as (st & Hst & Hrun); [done ..|].
    exists (emitReturn st). split; [|apply Hrun].
    unfold compile. remember (S (S fuel)) as k. unfold_compile. subst k.
    by rewrite Hst.
Qed.

(** [(if false 1 2)] *)
Lemma if_selects_branch_witness :
  selfEvaluating False_ = true /\ selfEvaluating (Number 1) = true /\
  selfEvaluating (Number 2) = true /\
  exists st,
    compile 3 [] (list_ [intern "if"; False_; Number 1; Number 2]) = Some (Ok st) /\
    Code.ops (cur st)
    = [opcodeLiteral; 0; opcodeJumpFalse; 6; opcodeLiteral; 1; opcodeJump; 4;
       opcodeLiteral; 2; opcodeReturn] /\
    exec 5 (MkWorld (pool st) ∅ ∅) false (cur st) [] = Some (Ok (Number 2)).
Proof.
  do 3 (split; [reflexivity|]).
  destruct (if_selects_branch 0 [] False_ (Number 1) (Number 2) ∅ ∅ 0
              eq_refl eq_refl eq_refl) as [(st & Hst & Hrun) _].
  exists st. split; [exact Hst|]. split; [|exact Hrun].
  vm_compute in Hst. by injection Hst as <-.
Defined.

(** ** Calls of primitives *)

Lemma compileArgs_literals `{Host} (cenv : LOB) (context : string)
    (objs : list LOB) :
  Forall (fun o => selfEvaluating o = true) objs ->
  forall (fuel : nat) (st : CompileState),
    (length objs + 1 <= fuel)%nat ->
    exists st' idxs more,
      compileArgs fuel st cenv (list_ objs) context = Some (Ok st') /\
      Code.ops (cur st') = Code.ops (cur st) ++ literals idxs /\
      Code.name (cur st') = Code.name (cur st) /\
      Code.argc (cur st') = Code.argc (cur st) /\
      pool st' = pool st ++ more /\
      Forall2 (fun idx o => index (pool st') idx = Some o) idxs (rev objs).
Proof.
  induction 1 as [|obj objs Hobj _ IH]; intros fuel st Hfuel.
  - destruct fuel as [|fuel]; [lia|]. exists st, [], []. simpl.
    by rewrite !app_nil_r.
  - destruct fuel as [|fuel]; [simpl in Hfuel; lia|].
    cbn [compileArgs list_ foldr identical negb cdr car].
    destruct (IH fuel st) as (st1 & idxs & more & Hc & Hops & Hn & Ha & Hpool & Hall);
      [simpl in Hfuel; lia|].
    fold (list_ objs). rewrite Hc. cbn [fbind].
    destruct fuel as [|fuel]; [simpl in Hfuel; lia|].
    rewrite compileExpr_selfEvaluating by done.
    destruct (emitConstant_spec opcodeLiteral st1 obj)
      as (idx & more1 & Hops1 & Hpool1 & Hidx1).
    exists (emitLiteral st1 obj), (idxs ++ [idx]), (more ++ more1).
    split; [done|]. unfold emitLiteral. split; [|split; [|split; [|split]]].
    + rewrite Hops1, Hops. unfold literals. rewrite flat_map_app.
      by rewrite <- app_assoc.
    + rewrite <- Hn. unfold emitConstant. by destruct (putConstant _ _).
    + rewrite <- Ha. unfold emitConstant. by destruct (putConstant _ _).
    + by rewrite Hpool1, Hpool, <- app_assoc.
    + simpl. apply Forall2_app; [|by constructor].
      eapply Forall2_impl; [exact Hall|]. simpl. intros i o Hi.
      rewrite Hpool1. by apply index_app_l.
Qed.

Lemma index_drop {A} (l l' : list A) (pc k : Z) :
  drop (Z.to_nat pc) l = l' -> 0 <= pc -> 0 <= k ->
  index l (pc + k) = l' !! Z.to_nat k.
Proof.
  intros <- Hpc Hk. rewrite index_Some by lia. rewrite lookup_drop.
  f_equal. lia.
Qed.

Lemma step_global `{Host} (m : Machine) (idx : Z) (s : string) (v : LOB) :
  is_Some (heap m !! env m) ->
  control m = Fetch ->
  index (ops m) (pc m) = Some opcodeGlobal ->
  index (ops m) (pc m + 1) = Some idx ->
  index (constants (world m)) idx = Some (Symbol s) ->
  globals (world m) !! s = Some v ->
  1 <= sp m <= Z.of_nat (length (stack m)) ->
  step m = Ok (inl (setRegs m (<[Z.to_nat (sp m - 1) := v]> (stack m))
                            (sp m - 1) (pc m + 2))).
Proof.
  intros [fr Hfr] Hctl Hop Hidx Hsym Hv Hsp.
  unfold step. rewrite Hfr, Hctl. simpl.
  unfold fetch. rewrite Hop. simpl. rewrite Hidx. simpl. rewrite Hsym. simpl.
  rewrite Hv. unfold push. by rewrite store_Some by lia.
Qed.

Lemma step_call `{Host} (m : Machine) (fun_ : LOB) (argc : Z) :
  is_Some (heap m !! env m) ->
  control m = Fetch ->
  index (ops m) (pc m) = Some opcodeCall ->
  index (stack m) (sp m) = Some fun_ ->
  index (ops m) (pc m + 1) = Some argc ->
  step m = Ok (inl (MkMachine (stack m) (sp m + 1) (env m) (ops m) (pc m)
                              (CallAgain fun_ argc (pc m + 2))
                              (heap m) (world m) (interrupt m))).
Proof.
  intros [fr Hfr] Hctl Hop Hf Hargc.
  unfold step. rewrite Hfr, Hctl. simpl.
  unfold fetch. rewrite Hop. simpl. rewrite Hf. simpl. by rewrite Hargc.
Qed.


Section PrimitiveCall.
Context `{Host}.

End PrimitiveCall.

Lemma length_list (l : list LOB) : length_ (list_ l) = Z.of_nat (length l).
Proof. unfold length_. by rewrite listElements_list. Qed.

Lemma length_pair (a d : LOB) : (length_ (Pair a d) =? 0) = false.
Proof.
  unfold length_. simpl. by destruct (listElements d).
Qed.




(** ** [exec] *)

Lemma step_local_here `{Host} (m : Machine) (fr : Frame.t) (j : Z) (v : LOB) :
  heap m !! env m = Some fr ->
  control m = Fetch ->
  index (ops m) (pc m) = Some opcodeLocal ->
  index (ops m) (pc m + 1) = Some 0 ->
  index (ops m) (pc m + 2) = Some j ->
  index (Frame.elements fr) j = Some v ->
  1 <= sp m <= Z.of_nat (length (stack m)) ->
  step m = Ok (inl (setRegs m (<[Z.to_nat (sp m - 1) := v]> (stack m))
                            (sp m - 1) (pc m + 3))).
Proof.
  intros Hfr Hctl Hop Hi Hj Hv Hsp.
  unfold step. rewrite Hfr, Hctl. simpl.
  unfold fetch. rewrite Hop. simpl. rewrite Hi, Hj. simpl.
  rewrite Hfr. simpl. rewrite Hv. simpl.
  unfold push. by rewrite store_Some by lia.
Qed.

(** X17: [exec] refuses an argument count other than the Code's argc
    before anything runs, refuses a Code without instructions, and
    otherwise makes the arguments the slots of the outermost frame:
    [local 0 j] reads argument [j]. *)
Theorem exec_binds_arguments `{Host} (w : World) (intr : bool) (c : LCode)
    (args : list LOB) :
  (Z.of_nat (length args) <> Code.argc c ->
   forall n, exec n w intr c args
             = Some (Err (ErrorV [AStr "Wrong number of arguments"]))) /\
  (Z.of_nat (length args) = Code.argc c -> Code.ops c = [] ->
   forall n, exec n w intr c args
             = Some (Err (ErrorV [AStr "No code to execute"]))) /\
  (Z.of_nat (length args) = Code.argc c ->
   forall (j : Z) (v : LOB) (n : nat),
     Code.ops c = [opcodeLocal; 0; j; opcodeReturn] ->
     index args j = Some v ->
     exec (2 + n) w false c args = Some (Ok v)).
Proof.
  split; [|split].
  - intros Hne n. unfold exec.
    by destruct (Z.eqb_spec (Z.of_nat (length args)) (Code.argc c)).
  - intros Heq Hops n. unfold exec. rewrite Heq, Z.eqb_refl. simpl.
    unfold VM_exec, initial. rewrite make_Some by done. simpl.
    by rewrite Hops.
  - intros Heq j v n Hops Hv. unfold exec. rewrite Heq, Z.eqb_refl. simpl.
    unfold VM_exec, initial. rewrite make_Some by done. cbn [mbind outcome_bind].
    rewrite Hops. cbn [length Z.of_nat Z.eqb Pos.of_succ_nat].
    set (stk := replicate (Z.to_nat defaultStackSize) Nil).
    assert (length stk = Z.to_nat defaultStackSize) as Hlen by apply length_replicate.
    change (Z.of_nat 4 =? 0) with false. cbn [orPanic mbind outcome_bind].
    erewrite run_step;
      [|eapply step_local_here; cbn; try done; rewrite Hlen; done].
    unfold setRegs. cbn [stack sp env ops pc heap world interrupt control].
    apply run_return. eapply step_return_top; cbn; try done.
Qed.

(** A Code of two parameters that returns the second. *)
Lemma exec_binds_arguments_witness :
  let c := Code.Make "second" [opcodeLocal; 0; 1; opcodeReturn] 2 None None in
  exec 0 (MkWorld [] ∅ ∅) false c [Number 1]
  = Some (Err (ErrorV [AStr "Wrong number of arguments"])) /\
  exec 2 (MkWorld [] ∅ ∅) false c [Number 1; Number 2] = Some (Ok (Number 2)).
Proof.
  intros c.
  destruct (exec_binds_arguments (MkWorld [] ∅ ∅) false c [Number 1])
    as (Hwrong & _).
  destruct (exec_binds_arguments (MkWorld [] ∅ ∅) false c [Number 1; Number 2])
    as (_ & _ & Hok).
  split.
  - apply Hwrong. simpl. lia.
  - apply (Hok eq_refl 1 (Number 2) 0%nat eq_refl eq_refl).
Defined.

(** ** The quasiquote walker *)

Section QuasiquoteMore.
Context `{Host}.
Variable macroexpand : LOB -> outcome LOB.

Lemma expandQQItems_cons (item : LOB) :
  exists part : outcome LOB,
    forall rest,
      expandQQItems macroexpand (Pair item rest)
      = (p ← part; parts ← expandQQItems macroexpand rest; Ok (p :: parts)).
Proof. eexists. intros rest. reflexivity. Qed.

(** X18: the quasiquote walker translates the elements of a list one by
    one, from left to right, each independently of its neighbours: the
    parts of [xs ++ ys] are the parts of [xs] followed by the parts of
    [ys], and a failure in [xs] is the failure of the whole. *)
Theorem quasiquote_distributes_over_append (xs ys : list LOB) :
  expandQQItems macroexpand (list_ (xs ++ ys))
  = (px ← expandQQItems macroexpand (list_ xs);
     py ← expandQQItems macroexpand (list_ ys);
     Ok (px ++ py)).
Proof.
  induction xs as [|x xs IH].
  - simpl. by destruct (expandQQItems macroexpand (list_ ys)).
  - destruct (expandQQItems_cons x) as [part Hpart].
    cbn [app list_ foldr]. fold (list_ (xs ++ ys)). fold (list_ xs).
    rewrite !Hpart, IH.
    destruct part as [p|e|]; simpl; [|done ..].
    destruct (expandQQItems macroexpand (list_ xs)) as [px|e|]; simpl; [|done ..].
    by destruct (expandQQItems macroexpand (list_ ys)).
Qed.

(** X19: a quasiquoted list of atoms needs no expander: every element [x]
    becomes [(quote (x))] and the list becomes the [concat] of these. *)
Theorem quasiquote_atoms (items : list LOB) :
  Forall (fun x => isPair x = false) items ->
  expandQQItems macroexpand (list_ items)
  = Ok (List.map (fun x => list_ [intern "quote"; list_ [x]]) items) /\
  expandQQList macroexpand (list_ items)
  = Ok (list_ (intern "concat" ::
               List.map (fun x => list_ [intern "quote"; list_ [x]]) items)).
Proof.
  intros Hall.
  assert (expandQQItems macroexpand (list_ items)
          = Ok (List.map (fun x => list_ [intern "quote"; list_ [x]]) items)) as Hi.
  { induction Hall as [|x items Hx _ IH]; [done|].
    cbn [list_ foldr expandQQItems]. fold (list_ items). rewrite IH.
    by destruct x. }
  split; [exact Hi|]. unfold expandQQList. by rewrite Hi.
Qed.
End QuasiquoteMore.

(** [`(a 1)] *)
Lemma quasiquote_atoms_witness :
  Forall (fun x => isPair x = false) [Symbol "a"; Number 1] /\
  expandQQList (fun x => Ok x) (list_ [Symbol "a"; Number 1])
  = Ok (list_ [intern "concat";
               list_ [intern "quote"; list_ [Symbol "a"]];
               list_ [intern "quote"; list_ [Number 1]]]).
Proof.
  assert (Forall (fun x => isPair x = false) [Symbol "a"; Number 1]) as Hall
    by (repeat constructor).
  split; [exact Hall|].
  exact (proj2 (quasiquote_atoms (fun x => Ok x) [Symbol "a"; Number 1] Hall)).
Defined.

(** ** Global variables *)


Lemma run_error `{Host} (n : nat) (m : Machine) (e : LOB) :
  step m = Err e -> run (S n) m = Some (Err e).
Proof. intros Hs. simpl. by rewrite Hs. Qed.


Lemma length_cons (a d : LOB) :
  0 <= length_ d -> length_ (Pair a d) = 1 + length_ d.
Proof.
  unfold length_. simpl. destruct (listElements d) as [l|]; simpl; [|lia].
  intros _. lia.
Qed.

(** X21: [(define (f . params) val more ...)] compiles exactly as
    [(define f (lambda params val))]: the compiler's own function
    shorthand takes the first body expression only. *)
Theorem define_function_shorthand `{Host} (fuel : nat) (st : CompileState)
    (cenv sig val more : LOB) (isTail ignoreResult : bool) (context : string) :
  isPair sig = true -> 1 <= length_ sig -> isSymbol (car sig) = true ->
  0 <= length_ more ->
  compileExpr (S fuel) st cenv
              (Pair (intern "define") (Pair sig (Pair val more)))
              isTail ignoreResult context
  = compileExpr (S fuel) st cenv
                (list_ [intern "define"; car sig;
                        list_ [intern "lambda"; cdr sig; val]])
                isTail ignoreResult context.
Proof.
  intros Hpair Hlen Hsym Hmore.
  assert (length_ (Pair (intern "define") (Pair sig (Pair val more)))
          = 3 + length_ more) as Hl.
  { assert (length_ (Pair val more) = 1 + length_ more) as L1
      by (apply length_cons; lia).
    assert (length_ (Pair sig (Pair val more)) = 2 + length_ more) as L2
      by (rewrite length_cons; lia).
    rewrite length_cons; lia. }
  cbn [compileExpr isSymbol isPair list_ foldr car cdr cadr caddr cddr].
  rewrite !length_pair. cbn [identical intern]. decide_symbols. cbn [negb].
  change (Pair (Symbol "define") (Pair sig (Pair val more)))
    with (Pair (intern "define") (Pair sig (Pair val more))).
  rewrite Hl.
  assert (forall a b c, length_ (Pair a (Pair b (Pair c EmptyList))) = 3) as ->
    by reflexivity.
  destruct (Z.ltb_spec (3 + length_ more) 3) as [?|_]; [lia|].
  change (3 <? 3) with false. cbn iota.
  assert (isSymbol sig = false) as -> by (by destruct sig).
  rewrite Hpair, Hsym. cbn [negb andb].
  by destruct (Z.leb_spec 1 (length_ sig)) as [_|?]; [|lia].
Qed.

Lemma define_function_shorthand_witness :
  let st := MkCompile (newCode 0 None None "") [] in
  let sig := list_ [Symbol "f"; Symbol "x"] in
  isPair sig = true /\ 1 <= length_ sig /\ isSymbol (car sig) = true /\
  0 <= length_ EmptyList /\
  compileExpr 6 st EmptyList (list_ [intern "define"; sig; Symbol "x"]) false false ""
  = compileExpr 6 st EmptyList
      (list_ [intern "define"; Symbol "f";
              list_ [intern "lambda"; list_ [Symbol "x"]; Symbol "x"]])
      false false "" /\
  compileExpr 6 st EmptyList (list_ [intern "define"; sig; Symbol "x"]) false false ""
  = Some (Ok (MkCompile
                (Code.Make "" [opcodeClosure; 0; opcodeDefGlobal; 1] 0 None None)
                [CodeObject (Code.Make "f" [opcodeLocal; 0; 0; opcodeReturn]
                                       1 None None);
                 Symbol "f"])).
Proof.
  intros st sig.
  split; [reflexivity|]. split; [vm_compute; discriminate|].
  split; [reflexivity|]. split; [vm_compute; discriminate|].
  split; [|vm_compute; reflexivity].
  apply (define_function_shorthand 5 st EmptyList sig (Symbol "x") EmptyList
           false false ""); [reflexivity | vm_compute; discriminate | reflexivity
                            | vm_compute; discriminate].
Defined.

(** ** Application of a lambda expression *)

Lemma lambdaParams_symbols (names : list string) (argc : Z) (syms : list LOB) :
  lambdaParams (list_ (List.map Symbol names)) argc syms
  = Ok (argc + Z.of_nat (length names), syms ++ List.map Symbol names, None, None).
Proof.
  revert argc syms. induction names as [|a names IH]; intros argc syms.
  - simpl. by rewrite Z.add_0_r, app_nil_r.
  - cbn [List.map list_ foldr lambdaParams isSymbol negb].
    fold (list_ (List.map Symbol names)). rewrite IH.
    rewrite <- app_assoc. cbn [app length]. do 4 f_equal. lia.
Qed.

Lemma locationInFrame_nodup (names : list string) (k : nat) (x : string) (j0 : Z) :
  NoDup names -> names !! k = Some x ->
  locationInFrame (Symbol x) (list_ (List.map Symbol names)) j0
  = Some (j0 + Z.of_nat k).
Proof.
  intros Hnd. revert k j0. induction Hnd as [|a names Ha _ IH]; intros k j0 Hk.
  - done.
  - cbn [List.map list_ foldr locationInFrame identical].
    destruct k as [|k]; simpl in Hk.
    + injection Hk as ->. rewrite bool_decide_eq_true_2 by done.
      f_equal. lia.
    + rewrite bool_decide_eq_false_2.
      * fold (list_ (List.map Symbol names)). rewrite (IH k) by done.
        f_equal. lia.
      * intros ->. apply Ha. by eapply list_elem_of_lookup_2.
Qed.

Lemma step_closure `{Host} (m : Machine) (idx : Z) (c : LCode) :
  is_Some (heap m !! env m) ->
  control m = Fetch ->
  index (ops m) (pc m) = Some opcodeClosure ->
  index (ops m) (pc m + 1) = Some idx ->
  index (constants (world m)) idx = Some (CodeObject c) ->
  1 <= sp m <= Z.of_nat (length (stack m)) ->
  step m = Ok (inl (setRegs m (<[Z.to_nat (sp m - 1) := newClosure (Some c) (env m)]>
                                 (stack m))
                            (sp m - 1) (pc m + 2))).
Proof.
  intros [fr Hfr] Hctl Hop Hidx Hc Hsp.
  unfold step. rewrite Hfr, Hctl. simpl.
  unfold fetch. rewrite Hop. simpl. rewrite Hidx. simpl. rewrite Hc. simpl.
  unfold push. by rewrite store_Some by lia.
Qed.

Lemma step_call_closure `{Host} (m : Machine) (lfun : LFunction) (fcode : LCode)
    (argc savedPc : Z) :
  is_Some (heap m !! env m) ->
  control m = CallAgain (Function lfun) argc savedPc ->
  primitive lfun = None -> code lfun = Some fcode ->
  Code.defaults fcode = None -> Code.argc fcode = argc ->
  interrupt m = false ->
  0 <= sp m -> 0 <= argc -> sp m + argc <= Z.of_nat (length (stack m)) ->
  step m
  = Ok (inl (enter m (Frame.Make (frame lfun) (Some (env m)) (ops m)
                                (take (Z.to_nat argc) (drop (Z.to_nat (sp m)) (stack m)))
                                [] (Some fcode) savedPc)
                   (sp m + argc) (Code.ops fcode))).
Proof.
  intros [fr Hfr] Hctl Hp Hcode Hd Hargc Hi Hsp Ha Hlen.
  unfold step. rewrite Hfr, Hctl. simpl. rewrite Hp, Hcode, Hi.
  unfold buildFrame. rewrite Hcode. simpl. rewrite Hd, Hargc.
  rewrite Z.eqb_refl. simpl.
  rewrite make_Some by done. simpl. rewrite slice_Some by lia. simpl.
  replace (sp m + argc - sp m) with argc by lia.
  rewrite copy_same; [reflexivity|].
  rewrite length_replicate, length_take, length_drop. lia.
Qed.

Lemma step_return_caller `{Host} (m : Machine) (fr : Frame.t) (prev : nat) :
  heap m !! env m = Some fr ->
  Frame.previous fr = Some prev ->
  control m = Fetch ->
  index (ops m) (pc m) = Some opcodeReturn ->
  interrupt m = false ->
  step m = Ok (inl (MkMachine (stack m) (sp m) prev (Frame.ops fr) (Frame.pc fr)
                              Fetch (heap m) (world m) (interrupt m))).
Proof.
  intros Hfr Hprev Hctl Hop Hi.
  unfold step. rewrite Hfr, Hctl. simpl.
  unfold fetch, leave. rewrite Hop. simpl. rewrite Hprev, Hi. done.
Qed.

Lemma compile_projection `{Host} (names : list string) (args : list LOB)
    (k : nat) (x : string) (fuel : nat) (st : CompileState) :
  NoDup names ->
  Forall (fun o => selfEvaluating o = true) args ->
  names !! k = Some x ->
  exists st' idxs ic,
    compileExpr (length args + 6 + fuel) st EmptyList (list_ (projection names x :: args))
                false false ""
    = Some (Ok st') /\
    Code.ops (cur st')
    = Code.ops (cur st) ++ literals idxs ++ [opcodeClosure; ic; opcodeCall; Z.of_nat (length args)] /\
    Code.argc (cur st') = Code.argc (cur st) /\
    Forall2 (fun idx o => index (pool st') idx = Some o) idxs (rev args) /\
    index (pool st') ic = Some (CodeObject (projectionCode names k)).
Proof.
  intros Hnd Hargs Hx.
  destruct (compileArgs_literals EmptyList "" args Hargs (length args + 4 + fuel)
              st ltac:(lia))
    as (st1 & idxs & more & Hc1 & Hops1 & Hn1 & Ha1 & Hpool1 & Hall).
  destruct (emitConstant_spec opcodeClosure st1 (CodeObject (projectionCode names k)))
    as (ic & more2 & Hops2 & Hpool2 & Hic).
  exists (emitCall (emitClosure st1 (projectionCode names k)) (Z.of_nat (length args))), idxs, ic.
  split; [|split; [|split; [|split]]].
  - replace (length args + 6 + fuel)%nat with (S (S (length args + 4 + fuel))) by lia.
    unfold projection.
    cbn [list_ foldr compileExpr isSymbol isPair car cdr identical intern].
    rewrite length_pair.
    cbn [compileFuncall]. fold (list_ args). rewrite length_list.
    destruct (Z.ltb_spec (Z.of_nat (length args)) 0) as [?|_]; [lia|].
    rewrite Hc1. cbn [fbind].
    assert (forall (b : bool) (argc : Z) (t i : bool),
              (if b then compilePrimopCall st1
                          (Pair (Symbol "lambda")
                             (Pair (list_ (List.map Symbol names))
                                (Pair (Symbol x) EmptyList))) argc t i
               else (false, st1)) = (false, st1)) as -> by (by intros []).
    cbn [fst snd].
    replace (length args + 4 + fuel)%nat with (S (S (S (S (length args + fuel))))) by lia.
    cbn [compileExpr isSymbol isPair car cdr cadr cddr identical intern].
    assert (forall a b c, length_ (Pair a (Pair b (Pair c EmptyList))) = 3) as ->
      by reflexivity.
    decide_symbols. cbn [negb Z.eqb Z.ltb Z.compare Pos.compare Pos.compare_cont].
    cbn [compileLambda lift fbind]. rewrite lambdaParams_symbols.
    cbn [fbind app Z.add toList cons].
    cbn [compileSequence identical negb cdr car compileExpr isSymbol
         calculateLocation].
    unfold cons, toList. cbn [calculateLocation].
    rewrite (locationInFrame_nodup names k x 0 Hnd Hx).
    cbn [finish fbind done value negb pool cur emitReturn emitLocal emit appendOps
         newCode Code.ops Code.name Code.argc Code.defaults Code.keys app].
    rewrite !Z.add_0_l. unfold projectionCode.
    by destruct st1.
  - unfold emitCall. rewrite emit_ops. unfold emitClosure. rewrite Hops2, Hops1.
    by rewrite <- !app_assoc.
  - rewrite <- Ha1. unfold emitCall, emitClosure, emitConstant.
    by destruct (putConstant _ _).
  - eapply Forall2_impl; [exact Hall|]. intros i o Hio. simpl in Hio.
    apply (index_app_l _ more2) in Hio. rewrite <- Hpool2 in Hio. exact Hio.
  - exact Hic.
Qed.

Lemma run_closure_call `{Host} (args : list LOB) (c : LCode) (idxs : list Z)
    (ic : Z) (m : Machine) (fr : Frame.t) (suffix : list Z) :
  let n := Z.of_nat (length args) in
  Forall2 (fun idx o => index (constants (world m)) idx = Some o) idxs (rev args) ->
  index (constants (world m)) ic = Some (CodeObject c) ->
  control m = Fetch ->
  0 <= pc m ->
  drop (Z.to_nat (pc m)) (ops m)
  = literals idxs ++ [opcodeClosure; ic; opcodeCall; n] ++ suffix ->
  heap m !! env m = Some fr ->
  n + 1 <= sp m <= Z.of_nat (length (stack m)) ->
  exists stack2,
    steps (length args + 2) m
    = Some (MkMachine stack2 (sp m - n) (env m) (ops m) (pc m + 2 * n + 2)
                      (CallAgain (newClosure (Some c) (env m)) n (pc m + 2 * n + 4))
                      (heap m) (world m) (interrupt m)) /\
    length stack2 = length (stack m) /\
    take (Z.to_nat n) (drop (Z.to_nat (sp m - n)) stack2) = args.
Proof.
  intros n Hall Hic Hctl Hpc Hdrop Hfr Hsp.
  assert (length idxs = length args) as Hk.
  { apply Forall2_length in Hall. by rewrite length_rev in Hall. }
  pose proof (run_literals idxs (rev args)
                ltac:(eapply Forall2_impl; [exact Hall | done]) m
                ([opcodeClosure; ic; opcodeCall; n] ++ suffix)
                Hall Hctl Hpc Hdrop ltac:(eauto) ltac:(unfold n in Hsp; lia)) as Hrun.
  rewrite rev_involutive, Hk in Hrun.
  set (stack1 := take (Z.to_nat (sp m) - length args) (stack m) ++ args ++
                 drop (Z.to_nat (sp m)) (stack m)) in Hrun.
  assert (length stack1 = length (stack m)) as Hl1.
  { unfold stack1. rewrite !length_app, length_take, length_drop.
    unfold n in Hsp. lia. }
  assert (forall j, 0 <= j ->
            index (ops m) (pc m + 2 * n + j)
            = ([opcodeClosure; ic; opcodeCall; n] ++ suffix) !! Z.to_nat j) as Hop.
  { intros j Hj0.
    replace (pc m + 2 * n + j) with (pc m + (2 * n + j)) by lia.
    rewrite (index_drop _ _ _ _ Hdrop) by (unfold n; lia).
    rewrite lookup_app_r by (rewrite literals_length; unfold n; lia).
    f_equal. rewrite literals_length. unfold n. lia. }
  set (m1 := MkMachine stack1 (sp m - n) (env m) (ops m) (pc m + 2 * n) Fetch
                       (heap m) (world m) (interrupt m)).
  set (clo := newClosure (Some c) (env m)).
  set (stack2 := <[Z.to_nat (sp m - n - 1) := clo]> stack1).
  assert (length stack2 = length (stack m)) as Hl2
    by (unfold stack2; by rewrite length_insert).
  set (m2 := setRegs m1 stack2 (sp m - n - 1) (pc m + 2 * n + 2)).
  assert (step m1 = Ok (inl m2)) as Hs1.
  { apply (step_closure m1 ic c); cbn; eauto.
    - rewrite <- (Z.add_0_r (pc m + 2 * n)). by rewrite Hop.
    - by rewrite Hop.
    - unfold n in *. lia. }
  set (m3 := MkMachine stack2 (sp m - n) (env m) (ops m) (pc m + 2 * n + 2)
                       (CallAgain clo n (pc m + 2 * n + 4))
                       (heap m) (world m) (interrupt m)).
  assert (step m2 = Ok (inl m3)) as Hs2.
  { rewrite (step_call m2 clo n); cbn; eauto.
    - replace (sp m - n - 1 + 1) with (sp m - n) by lia.
      by replace (pc m + 2 * n + 2 + 2) with (pc m + 2 * n + 4) by lia.
    - by rewrite Hop.
    - rewrite index_Some by (unfold n in *; lia).
      apply list_lookup_insert_eq. unfold n in *. lia.
    - replace (pc m + 2 * n + 2 + 1) with (pc m + 2 * n + 3) by lia.
      by rewrite Hop. }
  exists stack2. split; [|split; [exact Hl2|]].
  - rewrite (steps_app _ _ _ _ Hrun). change (steps (1 + 1) m1 = Some m3).
    cbn [steps Nat.add]. by rewrite Hs1, Hs2.
  - unfold stack2. rewrite drop_insert_lt by (unfold n in *; lia).
    replace (Z.to_nat (sp m - n)) with (Z.to_nat (sp m) - length args)%nat
      by (unfold n in *; lia).
    unfold stack1.
    rewrite drop_app_length' by (rewrite length_take; unfold n in *; lia).
    replace (Z.to_nat n) with (length args) by (unfold n; lia).
    apply take_app_length.
Qed.

Lemma run_projection `{Host} (names : list string) (args : list LOB) (k : nat)
    (v : LOB) (idxs : list Z) (ic : Z) (m : Machine) (fr : Frame.t)
    (suffix : list Z) :
  let n := Z.of_nat (length args) in
  length args = length names ->
  args !! k = Some v ->
  Forall2 (fun idx o => index (constants (world m)) idx = Some o) idxs (rev args) ->
  index (constants (world m)) ic = Some (CodeObject (projectionCode names k)) ->
  control m = Fetch ->
  0 <= pc m ->
  drop (Z.to_nat (pc m)) (ops m)
  = literals idxs ++ [opcodeClosure; ic; opcodeCall; n] ++ suffix ->
  heap m !! env m = Some fr ->
  interrupt m = false ->
  n + 1 <= sp m <= Z.of_nat (length (stack m)) ->
  exists m',
    steps (length args + 5) m = Some m' /\
    env m' = env m /\ ops m' = ops m /\ pc m' = pc m + 2 * n + 4 /\
    control m' = Fetch /\ sp m' = sp m - 1 /\
    index (stack m') (sp m') = Some v /\
    (exists f, heap m' = heap m ++ [f]) /\
    interrupt m' = false /\ world m' = world m.
Proof.
  intros n Hlen Hv Hall Hic Hctl Hpc Hdrop Hfr Hi Hsp.
  destruct (run_closure_call args (projectionCode names k) idxs ic m fr suffix
              Hall Hic Hctl Hpc Hdrop Hfr Hsp) as (stack2 & Hrun & Hl2 & Hargs2).
  fold n in Hrun, Hargs2.
  set (body := projectionCode names k) in *.
  set (clo := newClosure (Some body) (env m)) in *.
  set (m3 := MkMachine stack2 (sp m - n) (env m) (ops m) (pc m + 2 * n + 2)
                       (CallAgain clo n (pc m + 2 * n + 4))
                       (heap m) (world m) (interrupt m)) in *.
  set (f := Frame.Make (Some (env m)) (Some (env m)) (ops m) args [] (Some body)
                       (pc m + 2 * n + 4)).
  set (m4 := enter m3 f (sp m - n + n) (Code.ops body)).
  assert (step m3 = Ok (inl m4)) as Hs3.
  { rewrite (step_call_closure m3
               (MkFunction (Some body) (Some (env m)) None instructionNone)
               body n (pc m + 2 * n + 4)); cbn; eauto;
      try (unfold n in *; lia).
    by rewrite Hargs2. }
  set (stack5 := <[Z.to_nat (sp m - n + n - 1) := v]> stack2).
  set (m5 := setRegs m4 stack5 (sp m - n + n - 1) (0 + 3)).
  assert (step m4 = Ok (inl m5)) as Hs4.
  { apply (step_local_here m4 f (Z.of_nat k) v); cbn; try done.
    - by rewrite lookup_app_r, Nat.sub_diag by lia.
    - by rewrite index_nat.
    - unfold n in *. lia. }
  set (m6 := MkMachine stack5 (sp m - n + n - 1) (env m) (ops m) (pc m + 2 * n + 4)
                       Fetch (heap m ++ [f]) (world m) (interrupt m)).
  assert (step m5 = Ok (inl m6)) as Hs5.
  { rewrite (step_return_caller m5 f (env m)); cbn; try done.
    by rewrite lookup_app_r, Nat.sub_diag by lia. }
  exists m6. split.
  { replace (length args + 5)%nat with (length args + 2 + (1 + 1 + 1))%nat by lia.
    rewrite (steps_app _ _ _ _ Hrun).
    cbn [steps Nat.add]. by rewrite Hs3, Hs4, Hs5. }
  cbn. split; [done|]. split; [done|]. split; [done|]. split; [done|].
  split; [lia|]. split; [|split; [eauto | done]].
  rewrite index_Some by (unfold n in *; lia).
  apply list_lookup_insert_eq. unfold n in *. lia.
Qed.

Lemma step_call_mismatch `{Host} (m : Machine) (fr : Frame.t) (lfun : LFunction)
    (fcode : LCode) (argc savedPc : Z) :
  heap m !! env m = Some fr ->
  control m = CallAgain (Function lfun) argc savedPc ->
  primitive lfun = None -> code lfun = Some fcode ->
  Code.defaults fcode = None -> Code.argc fcode <> argc ->
  interrupt m = false ->
  step m
  = Err (addContext fr
           (ErrorV [AStr "Wrong number of args to "; AObj (Function lfun);
                    AStr " (expected "; AInt (Code.argc fcode);
                    AStr ", got "; AInt argc; AStr ")"])).
Proof.
  intros Hfr Hctl Hp Hcode Hd Hargc Hi.
  unfold step. rewrite Hfr, Hctl. simpl. rewrite Hp, Hcode, Hi.
  unfold buildFrame. rewrite Hcode. simpl. rewrite Hd.
  destruct (Z.eqb_spec argc (Code.argc fcode)) as [?|_]; [congruence|]. done.
Qed.

(** X22: parameters are bound by position.  The application of
    [(lambda (x1 ... xn) xk)], with distinct parameter names, to [n]
    constants compiles, and executing the code returns the [k]-th
    argument. *)
Theorem lambda_binds_positionally `{Host} (names : list string) (args : list LOB)
    (k : nat) (x : string) (v : LOB) (cs : list LOB) (g mac : gmap string LOB)
    (fuel r : nat) :
  NoDup names ->
  length args = length names ->
  Forall (fun o => selfEvaluating o = true) args ->
  names !! k = Some x ->
  args !! k = Some v ->
  Z.of_nat (length args) < defaultStackSize ->
  exists st,
    compile (length args + 6 + fuel) cs
            (list_ (list_ [intern "lambda"; list_ (List.map Symbol names); Symbol x]
                    :: args))
    = Some (Ok st) /\
    exec (length args + 6 + r) (MkWorld (pool st) g mac) false (cur st) []
    = Some (Ok v).
Proof.
  intros Hnd Hlen Hargs Hx Hv Hroom.
  destruct (compile_projection names args k x fuel
              (MkCompile (newCode 0 None None "") cs) Hnd Hargs Hx)
    as (st1 & idxs & ic & Hc & Hops & Ha & Hall & Hic).
  exists (emitReturn st1). split.
  { unfold compile. unfold projection in Hc. rewrite Hc. done. }
  set (n := Z.of_nat (length args)) in *.
  assert (Code.ops (cur (emitReturn st1))
          = literals idxs ++ [opcodeClosure; ic; opcodeCall; n] ++ [opcodeReturn])
    as Hops3.
  { unfold emitReturn. rewrite emit_ops, Hops. cbn [cur newCode Code.ops app].
    by rewrite <- !app_assoc. }
  rewrite exec_start.
  2:{ unfold emitReturn, emit, appendOps. cbn. by rewrite Ha. }
  2:{ rewrite Hops3. by destruct (literals idxs). }
  set (stk := replicate (Z.to_nat defaultStackSize) Nil).
  assert (length stk = Z.to_nat defaultStackSize) as Hstk by apply length_replicate.
  set (m := MkMachine stk defaultStackSize 0 (Code.ops (cur (emitReturn st1))) 0 Fetch
                      [Frame.Make None None [] [] [] None 0]
                      (MkWorld (pool (emitReturn st1)) g mac) false).
  destruct (run_projection names args k v idxs ic m
              (Frame.Make None None [] [] [] None 0) [opcodeReturn] Hlen Hv)
    as (m' & Hsteps & He & Ho & Hp & Hctl & Hsp & Htop & [f Hh] & Hi & Hw);
    cbn [world constants globals control pc ops heap env sp stack m]; try done.
  { unfold m. cbn. fold n. unfold defaultStackSize in *. lia. }
  replace (length args + 6 + r)%nat with (length args + 5 + S r)%nat by lia.
  rewrite (run_steps _ _ _ _ Hsteps).
  apply run_return.
  eapply (step_return_top m' (Frame.Make None None [] [] [] None 0));
    rewrite ?He, ?Hh, ?Ho, ?Hi, ?Hp; try done.
  assert (length idxs = length args) as Hk.
  { apply Forall2_length in Hall. by rewrite length_rev in Hall. }
  change (ops m) with (Code.ops (cur (emitReturn st1))). rewrite Hops3.
  change (pc m) with 0.
  rewrite index_Some by lia.
  rewrite lookup_app_r by (rewrite literals_length; lia).
  rewrite literals_length. fold n.
  by replace (Z.to_nat (0 + 2 * n + 4) - 2 * length idxs)%nat with 4%nat by lia.
Qed.

(** [((lambda (a b c) b) 1 2 3)] *)
Lemma lambda_binds_positionally_witness :
  NoDup ["a"; "b"; "c"] /\
  exists st,
    compile 9 [] (list_ [list_ [intern "lambda";
                                list_ [Symbol "a"; Symbol "b"; Symbol "c"];
                                Symbol "b"];
                         Number 1; Number 2; Number 3]) = Some (Ok st) /\
    exec 9 (MkWorld (pool st) ∅ ∅) false (cur st) [] = Some (Ok (Number 2)).
Proof.
  assert (NoDup ["a"; "b"; "c"]) as Hnd.
  { apply (bool_decide_unpack _). vm_compute. reflexivity. }
  split; [exact Hnd|].
  apply (@lambda_binds_positionally Example.host ["a"; "b"; "c"]
           [Number 1; Number 2; Number 3] 1 "b" (Number 2) [] ∅ ∅ 0 0 Hnd
           eq_refl).
  - repeat constructor.
  - reflexivity.
  - reflexivity.
  - reflexivity.
Defined.

(** X23: the application of a lambda of [n] required parameters to a
    different number of constants still compiles, and fails at the call
    with [Wrong number of args], naming the expected and the actual
    count, before any instruction of the body runs. *)
Theorem lambda_wrong_argument_count `{Host} (names : list string)
    (args : list LOB) (k : nat) (x : string) (cs : list LOB)
    (g mac : gmap string LOB) (fuel r : nat) :
  NoDup names ->
  Forall (fun o => selfEvaluating o = true) args ->
  names !! k = Some x ->
  length args <> length names ->
  Z.of_nat (length args) < defaultStackSize ->
  exists st,
    compile (length args + 6 + fuel) cs
            (list_ (list_ [intern "lambda"; list_ (List.map Symbol names); Symbol x]
                    :: args))
    = Some (Ok st) /\
    exec (length args + 3 + r) (MkWorld (pool st) g mac) false (cur st) []
    = Some (Err (ErrorV [AStr "Wrong number of args to ";
                         AObj (newClosure (Some (projectionCode names k)) 0);
                         AStr " (expected "; AInt (Z.of_nat (length names));
                         AStr ", got "; AInt (Z.of_nat (length args)); AStr ")"])).
Proof.
  intros Hnd Hargs Hx Hlen Hroom.
  destruct (compile_projection names args k x fuel
              (MkCompile (newCode 0 None None "") cs) Hnd Hargs Hx)
    as (st1 & idxs & ic & Hc & Hops & Ha & Hall & Hic).
  exists (emitReturn st1). split.
  { unfold compile. unfold projection in Hc. rewrite Hc. done. }
  set (n := Z.of_nat (length args)) in *.
  assert (Code.ops (cur (emitReturn st1))
          = literals idxs ++ [opcodeClosure; ic; opcodeCall; n] ++ [opcodeReturn])
    as Hops3.
  { unfold emitReturn. rewrite emit_ops, Hops. cbn [cur newCode Code.ops app].
    by rewrite <- !app_assoc. }
  rewrite exec_start.
  2:{ unfold emitReturn, emit, appendOps. cbn. by rewrite Ha. }
  2:{ rewrite Hops3. by destruct (literals idxs). }
  set (stk := replicate (Z.to_nat defaultStackSize) Nil).
  assert (length stk = Z.to_nat defaultStackSize) as Hstk by apply length_replicate.
  set (top := Frame.Make None None [] [] [] None 0).
  set (m := MkMachine stk defaultStackSize 0 (Code.ops (cur (emitReturn st1))) 0 Fetch
                      [top] (MkWorld (pool (emitReturn st1)) g mac) false).
  destruct (run_closure_call args (projectionCode names k) idxs ic m top
              [opcodeReturn]) as (stack2 & Hrun & _ & _);
    cbn [world constants globals control pc ops heap env sp stack m]; try done.
  { unfold m. cbn. fold n. unfold defaultStackSize in *. lia. }
  replace (length args + 3 + r)%nat with (length args + 2 + S r)%nat by lia.
  rewrite (run_steps _ _ _ _ Hrun).
  apply run_error.
  eapply eq_trans;
    [eapply (step_call_mismatch _ top
               (MkFunction (Some (projectionCode names k)) (Some 0%nat) None
                           instructionNone)
               (projectionCode names k)); cbn; try done; lia
    | reflexivity].
Qed.

(** [((lambda (a b) a) 1)] *)
Lemma lambda_wrong_argument_count_witness :
  NoDup ["a"; "b"] /\
  exists st,
    compile 7 [] (list_ [list_ [intern "lambda"; list_ [Symbol "a"; Symbol "b"];
                                Symbol "a"];
                         Number 1]) = Some (Ok st) /\
    exec 4 (MkWorld (pool st) ∅ ∅) false (cur st) []
    = Some (Err (ErrorV [AStr "Wrong number of args to ";
                         AObj (newClosure (Some (projectionCode ["a"; "b"] 0)) 0);
                         AStr " (expected "; AInt 2; AStr ", got "; AInt 1;
                         AStr ")"])).
Proof.
  assert (NoDup ["a"; "b"]) as Hnd.
  { apply (bool_decide_unpack _). vm_compute. reflexivity. }
  split; [exact Hnd|].
  apply (@lambda_wrong_argument_count Example.host ["a"; "b"] [Number 1] 0 "a"
           [] ∅ ∅ 0 0 Hnd).
  - repeat constructor.
  - reflexivity.
  - simpl. lia.
  - reflexivity.
Defined.

(** ** A definition followed by a reference *)

Lemma step_pop `{Host} (m : Machine) :
  is_Some (heap m !! env m) ->
  control m = Fetch ->
  index (ops m) (pc m) = Some opcodePop ->
  step m = Ok (inl (setRegs m (stack m) (sp m + 1) (pc m + 1))).
Proof.
  intros [fr Hfr] Hctl Hop.
  unfold step. rewrite Hfr, Hctl. simpl.
  unfold fetch. by rewrite Hop.
Qed.

(** X24: [(begin (define x v) x)], for a constant [v], compiles to
    [literal; defglobal; pop; global; return] and evaluates to [v],
    whatever [x] was bound to before: a definition is visible to the
    next expression of the sequence. *)
Theorem definition_visible_to_next `{Host} (x : string) (v : LOB)
    (cs : list LOB) (g mac : gmap string LOB) (fuel r : nat) :
  selfEvaluating v = true ->
  exists st iv ix ix',
    compile (4 + fuel) cs
            (list_ [intern "begin"; list_ [intern "define"; Symbol x; v]; Symbol x])
    = Some (Ok st) /\
    Code.ops (cur st)
    = [opcodeLiteral; iv; opcodeDefGlobal; ix; opcodePop; opcodeGlobal; ix';
       opcodeReturn] /\
    exec (5 + r) (MkWorld (pool st) g mac) false (cur st) [] = Some (Ok v).
Proof.
  intros Hv.
  unfold compile. change (4 + fuel)%nat with (S (S (S (S fuel)))).
  remember (S fuel) as k eqn:Hk.
  unfold_compile. subst k.
  rewrite compileExpr_selfEvaluating by done. cbn [fbind fst snd].
  change (Z.of_nat 3 =? 0) with false. change (Z.of_nat 3 <? 3) with false.
  cbn [fbind done compileExpr isSymbol calculateLocation].
  unfold finish, emitPop, emitReturn, emitGlobal, emitDefGlobal, emitLiteral,
    emitConstant. cbn [cur pool].
  destruct (putConstant_spec v cs) as [Iv _].
  destruct (putConstant v cs) as [iv cs1]. cbn [fst snd] in Iv. cbn [cur pool emit].
  destruct (putConstant_spec (Symbol x) cs1) as [Ix [m1 E1]].
  destruct (putConstant (Symbol x) cs1) as [ix cs2]. cbn [fst snd] in Ix, E1.
  cbn [cur pool emit].
  destruct (putConstant_spec (Symbol x) cs2) as [Ix' [m2 E2]].
  destruct (putConstant (Symbol x) cs2) as [ix' cs3]. cbn [fst snd] in Ix', E2.
  cbn [cur pool emit appendOps newCode Code.ops Code.name Code.argc Code.defaults
       Code.keys app].
  exists (MkCompile
            (Code.Make "" [opcodeLiteral; iv; opcodeDefGlobal; ix; opcodePop;
                           opcodeGlobal; ix'; opcodeReturn] 0 None None) cs3),
         iv, ix, ix'.
  split; [reflexivity|]. split; [reflexivity|]. cbn [cur pool].
  assert (index cs3 iv = Some v) as Iv3
    by (subst cs3 cs2; by do 2 apply index_app_l).
  assert (index cs3 ix = Some (Symbol x)) as Ix3 by (subst cs3; by apply index_app_l).
  rewrite exec_start by done. cbn [Code.ops].
  set (stk := replicate (Z.to_nat defaultStackSize) Nil).
  erewrite run_step; [|eapply step_literal; cbn; try done].
  cbn [stack sp env ops pc heap world interrupt control].
  erewrite run_step; [|eapply (step_defglobal _ _ ix x v); cbn; try done].
  cbn [stack sp env ops pc heap world interrupt control constants globals macros].
  erewrite run_step; [|eapply step_pop; cbn; try done].
  unfold setRegs. cbn [stack sp env ops pc heap world interrupt control].
  erewrite run_step; [|eapply (step_global _ ix' x v); cbn; try done].
  2:{ apply lookup_insert_eq. }
  unfold setRegs. cbn [stack sp env ops pc heap world interrupt control].
  apply run_return. eapply step_return_top; cbn; done.
Qed.

(** [(begin (define x 5) x)] *)
Lemma definition_visible_to_next_witness :
  selfEvaluating (Number 5) = true /\
  exists st iv ix ix',
    compile 4 [] (list_ [intern "begin";
                         list_ [intern "define"; Symbol "x"; Number 5];
                         Symbol "x"]) = Some (Ok st) /\
    Code.ops (cur st)
    = [opcodeLiteral; iv; opcodeDefGlobal; ix; opcodePop; opcodeGlobal; ix';
       opcodeReturn] /\
    exec 5 (MkWorld (pool st) ∅ ∅) false (cur st) [] = Some (Ok (Number 5)).
Proof.
  split; [reflexivity|].
  apply (@definition_visible_to_next Example.host "x" (Number 5) [] ∅ ∅ 0 0).
  reflexivity.
Defined.
